(** * stats/sample.go: descriptive statistics over possibly weighted samples

    The Go package [stats] computes bounds, sums, means, standard deviations
    and percentiles of a [Sample], a slice of float64 values with an optional
    slice of weights and a flag saying that the values are sorted.

    The development has five layers:
    - [float64]: IEEE 754 binary64 as the Standard Library specifies it
      ([SpecFloat], precision 53, emax 1024), with the comparisons and the
      conversions the Go code uses;
    - the package-level functions and the read-only methods, as functions of
      the contents of the slices;
    - an explicit store of backing arrays, so that sharing between slices,
      and between a sample and its copy, is visible;
    - [sort.Sort], [sort.Float64s] and [sort.Float64sAreSorted] of Go's
      standard library, which reach the data through [sort.Interface], and
      [sampleSorter], the implementation of that interface in this package;
    - the methods that sort or copy ([Sort], [Copy], [Percentile], [IQR]),
      over the store. *)

From Stdlib Require Import ZArith String Floats.SpecFloat.
From stdpp Require Import base option list.

Local Open Scope Z_scope.

(** ** float64 *)

Definition float64 : Type := spec_float.

Definition prec : Z := 53.
Definition emax : Z := 1024.

Definition fadd : float64 -> float64 -> float64 := SFadd prec emax.
Definition fsub : float64 -> float64 -> float64 := SFsub prec emax.
Definition fmul : float64 -> float64 -> float64 := SFmul prec emax.
Definition fdiv : float64 -> float64 -> float64 := SFdiv prec emax.
Definition flt : float64 -> float64 -> bool := SFltb.
Definition fle : float64 -> float64 -> bool := SFleb.
Definition feq : float64 -> float64 -> bool := SFeqb.

Arguments fadd : simpl never.
Arguments fsub : simpl never.
Arguments fmul : simpl never.
Arguments fdiv : simpl never.
Arguments flt : simpl never.
Arguments fle : simpl never.
Arguments feq : simpl never.

Declare Scope f64_scope.
Delimit Scope f64_scope with f64.
Infix "⊕" := fadd (at level 50, left associativity) : f64_scope.
Infix "⊖" := fsub (at level 50, left associativity) : f64_scope.
Infix "⊗" := fmul (at level 40, left associativity) : f64_scope.
Infix "⊘" := fdiv (at level 40, left associativity) : f64_scope.
Infix "<." := flt (at level 70, no associativity) : f64_scope.
Infix "<=." := fle (at level 70, no associativity) : f64_scope.
Infix "==." := feq (at level 70, no associativity) : f64_scope.
Notation "x >. y" := (flt y x) (at level 70, no associativity, only parsing) : f64_scope.
Notation "x >=. y" := (fle y x) (at level 70, no associativity, only parsing) : f64_scope.
Notation "x !=. y" := (negb (feq x y)) (at level 70, no associativity) : f64_scope.
Local Open Scope f64_scope.

(** [float64(n)] for an int [n]: the nearest binary64, ties to even. *)
Definition float64_of_int (n : Z) : float64 := binary_normalize prec emax n 0 false.

Definition f0 : float64 := S754_zero false.
Definition f1 : float64 := Eval vm_compute in float64_of_int 1.
Definition f0_25 : float64 := Eval vm_compute in binary_normalize prec emax 1 (-2) false.
Definition f0_75 : float64 := Eval vm_compute in binary_normalize prec emax 3 (-2) false.

(** The functions of Go's [math] package that the code calls. *)
Definition math_NaN : float64 := S754_nan.
Definition math_Inf (sign : Z) : float64 := S754_infinity (sign <? 0)%Z.
Definition math_IsNaN (f : float64) : bool :=
  match f with S754_nan => true | _ => false end.
Definition math_IsInf (f : float64) (sign : Z) : bool :=
  match f with
  | S754_infinity s => (sign =? 0)%Z || (if s then sign <? 0 else 0 <? sign)%Z
  | _ => false
  end.
Definition math_Sqrt : float64 -> float64 := SFsqrt prec emax.

(** [int(f)]: the fraction is discarded.  Go leaves the conversion of a NaN,
    of an infinity and of a value outside the range of [int] to the
    implementation; these give [None]. *)
Definition int_of_float64 (f : float64) : option Z :=
  match f with
  | S754_zero _ => Some 0%Z
  | S754_finite s m e =>
      let mag := (if 0 <=? e then Z.pos m * 2 ^ e else Z.pos m / 2 ^ (- e))%Z in
      let v := (if s then - mag else mag)%Z in
      if ((- 2 ^ 63 <=? v) && (v <? 2 ^ 63))%Z then Some v else None
  | _ => None
  end.

(** ** Results: a value, or a panic with its message *)

Inductive result (A : Type) : Type :=
  | Ok (a : A)
  | Panic (msg : string).
Arguments Ok {A} a.
Arguments Panic {A} msg.

#[global] Instance result_ret : MRet result := fun A a => Ok a.
#[global] Instance result_bind : MBind result := fun A B f m =>
  match m with
  | Ok a => f a
  | Panic msg => Panic msg
  end.
#[global] Instance result_fmap : FMap result := fun A B f m =>
  match m with
  | Ok a => Ok (f a)
  | Panic msg => Panic msg
  end.

(** [l[i]] with Go's bounds check. *)
Definition index {A} (l : list A) (i : nat) : result A :=
  match l !! i with
  | Some x => Ok x
  | None => Panic "index out of range"
  end.

(** ** The sample, as the contents of its slices

    [Weights = None] is the nil slice: every value has weight 1.  A nil slice
    has length 0 and no element, which [wlist] expresses. *)

Record Sample : Type := mkSample {
  Xs : list float64;
  Weights : option (list float64);
  Sorted : bool
}.

Definition wlist (s : Sample) : list float64 := default [] (Weights s).
Definition weighted (s : Sample) : bool := bool_decide (is_Some (Weights s)).

(** ** Bounds *)

Definition Bounds_step (acc : float64 * float64) (x : float64) : float64 * float64 :=
  let '(min, max) := acc in
  (if x <. min then x else min, if x >. max then x else max).

Definition Bounds (xs : list float64) : float64 * float64 :=
  match xs with
  | [] => (math_NaN, math_NaN)
  | x0 :: _ => fold_left Bounds_step xs (x0, x0)
  end.

(** First loop of the sorted, weighted path: the value at the first non-zero
    weight, [NaN] if the loop ends without a [break]. *)
Fixpoint Bounds_first (xs : list float64) (i : nat) (ws : list float64) : result float64 :=
  match ws with
  | [] => Ok math_NaN
  | w :: ws' => if w !=. f0 then index xs i else Bounds_first xs (S i) ws'
  end.

(** Second loop: [i] runs over [range s.Weights], the element looked at is
    the one at [len(s.Weights)-i-1]. *)
Fixpoint Bounds_last (xs ws : list float64) (idxs : list nat) : result float64 :=
  match idxs with
  | [] => Ok math_NaN
  | i :: idxs' =>
      let j := (length ws - i - 1)%nat in
      w ← index ws j;
      if w !=. f0 then index xs j else Bounds_last xs ws idxs'
  end.

(** Loop of the unsorted, weighted path. *)
Fixpoint Bounds_scan (ws : list float64) (i : nat) (xs : list float64)
    (min max : float64) : result (float64 * float64) :=
  match xs with
  | [] => Ok (min, max)
  | x :: xs' =>
      w ← index ws i;
      let min' := if (x <. min) && (w !=. f0) then x else min in
      let max' := if (x >. max) && (w !=. f0) then x else max in
      Bounds_scan ws (S i) xs' min' max'
  end.

Definition Sample_Bounds (s : Sample) : result (float64 * float64) :=
  if (length (Xs s) =? 0)%nat || (negb (Sorted s) && negb (weighted s)) then
    Ok (Bounds (Xs s))
  else if Sorted s then
    if negb (weighted s) then
      min ← index (Xs s) 0;
      max ← index (Xs s) (length (Xs s) - 1);
      Ok (min, max)
    else
      min ← Bounds_first (Xs s) 0 (wlist s);
      if math_IsNaN min then Ok (min, math_NaN)
      else
        max ← Bounds_last (Xs s) (wlist s) (seq 0 (length (wlist s)));
        Ok (min, max)
  else
    '(min, max) ← Bounds_scan (wlist s) 0 (Xs s) (math_Inf 1) (math_Inf (-1));
    if math_IsInf min 0 then Ok (math_NaN, math_NaN) else Ok (min, max).

(** ** Sum and Weight *)

Definition Sum (xs : list float64) : float64 :=
  fold_left (fun sum x => sum ⊕ x) xs f0.

Fixpoint Sum_loop (ws : list float64) (i : nat) (xs : list float64)
    (sum : float64) : result float64 :=
  match xs with
  | [] => Ok sum
  | x :: xs' => w ← index ws i; Sum_loop ws (S i) xs' (sum ⊕ x ⊗ w)
  end.

Definition Sample_Sum (s : Sample) : result float64 :=
  if negb (weighted s) then Ok (Sum (Xs s))
  else Sum_loop (wlist s) 0 (Xs s) f0.

Definition Sample_Weight (s : Sample) : float64 :=
  if negb (weighted s) then float64_of_int (Z.of_nat (length (Xs s)))
  else Sum (wlist s).

(** ** Mean *)

Fixpoint Mean_loop (i : nat) (xs : list float64) (m : float64) : float64 :=
  match xs with
  | [] => m
  | x :: xs' => Mean_loop (S i) xs' (m ⊕ (x ⊖ m) ⊘ float64_of_int (Z.of_nat i + 1))
  end.

Definition Mean (xs : list float64) : float64 :=
  if (length xs =? 0)%nat then math_NaN else Mean_loop 0 xs f0.

Fixpoint Sample_Mean_loop (ws : list float64) (i : nat) (xs : list float64)
    (m wsum : float64) : result float64 :=
  match xs with
  | [] => Ok m
  | x :: xs' =>
      w ← index ws i;
      let wsum' := wsum ⊕ w in
      Sample_Mean_loop ws (S i) xs' (m ⊕ (x ⊖ m) ⊗ w ⊘ wsum') wsum'
  end.

Definition Sample_Mean (s : Sample) : result float64 :=
  if (length (Xs s) =? 0)%nat || negb (weighted s) then Ok (Mean (Xs s))
  else Sample_Mean_loop (wlist s) 0 (Xs s) f0 f0.

(** ** StdDev *)

(** The loop state is [(A, Q, k)]; [k] is an int that the loop increments
    after it has used it as the divisor. *)
Fixpoint StdDev_loop (xs : list float64) (A Q : float64) (k : Z) : float64 * float64 * Z :=
  match xs with
  | [] => (A, Q, k)
  | x :: xs' =>
      let Anext := A ⊕ (x ⊖ A) ⊘ float64_of_int k in
      StdDev_loop xs' Anext (Q ⊕ (x ⊖ A) ⊗ (x ⊖ Anext)) (k + 1)
  end.

Definition StdDev (xs : list float64) : float64 :=
  if (length xs =? 0)%nat then math_NaN
  else
    let '(_, Q, k) := StdDev_loop xs f0 f0 0 in
    math_Sqrt (Q ⊘ float64_of_int (k - 1)).

Definition Sample_StdDev (s : Sample) : result float64 :=
  if (length (Xs s) =? 0)%nat || negb (weighted s) then Ok (StdDev (Xs s))
  else Panic "Weighted StdDev not implemented".

(** ** The store of backing arrays

    A slice is nil or refers to a backing array; the code never reslices, so
    a slice covers its whole array.  A Go [Sample] holds two slices: reading
    them in a store gives the [Sample] of contents above. *)

Abbreviation store := (list (list float64)).
Definition slice : Type := option nat.

Record SampleAt : Type := mkSampleAt {
  XsAt : slice;
  WeightsAt : slice;
  SortedAt : bool
}.

Definition contents (σ : store) (sl : slice) : list float64 :=
  match sl with
  | None => []
  | Some a => default [] (σ !! a)
  end.

Definition load (σ : store) (s : SampleAt) : Sample :=
  {| Xs := contents σ (XsAt s);
     Weights := (fun a => contents σ (Some a)) <$> WeightsAt s;
     Sorted := SortedAt s |}.

Definition write (sl : slice) (l : list float64) (σ : store) : store :=
  match sl with
  | None => σ
  | Some a => <[a := l]> σ
  end.

(** Computations that read and write the store and may panic. *)
Definition M (A : Type) : Type := store -> store * result A.

#[global] Instance M_ret : MRet M := fun A a σ => (σ, Ok a).
#[global] Instance M_bind : MBind M := fun A B f m σ =>
  match m σ with
  | (σ', Ok a) => f a σ'
  | (σ', Panic msg) => (σ', Panic msg)
  end.

Definition lift {A} (r : result A) : M A := fun σ => (σ, r).
Definition get_load (s : SampleAt) : M Sample := fun σ => (σ, Ok (load σ s)).

(** [len(x)], [x[i]] and [x[i] = v], with Go's bounds checks. *)
Definition len (sl : slice) : M nat :=
  fun σ => (σ, Ok (length (contents σ sl))).

Definition slice_get (sl : slice) (i : nat) : M float64 :=
  fun σ => (σ, index (contents σ sl) i).

Definition slice_set (sl : slice) (i : nat) (v : float64) : M unit :=
  fun σ =>
    if (i <? length (contents σ sl))%nat
    then (write sl (<[i := v]> (contents σ sl)) σ, Ok ())
    else (σ, Panic "index out of range").

(** [x[i], x[j] = x[j], x[i]]: both right-hand sides are read, then both
    elements are written. *)
Definition slice_swap (sl : slice) (i j : nat) : M unit :=
  xj ← slice_get sl j;
  xi ← slice_get sl i;
  _ ← slice_set sl i xj;
  slice_set sl j xi.

(** [make([]float64, n)] and the built-in [copy]. *)
Definition make (n : nat) : M slice :=
  fun σ => (σ ++ [replicate n f0], Ok (Some (length σ))).

Definition copy (dst src : slice) : M unit :=
  fun σ =>
    let d := contents σ dst in
    let s := contents σ src in
    (write dst (take (length d) s ++ drop (length s) d) σ, Ok ()).

(** ** Go's [sort] package

    [sort.Sort], [sort.IsSorted], [sort.Float64s] and
    [sort.Float64sAreSorted] belong to Go's standard library, not to this
    package.  They reach the data through the three methods of
    [sort.Interface]. *)

Record Interface : Type := {
  Len : M nat;
  Less : nat -> nat -> M bool;
  Swap : nat -> nat -> M unit
}.

(** [sort.IsSorted]: [for i := n - 1; i > 0; i--], is element [i] [Less]
    than element [i-1]? *)
Fixpoint IsSorted_loop (data : Interface) (i : nat) : M bool :=
  match i with
  | O => mret true
  | S i' =>
      b ← Less data i i';
      if b : bool then mret false else IsSorted_loop data i'
  end.

Definition sort_IsSorted (data : Interface) : M bool :=
  n ← Len data;
  IsSorted_loop data (n - 1).

(** [sort.Sort] "makes one call to data.Len to determine n and O(n*log(n))
    calls to data.Less and data.Swap".  Whatever its algorithm, what it does
    with data of length [n] is a finite plan: stop, or ask [Less] about two
    positions and go on according to the answer, or [Swap] two positions and
    go on.  [SortPkg] stands for the algorithm; [SortContract], below, states
    what Go documents about it. *)
Inductive plan : Type :=
  | Done
  | AskLess (i j : nat) (k : bool -> plan)
  | DoSwap (i j : nat) (k : plan).

Class SortPkg : Type := sort_plan : nat -> plan.

Fixpoint run (data : Interface) (p : plan) : M unit :=
  match p with
  | Done => mret ()
  | AskLess i j k => b ← Less data i j; run data (k b)
  | DoSwap i j k => _ ← Swap data i j; run data k
  end.

Definition sort_Sort `{SortPkg} (data : Interface) : M unit :=
  n ← Len data;
  run data (sort_plan n).

(** [sort.Float64Slice]: NaN sorts before every other value. *)
Definition Float64Slice_Less (x y : float64) : bool :=
  (x <. y) || (math_IsNaN x && negb (math_IsNaN y)).

Definition Float64Slice (x : slice) : Interface :=
  {| Len := len x;
     Less i j := xi ← slice_get x i; xj ← slice_get x j; mret (Float64Slice_Less xi xj);
     Swap i j := slice_swap x i j |}.

Definition sort_Float64sAreSorted (x : slice) : M bool :=
  sort_IsSorted (Float64Slice x).

Definition sort_Float64s `{SortPkg} (x : slice) : M unit :=
  sort_Sort (Float64Slice x).

(** [insertionSort(data, 0, n)] of Go's [sort] package, which is all that
    [sort.Sort] runs on a short slice (of at most 6 elements in every version
    of Go, of at most 12 in the current ones):
    [for i := 1; i < n; i++ { for j := i; j > 0 && Less(j, j-1); j-- { Swap(j, j-1) } }].
    It is the instance of [SortPkg] on which statements about concrete inputs
    are evaluated. *)
Fixpoint insertion_inner (j : nat) (k : plan) : plan :=
  match j with
  | O => k
  | S j' => AskLess j j' (fun b => if b then DoSwap j j' (insertion_inner j' k) else k)
  end.

Definition insertionSort_plan (n : nat) : plan :=
  foldr insertion_inner Done (seq 1 (n - 1)).

#[global] Instance go_sort : SortPkg := insertionSort_plan.

(** ** sampleSorter *)

Module sampleSorter.

Record t : Type := {
  xs : slice;
  weights : slice
}.

Definition Len (p : t) : M nat := len (xs p).

Definition Less (p : t) (i j : nat) : M bool :=
  xi ← slice_get (xs p) i;
  xj ← slice_get (xs p) j;
  mret (xi <. xj).

Definition Swap (p : t) (i j : nat) : M unit :=
  _ ← slice_swap (xs p) i j;
  slice_swap (weights p) i j.

End sampleSorter.

(** A [*sampleSorter] as a [sort.Interface]. *)
Definition sampleSorter_Interface (p : sampleSorter.t) : Interface :=
  {| Len := sampleSorter.Len p;
     Less := sampleSorter.Less p;
     Swap := sampleSorter.Swap p |}.

(** ** Copy *)

Definition Copy (s : SampleAt) : M SampleAt :=
  n ← len (XsAt s);
  xs ← make n;
  _ ← copy xs (XsAt s);
  weights ← match WeightsAt s with
            | None => mret None
            | Some _ =>
                n ← len (WeightsAt s);
                weights ← make n;
                _ ← copy weights (WeightsAt s);
                mret weights
            end;
  mret {| XsAt := xs; WeightsAt := weights; SortedAt := SortedAt s |}.

(** ** Sort

    The receiver is a pointer: the struct that comes back is the one that
    went in, with [Sorted] set, and the sorting happens in its arrays. *)
Definition Sort `{SortPkg} (s : SampleAt) : M SampleAt :=
  sorted ← (if SortedAt s then mret true else sort_Float64sAreSorted (XsAt s));
  _ ← (if sorted : bool then mret ()
       else if bool_decide (WeightsAt s = None) then sort_Float64s (XsAt s)
       else sort_Sort (sampleSorter_Interface
                         {| sampleSorter.xs := XsAt s; sampleSorter.weights := WeightsAt s |}));
  mret {| XsAt := XsAt s; WeightsAt := WeightsAt s; SortedAt := true |}.

(** ** Percentile and IQR *)

Fixpoint Percentile_scan (xs : list float64) (i : nat) (ws : list float64)
    (target : float64) : result float64 :=
  match ws with
  | [] => index xs (length xs - 1)
  | weight :: ws' =>
      let target' := target ⊖ weight in
      if target' <. f0 then index xs i else Percentile_scan xs (S i) ws' target'
  end.

(** [s.Xs[int(f)]]. *)
Definition index_int (xs : list float64) (f : float64) : result float64 :=
  match int_of_float64 f with
  | None => Panic "conversion of float64 to int left to the implementation"
  | Some i => if (i <? 0)%Z then Panic "index out of range" else index xs (Z.to_nat i)
  end.

(** [s = *s.Copy().Sort()] when the sample is not flagged as sorted. *)
Definition sorted_copy `{SortPkg} (s : SampleAt) : M SampleAt :=
  if negb (SortedAt s) then c ← Copy s; Sort c else mret s.

Definition Percentile `{SortPkg} (s : SampleAt) (pctile : float64) : M float64 :=
  v ← get_load s;
  if (length (Xs v) =? 0)%nat then mret math_NaN
  else if pctile <=. f0 then
    '(min, _) ← lift (Sample_Bounds v); mret min
  else if pctile >=. f1 then
    '(_, max) ← lift (Sample_Bounds v); mret max
  else
    s ← sorted_copy s;
    v ← get_load s;
    if negb (weighted v) then
      lift (index_int (Xs v) (pctile ⊗ float64_of_int (Z.of_nat (length (Xs v)) - 1)))
    else
      let target := Sample_Weight v ⊗ pctile in
      lift (Percentile_scan (Xs v) 0 (wlist v) target).

Definition IQR `{SortPkg} (s : SampleAt) : M float64 :=
  s ← sorted_copy s;
  hi ← Percentile s f0_75;
  lo ← Percentile s f0_25;
  mret (hi ⊖ lo).

(** ** Notions used in the statements *)

(** The slices of [s] refer to arrays of the store. *)
Definition valid (σ : store) (s : SampleAt) : Prop :=
  forall a, XsAt s = Some a \/ WeightsAt s = Some a -> (a < length σ)%nat.

(** Values in ascending order: each one is [<=] the next.  No comparison with
    a NaN holds, so an ascending sequence of two or more values has no NaN. *)
Fixpoint ascending (xs : list float64) : bool :=
  match xs with
  | a :: (b :: _) as t => (a <=. b) && ascending t
  | _ => true
  end.

Definition nan_free (xs : list float64) : Prop :=
  Forall (fun x => math_IsNaN x = false) xs.

(** A finite number, zero included: neither NaN nor an infinity. *)
Definition is_finite (x : float64) : bool :=
  match x with
  | S754_zero _ | S754_finite _ _ _ => true
  | _ => false
  end.

(** The value/weight pairs whose weight is not zero, in their order, and the
    sample that is left when the others are removed. *)
Definition nonzero_weight (p : float64 * float64) : bool := p.2 !=. f0.

Definition nonzero_entries (xs ws : list float64) : list (float64 * float64) :=
  filter (fun p => nonzero_weight p = true) (zip xs ws).

Definition drop_zero_weights (s : Sample) : Sample :=
  match Weights s with
  | None => s
  | Some ws =>
      let ps := nonzero_entries (Xs s) ws in
      {| Xs := ps.*1; Weights := Some ps.*2; Sorted := Sorted s |}
  end.

(** One round of the loops of Bounds and of Sum over a weighted sample. *)
Definition Bounds_scan_step (acc : float64 * float64) (p : float64 * float64)
    : float64 * float64 :=
  (if (p.1 <. acc.1) && (p.2 !=. f0) then p.1 else acc.1,
   if (p.1 >. acc.2) && (p.2 !=. f0) then p.1 else acc.2).

Definition Sum_step (sum : float64) (p : float64 * float64) : float64 :=
  sum ⊕ p.1 ⊗ p.2.

(** The exponent of a finite number is not below [emin]; every result of a
    rounding is so. *)
Definition exponent_bounded (x : float64) : Prop :=
  match x with
  | S754_finite _ _ e => (emin prec emax <= e)%Z
  | _ => True
  end.

(** The order of the numbers that are not NaN, as a lexicographic order on
    triples of integers: the class (minus infinity, negative, zero, positive,
    plus infinity), then the exponent, then the mantissa. *)
Definition order_key (x : float64) : Z * Z * Z :=
  match x with
  | S754_infinity true => (-2, 0, 0)
  | S754_finite true m e => (-1, - e, Z.neg m)
  | S754_zero _ | S754_nan => (0, 0, 0)
  | S754_finite false m e => (1, e, Z.pos m)
  | S754_infinity false => (2, 0, 0)
  end.

Definition key_lt (a b : Z * Z * Z) : Prop :=
  a.1.1 < b.1.1 \/ (a.1.1 = b.1.1 /\ (a.1.2 < b.1.2 \/ (a.1.2 = b.1.2 /\ a.2 < b.2))).

(** The values of a sample, each with its weight when the sample has weights. *)
Definition entries (s : Sample) : list (float64 * option float64) :=
  match Weights s with
  | None => (fun x => (x, None)) <$> Xs s
  | Some ws => zip (Xs s) (Some <$> ws)
  end.

(** *** Plans on a sequence of elements

    A plan can also be followed on a sequence of elements with a comparison
    of elements: [Less] about two positions is the comparison of the elements
    there, [Swap] exchanges them.  This is how the contract of [sort.Sort]
    is stated, and what the runs over the store are compared with. *)

Definition ask {A} (less : A -> A -> bool) (l : list A) (i j : nat) : bool :=
  match l !! i, l !! j with
  | Some a, Some b => less a b
  | _, _ => false
  end.

Definition swap_at {A} (l : list A) (i j : nat) : list A :=
  match l !! i, l !! j with
  | Some a, Some b => <[j := a]> (<[i := b]> l)
  | _, _ => l
  end.

Fixpoint run_list {A} (less : A -> A -> bool) (p : plan) (l : list A) : list A :=
  match p with
  | Done => l
  | AskLess i j k => run_list less (k (ask less l i j)) l
  | DoSwap i j k => run_list less k (swap_at l i j)
  end.

(** Every position that the plan names is below [n]. *)
Fixpoint in_range (n : nat) (p : plan) : Prop :=
  match p with
  | Done => True
  | AskLess i j k => (i < n)%nat /\ (j < n)%nat /\ forall b, in_range n (k b)
  | DoSwap i j k => (i < n)%nat /\ (j < n)%nat /\ in_range n k
  end.

(** Sorted as [sort.IsSorted] has it: no element is [less] than the one
    before it. *)
Fixpoint is_sorted {A} (less : A -> A -> bool) (l : list A) : bool :=
  match l with
  | a :: (b :: _) as t => negb (less b a) && is_sorted less t
  | _ => true
  end.

(** A sequence whose reversal is sorted. *)
Fixpoint sorted_backwards {A} (less : A -> A -> bool) (l : list A) : bool :=
  match l with
  | a :: (b :: _) as t => negb (less a b) && sorted_backwards less t
  | _ => true
  end.

(** The comparison of [sampleSorter] on value/weight pairs. *)
Definition pair_less (p q : float64 * float64) : bool := p.1 <. q.1.

(** What Go documents about [sort.Sort]: it calls [Less] and [Swap] on
    positions below [n] only, and the data ends up sorted as [Less]
    determines provided that [Less] describes a transitive ordering: [Less]
    is irreflexive, and both "less" and "not less" are transitive, on the
    elements of the data. *)
Definition transitive_ordering {A} (less : A -> A -> bool) (l : list A) : Prop :=
  (forall x, x ∈ l -> less x x = false) /\
  (forall x y z, x ∈ l -> y ∈ l -> z ∈ l ->
     less x y = true -> less y z = true -> less x z = true) /\
  (forall x y z, x ∈ l -> y ∈ l -> z ∈ l ->
     less x y = false -> less y z = false -> less x z = false).

Class SortContract (S : SortPkg) : Prop := {
  sort_plan_in_range : forall n : nat, in_range n (sort_plan n);
  sort_plan_sorts :
    forall (A : Type) (less : A -> A -> bool) (l : list A),
      transitive_ordering less l ->
      is_sorted less (run_list less (sort_plan (length l)) l) = true
}.

(** The insertion sort on sequences: [sift] puts an element in its place in
    the reversed prefix, nearest predecessor first; [bubble] is the inner
    loop of the plan on a sequence. *)
Fixpoint sift {A} (less : A -> A -> bool) (x : A) (before : list A) : list A :=
  match before with
  | [] => [x]
  | y :: before' => if less x y then y :: sift less x before' else x :: before
  end.

Definition insertionSort {A} (less : A -> A -> bool) (l : list A) : list A :=
  reverse (fold_left (fun before x => sift less x before) l []).

Fixpoint bubble {A} (less : A -> A -> bool) (j : nat) (l : list A) : list A :=
  match j with
  | O => l
  | S j' => if ask less l j j' then bubble less j' (swap_at l j j') else l
  end.

(** The arrays that a computation may write are those that [P] holds of;
    it allocates nothing. *)
Definition writes_only {A} (P : nat -> Prop) (m : M A) : Prop :=
  forall σ : store,
    length (m σ).1 = length σ /\ forall a, ~ P a -> (m σ).1 !! a = σ !! a.

(** *** Notions used in the further properties *)

(** The loop of [Bounds] keeps a minimum and a maximum of what it has seen. *)
Definition bounds_of (l : list float64) (acc : float64 * float64) : Prop :=
  acc.1 ∈ l /\ acc.2 ∈ l /\
  Forall (fun x => (acc.1 <=. x) = true /\ (x <=. acc.2) = true) l.

(** A result that is a panic. *)
Definition panics {A} (r : result A) : Prop := exists msg, r = Panic msg.

(** NaNs first, then the other values in ascending order: the order of
    [sort.Float64Slice]. *)
Definition nans_then_ascending (xs : list float64) : Prop :=
  exists (k : nat) (zs : list float64),
    xs = replicate k math_NaN ++ zs /\ nan_free zs /\ ascending zs = true.

(** A computation that leaves every array of the store with the elements it
    had, in some order, and allocates nothing. *)
Definition keeps_elements {A} (m : M A) : Prop :=
  forall σ : store, Forall2 (≡ₚ) (m σ).1 σ.

(** * Properties *)

(** Unfolding of the computations over the store. *)
Tactic Notation "unfold_M" :=
  unfold mbind, M_bind, mret, M_ret, len, make, copy, slice_get, lift, get_load.
Tactic Notation "unfold_M" "in" hyp(H) :=
  unfold mbind, M_bind, mret, M_ret, len, make, copy, slice_get, lift, get_load in H.

(** ** float64 arithmetic on special values *)

Lemma float64_of_int_0 : float64_of_int 0 = f0.
Proof. reflexivity. Qed.

Lemma float64_of_int_1 : float64_of_int 1 = f1.
Proof. reflexivity. Qed.

Lemma fadd_nan_l x : math_NaN ⊕ x = math_NaN.
Proof. by destruct x. Qed.

Lemma fdiv_nan_l x : math_NaN ⊘ x = math_NaN.
Proof. by destruct x. Qed.

Lemma fsub_0_r x : x ⊖ f0 = x.
Proof. by destruct x as [[]|[]| |]. Qed.

Lemma feq_0_inv w : (w ==. f0) = true -> exists s, w = S754_zero s.
Proof. destruct w as [s|[]| |[] m e]; try discriminate. by exists s. Qed.

(** ** The order of float64 *)

Ltac float_order :=
  repeat match goal with
  | |- context [Z.compare ?a ?b] => destruct (Z.compare_spec a b)
  | |- context [Pos.compare_cont Eq ?a ?b] =>
      change (Pos.compare_cont Eq a b) with (Pos.compare a b);
      destruct (Pos.compare_spec a b)
  end; cbn; split; intros; try done; try lia.

Lemma flt_key x y :
  math_IsNaN x = false -> math_IsNaN y = false ->
  (x <. y) = true <-> key_lt (order_key x) (order_key y).
Proof.
  intros Hx Hy. unfold flt, SFltb, key_lt.
  destruct x as [[]|[]| |[] mx ex], y as [[]|[]| |[] my ey]; try done; cbn; float_order.
Qed.

Lemma fle_key x y :
  math_IsNaN x = false -> math_IsNaN y = false ->
  (x <=. y) = true <-> ~ key_lt (order_key y) (order_key x).
Proof.
  intros Hx Hy. unfold fle, SFleb, key_lt.
  destruct x as [[]|[]| |[] mx ex], y as [[]|[]| |[] my ey]; try done; cbn; float_order.
Qed.

Lemma flt_irrefl x : (x <. x) = false.
Proof.
  destruct (math_IsNaN x) eqn:Hx; [by destruct x|].
  apply not_true_is_false. rewrite flt_key by done. unfold key_lt. lia.
Qed.

Lemma flt_trans x y z :
  math_IsNaN x = false -> math_IsNaN y = false -> math_IsNaN z = false ->
  (x <. y) = true -> (y <. z) = true -> (x <. z) = true.
Proof.
  intros Hx Hy Hz. rewrite !flt_key by done. unfold key_lt. lia.
Qed.

Lemma flt_neg_trans x y z :
  math_IsNaN x = false -> math_IsNaN y = false -> math_IsNaN z = false ->
  (x <. y) = false -> (y <. z) = false -> (x <. z) = false.
Proof.
  intros Hx Hy Hz. rewrite <- !not_true_iff_false, !flt_key by done. unfold key_lt. lia.
Qed.

Lemma not_flt_fle x y :
  math_IsNaN x = false -> math_IsNaN y = false -> (y <. x) = false -> (x <=. y) = true.
Proof.
  intros Hx Hy. rewrite <- not_true_iff_false, flt_key, fle_key by done. done.
Qed.

Lemma fle_not_flt x y :
  (x <=. y) = true -> (y <. x) = false /\ math_IsNaN x = false /\ math_IsNaN y = false.
Proof.
  intros Hle.
  assert (Hx : math_IsNaN x = false) by (by destruct x).
  assert (Hy : math_IsNaN y = false) by (by destruct x, y).
  split; [|done]. apply not_true_is_false. rewrite flt_key by done.
  by apply fle_key in Hle.
Qed.

Lemma Float64Slice_Less_flt x y : math_IsNaN x = false -> Float64Slice_Less x y = (x <. y).
Proof. intros Hx. unfold Float64Slice_Less. rewrite Hx. by rewrite orb_false_r. Qed.

Lemma nan_free_elem xs x : nan_free xs -> x ∈ xs -> math_IsNaN x = false.
Proof. intros H. by apply (proj1 (Forall_forall _ _) H). Qed.

Lemma Float64Slice_Less_ordering xs :
  nan_free xs -> transitive_ordering Float64Slice_Less xs.
Proof.
  intros Hfree. pose proof (nan_free_elem xs) as Hnan. repeat split.
  - intros x Hx. rewrite Float64Slice_Less_flt by auto. apply flt_irrefl.
  - intros x y z Hx Hy Hz. rewrite !Float64Slice_Less_flt by auto. apply flt_trans; auto.
  - intros x y z Hx Hy Hz. rewrite !Float64Slice_Less_flt by auto. apply flt_neg_trans; auto.
Qed.

Lemma pair_less_ordering (ps : list (float64 * float64)) :
  nan_free ps.*1 -> transitive_ordering pair_less ps.
Proof.
  intros Hfree.
  assert (Hnan : forall p, p ∈ ps -> math_IsNaN p.1 = false).
  { intros p Hp. apply (nan_free_elem ps.*1); [done|]. by apply list_elem_of_fmap_2. }
  unfold pair_less. repeat split.
  - intros x Hx. apply flt_irrefl.
  - intros x y z Hx Hy Hz. apply flt_trans; auto.
  - intros x y z Hx Hy Hz. apply flt_neg_trans; auto.
Qed.

Lemma ascending_is_sorted xs :
  ascending xs = true -> is_sorted Float64Slice_Less xs = true.
Proof.
  induction xs as [|a [|b t] IH]; [done..|].
  cbn [ascending is_sorted]. intros [Hab Ht]%andb_prop.
  destruct (fle_not_flt a b Hab) as (Hlt & Ha & Hb).
  rewrite Float64Slice_Less_flt, Hlt by done. cbn [negb andb]. by apply IH.
Qed.

Lemma is_sorted_flt_ascending xs :
  nan_free xs -> is_sorted flt xs = true -> ascending xs = true.
Proof.
  induction xs as [|a [|b t] IH]; [done..|].
  intros Hfree. cbn [ascending is_sorted]. intros [Hab Ht]%andb_prop.
  inversion Hfree as [|?? Ha Hfree']; subst. inversion Hfree' as [|?? Hb _]; subst.
  apply negb_true_iff in Hab. rewrite (not_flt_fle a b Ha Hb Hab). cbn [andb].
  by apply IH.
Qed.

Lemma is_sorted_Float64Slice_flt xs :
  nan_free xs -> is_sorted Float64Slice_Less xs = is_sorted flt xs.
Proof.
  induction xs as [|a [|b t] IH]; [done..|].
  intros Hfree. cbn [is_sorted].
  inversion Hfree as [|?? Ha Hfree']; subst. inversion Hfree' as [|?? Hb _]; subst.
  rewrite Float64Slice_Less_flt by done. f_equal. by apply IH.
Qed.

Lemma is_sorted_pair_less (ps : list (float64 * float64)) :
  is_sorted pair_less ps = is_sorted flt ps.*1.
Proof.
  induction ps as [|a [|b t] IH]; [done..|].
  cbn [is_sorted fmap list_fmap]. unfold pair_less at 1. f_equal. apply IH.
Qed.

(** ** Rounding never gives a negative zero to a sum

    [SFadd] rounds the exact sum of two finite numbers.  When the exact sum
    is zero the result is [+0]; otherwise the rounding shifts out at most the
    digits beyond the precision, so the result is not a zero at all. *)

Lemma shr_1_m r : (0 <= shr_m r -> shr_m (shr_1 r) = Z.div2 (shr_m r))%Z.
Proof. destruct r as [[|[p|p|]|p] b c]; cbn; try done; lia. Qed.

Lemma iter_shr_m n r :
  (0 <= shr_m r)%Z -> shr_m (SpecFloat.iter_pos shr_1 n r) = Z.shiftr (shr_m r) (Z.pos n).
Proof.
  revert r. induction n as [n IH|n IH|]; intros r Hr; cbn [SpecFloat.iter_pos].
  - assert (H1 : (0 <= shr_m (shr_1 r))%Z)
      by (rewrite shr_1_m by done; by apply Z.div2_nonneg).
    assert (H2 : (0 <= shr_m (SpecFloat.iter_pos shr_1 n (shr_1 r)))%Z)
      by (rewrite IH by done; by apply Z.shiftr_nonneg).
    rewrite (IH _ H2), (IH _ H1), shr_1_m by done.
    rewrite Z.div2_spec, !Z.shiftr_shiftr by lia. f_equal. lia.
  - assert (H1 : (0 <= shr_m (SpecFloat.iter_pos shr_1 n r))%Z)
      by (rewrite IH by done; by apply Z.shiftr_nonneg).
    rewrite (IH _ H1), (IH _ Hr).
    rewrite Z.shiftr_shiftr by lia. f_equal. lia.
  - rewrite shr_1_m by done. by rewrite Z.div2_spec.
Qed.

Lemma digits2_pos_le p : (2 ^ (Z.pos (digits2_pos p) - 1) <= Z.pos p)%Z.
Proof.
  induction p as [p IH|p IH|]; cbn [digits2_pos]; [| |done];
    rewrite Pos2Z.inj_succ;
    replace (Z.succ (Z.pos (digits2_pos p)) - 1)%Z
      with (Z.succ (Z.pos (digits2_pos p) - 1)) by lia;
    rewrite Z.pow_succ_r by lia; lia.
Qed.

Lemma shr_record_of_loc_m m l : shr_m (shr_record_of_loc m l) = m.
Proof. by destruct l as [|[]]. Qed.

Lemma shr_fexp_exp m e l : (emin prec emax <= (shr_fexp prec emax m e l).2)%Z.
Proof.
  unfold shr_fexp, shr.
  destruct (fexp prec emax (Zdigits2 m + e) - e)%Z as [|n|n] eqn:Hn; cbn [snd];
    unfold fexp in Hn; lia.
Qed.

Lemma shr_fexp_pos m e l :
  (0 < m)%Z -> (emin prec emax <= e)%Z -> (0 < shr_m (shr_fexp prec emax m e l).1)%Z.
Proof.
  intros Hm He. unfold shr_fexp, shr.
  destruct (fexp prec emax (Zdigits2 m + e) - e)%Z as [|n|n] eqn:Hn; cbn [fst];
    rewrite ?shr_record_of_loc_m; try done.
  rewrite iter_shr_m by (rewrite shr_record_of_loc_m; lia).
  rewrite shr_record_of_loc_m. rewrite Z.shiftr_div_pow2 by lia.
  destruct m as [|p|p]; try lia. cbn [Zdigits2] in Hn.
  pose proof (digits2_pos_le p) as Hd.
  assert (Hle : (Z.pos n <= Z.pos (digits2_pos p) - 1)%Z).
  { unfold fexp, emin, prec, emax in Hn, He. lia. }
  assert (2 ^ Z.pos n <= 2 ^ (Z.pos (digits2_pos p) - 1))%Z
    by (apply Z.pow_le_mono_r; lia).
  apply Z.div_str_pos. lia.
Qed.

Lemma round_nearest_even_pos m l : (0 < m)%Z -> (0 < round_nearest_even m l)%Z.
Proof.
  intros Hm. destruct l as [|[]]; cbn; try done; [destruct (Z.even m)|]; lia.
Qed.

Lemma binary_round_aux_bounded s m e l :
  exponent_bounded (binary_round_aux prec emax s m e l).
Proof.
  unfold binary_round_aux.
  destruct (shr_fexp prec emax m e l) as [r1 e1].
  pose proof (shr_fexp_exp (round_nearest_even (shr_m r1) (loc_of_shr_record r1))
                e1 loc_Exact) as He.
  destruct (shr_fexp prec emax _ e1 loc_Exact) as [r2 e2]. cbn [snd] in He.
  destruct (shr_m r2); try done. by destruct (_ <=? _)%Z.
Qed.

Lemma binary_round_aux_nonzero s m e l s' :
  (0 < m)%Z -> (emin prec emax <= e)%Z ->
  binary_round_aux prec emax s m e l <> S754_zero s'.
Proof.
  intros Hm He. unfold binary_round_aux.
  pose proof (shr_fexp_pos m e l Hm He) as H1.
  pose proof (shr_fexp_exp m e l) as He1.
  destruct (shr_fexp prec emax m e l) as [r1 e1]. cbn [fst snd] in H1, He1.
  pose proof (shr_fexp_pos _ e1 loc_Exact
                (round_nearest_even_pos _ (loc_of_shr_record r1) H1) He1) as H2.
  destruct (shr_fexp prec emax _ e1 loc_Exact) as [r2 e2]. cbn [fst] in H2.
  destruct (shr_m r2); try done. by destruct (_ <=? _)%Z.
Qed.

Lemma shl_align_exp m e e' :
  (emin prec emax <= e)%Z -> (emin prec emax <= e')%Z ->
  (emin prec emax <= (shl_align m e e').2)%Z.
Proof. intros. unfold shl_align. by destruct (e' - e)%Z. Qed.

Lemma binary_round_bounded s m e : exponent_bounded (binary_round prec emax s m e).
Proof.
  unfold binary_round. destruct (shl_align _ _ _). apply binary_round_aux_bounded.
Qed.

Lemma binary_round_nonzero s m e s' :
  (emin prec emax <= e)%Z -> binary_round prec emax s m e <> S754_zero s'.
Proof.
  intros He. unfold binary_round.
  pose proof (shl_align_exp m e (fexp prec emax (Z.pos (digits2_pos m) + e)) He) as Hz.
  destruct (shl_align _ _ _) as [mz ez]. cbn [snd] in Hz.
  apply binary_round_aux_nonzero; [done|]. apply Hz. unfold fexp. lia.
Qed.

Lemma fmul_bounded x y : exponent_bounded (x ⊗ y).
Proof.
  destruct x as [?|?| |sx mx ex], y as [?|?| |sy my ey]; try done.
  apply binary_round_aux_bounded.
Qed.

(** Adding to a sum that is not the negative zero gives a sum that is not the
    negative zero either. *)
Lemma fadd_invariant a b :
  exponent_bounded a -> a <> S754_zero true -> exponent_bounded b ->
  exponent_bounded (a ⊕ b) /\ a ⊕ b <> S754_zero true.
Proof.
  intros Ha Hna Hb.
  destruct a as [[]|sa| |sa ma ea], b as [[]|sb| |sb mb eb]; try done;
    try (by destruct sa); try (by destruct sa, sb).
  cbn in Ha, Hb. unfold fadd, SFadd, binary_normalize.
  destruct (_ + _)%Z as [|p|p]; [done| |];
    (split; [apply binary_round_bounded | apply binary_round_nonzero; lia]).
Qed.

Lemma fadd_zero_r a s : a <> S754_zero true -> a ⊕ S754_zero s = a.
Proof. by destruct a as [[]|[]| |[] m e], s. Qed.

Lemma fmul_zero_r x s : is_finite x = true -> exists s', x ⊗ S754_zero s = S754_zero s'.
Proof. destruct x as [sx|?| |sx m e]; try done; by eexists. Qed.

(** ** StdDev: the first update divides by [float64(0)] *)

Lemma StdDev_loop_Q_nan xs A k : (StdDev_loop xs A math_NaN k).1.2 = math_NaN.
Proof.
  revert A k. induction xs as [|x xs IH]; intros A k; [done|].
  cbn [StdDev_loop]. rewrite fadd_nan_l. apply IH.
Qed.

(** After the first update, [Q] is NaN, or [A] is an infinity and [Q] is
    minus infinity. *)
Lemma StdDev_first_update x :
  let Anext := f0 ⊕ (x ⊖ f0) ⊘ float64_of_int 0 in
  let Q := f0 ⊕ (x ⊖ f0) ⊗ (x ⊖ Anext) in
  Q = math_NaN \/ (exists s, Anext = S754_infinity s) /\ Q = S754_infinity true.
Proof.
  rewrite float64_of_int_0, fsub_0_r.
  destruct x as [[]|[]| |[] m e]; vm_compute; eauto.
Qed.

(** From an infinite [A], the second update makes [Q] NaN. *)
Lemma StdDev_second_update s Q x :
  let A := S754_infinity s in
  let Anext := A ⊕ (x ⊖ A) ⊘ float64_of_int 1 in
  Q ⊕ (x ⊖ A) ⊗ (x ⊖ Anext) = math_NaN.
Proof.
  rewrite float64_of_int_1.
  destruct s, x as [[]|[]| |[] m e], Q as [[]|[]| |[] mq eq]; reflexivity.
Qed.

Lemma StdDev_is_NaN xs : StdDev xs = math_NaN.
Proof.
  unfold StdDev. destruct xs as [|x xs]; [done|].
  cbn [length Nat.eqb StdDev_loop].
  destruct (StdDev_first_update x) as [HQ|[[s HA] HQ]]; cbv zeta in HQ.
  - rewrite HQ.
    pose proof (StdDev_loop_Q_nan xs (f0 ⊕ (x ⊖ f0) ⊘ float64_of_int 0) (0 + 1)) as H.
    destruct (StdDev_loop _ _ _ _) as [[A Q] k]. cbn in H. subst Q.
    by rewrite fdiv_nan_l.
  - cbv zeta in HA. rewrite HQ, HA. destruct xs as [|x2 xs]; [reflexivity|].
    cbn [StdDev_loop]. change (0 + 1)%Z with 1%Z.
    rewrite StdDev_second_update.
    pose proof (StdDev_loop_Q_nan xs
      (S754_infinity s ⊕ (x2 ⊖ S754_infinity s) ⊘ float64_of_int 1) (1 + 1)) as H.
    destruct (StdDev_loop _ _ _ _) as [[A Q] k]. cbn in H. subst Q.
    by rewrite fdiv_nan_l.
Qed.

(** C1. The claim says that StdDev divides by [i + 1] at the [i]-th element
    and returns 0 on a constant sequence of length above 1.  The code starts
    [k] at 0 and increments it after the division, so the first update divides
    by [float64(0)]; on the constant sequence [1, 1] the result is NaN, not 0,
    and indeed StdDev returns NaN on every sequence. *)
Theorem StdDev_divides_by_zero_first :
  (forall x xs A Q,
     StdDev_loop (x :: xs) A Q 0 =
     StdDev_loop xs (A ⊕ (x ⊖ A) ⊘ f0)
       (Q ⊕ (x ⊖ A) ⊗ (x ⊖ (A ⊕ (x ⊖ A) ⊘ f0))) 1) /\
  StdDev [float64_of_int 1; float64_of_int 1] = math_NaN /\
  StdDev [float64_of_int 1; float64_of_int 1] <> f0 /\
  (forall xs, StdDev xs = math_NaN).
Proof.
  split; [reflexivity|]. split; [reflexivity|]. split; [discriminate|].
  apply StdDev_is_NaN.
Qed.

(** ** StdDev of a sample *)

(** C9 as stated fails: with weights present and no value, StdDev returns NaN
    and does not panic. *)
Lemma Sample_StdDev_weights_no_panic :
  let s := {| Xs := []; Weights := Some []; Sorted := false |} in
  is_Some (Weights s) /\ Sample_StdDev s = Ok math_NaN /\
  ~ (exists msg, Sample_StdDev s = Panic msg).
Proof.
  split; [by eexists|]. split; [reflexivity|]. intros [msg H]. discriminate H.
Qed.

(** C9, amended. For every non-empty sample with weights present, StdDev
    panics with the message "Weighted StdDev not implemented"; it returns
    no number. *)
Theorem Sample_StdDev_weighted_panics (s : Sample) :
  is_Some (Weights s) -> Xs s <> [] ->
  Sample_StdDev s = Panic "Weighted StdDev not implemented".
Proof.
  intros [ws Hw] Hx. unfold Sample_StdDev, weighted. rewrite Hw.
  destruct (Xs s); [done|]. by rewrite bool_decide_eq_true_2.
Qed.

Lemma Sample_StdDev_weighted_panics_witness :
  Sample_StdDev {| Xs := [f1]; Weights := Some [f1]; Sorted := false |}
  = Panic "Weighted StdDev not implemented".
Proof.
  apply Sample_StdDev_weighted_panics; [by eexists | discriminate].
Defined.

(** C10. With weights present and an empty value sequence, StdDev returns NaN
    through the unweighted path; a panic is reached only when the sample is
    non-empty and has weights. *)
Theorem Sample_StdDev_empty_weighted (s : Sample) :
  (is_Some (Weights s) -> Xs s = [] -> Sample_StdDev s = Ok math_NaN) /\
  (forall msg, Sample_StdDev s = Panic msg -> Xs s <> [] /\ is_Some (Weights s)).
Proof.
  unfold Sample_StdDev, weighted. split.
  - intros _ ->. reflexivity.
  - intros msg. destruct (Xs s); [discriminate|].
    case_bool_decide; [|discriminate]. done.
Qed.

Lemma Sample_StdDev_empty_weighted_witness :
  Sample_StdDev {| Xs := []; Weights := Some []; Sorted := true |} = Ok math_NaN /\
  (Xs {| Xs := [f1]; Weights := Some [f1]; Sorted := true |} <> [] /\
   is_Some (Weights {| Xs := [f1]; Weights := Some [f1]; Sorted := true |})).
Proof.
  split.
  - apply (proj1 (Sample_StdDev_empty_weighted _)); [by eexists | reflexivity].
  - apply (proj2 (Sample_StdDev_empty_weighted
                    {| Xs := [f1]; Weights := Some [f1]; Sorted := true |})
             "Weighted StdDev not implemented"%string).
    reflexivity.
Defined.

(** ** Mean of a weighted sample *)

Lemma Sample_Mean_loop_nan ws i xs wsum :
  (length xs + i <= length ws)%nat ->
  Sample_Mean_loop ws i xs math_NaN wsum = Ok math_NaN.
Proof.
  revert i wsum. induction xs as [|x xs IH]; intros i wsum Hlen; [done|].
  cbn [Sample_Mean_loop length] in Hlen |- *; unfold index.
  destruct (lookup_lt_is_Some_2 ws i) as [w ->]; [lia|]. cbn.
  rewrite fadd_nan_l. apply IH. lia.
Qed.

(** A zero first weight makes the first update [0 + (x - 0) * w / 0], which
    is NaN for every [x], and NaN stays to the end. *)
Lemma Sample_Mean_leading_zero_weight x xs w ws srt :
  (w ==. f0) = true -> length ws = length xs ->
  Sample_Mean {| Xs := x :: xs; Weights := Some (w :: ws); Sorted := srt |} = Ok math_NaN.
Proof.
  intros [sw ->]%feq_0_inv Hlen. unfold Sample_Mean. cbn.
  rewrite fsub_0_r.
  assert (f0 ⊕ x ⊗ S754_zero sw ⊘ (f0 ⊕ S754_zero sw) = math_NaN) as ->.
  { destruct sw, x as [[]|[]| |[] m e]; reflexivity. }
  apply Sample_Mean_loop_nan. cbn. lia.
Qed.

(** C2. The claim says that the weighted mean guards the division while the
    cumulative weight is zero.  The code divides unguarded: on the values
    [10, 20] with the weights [0, 1], whose weighted mean is 20, Mean
    returns NaN. *)
Theorem Sample_Mean_zero_first_weight_NaN :
  Sample_Mean {| Xs := [float64_of_int 10; float64_of_int 20];
                 Weights := Some [f0; float64_of_int 1];
                 Sorted := false |} = Ok math_NaN /\
  Sample_Mean {| Xs := [float64_of_int 20];
                 Weights := Some [float64_of_int 1];
                 Sorted := false |} = Ok (float64_of_int 20).
Proof. split; reflexivity. Qed.

(** ** Bounds of a weighted sample *)

Arguments nonzero_entries : simpl never.

Lemma IsNaN_true x : math_IsNaN x = true -> x = math_NaN.
Proof. by destruct x. Qed.

Lemma ascending_nan_free xs : ascending xs = true -> (2 <= length xs)%nat -> nan_free xs.
Proof.
  induction xs as [|a [|b t] IH]; cbn [length]; [lia..|].
  intros [Hab Ht]%andb_prop _.
  assert (Ha : math_IsNaN a = false).
  { by destruct a. }
  assert (Hb : math_IsNaN b = false).
  { by destruct a, b. }
  constructor; [done|]. destruct t as [|c t]; [by repeat constructor|].
  apply IH; [done|cbn; lia].
Qed.

Lemma index_lookup {A} (l : list A) i x : l !! i = Some x -> index l i = Ok x.
Proof. unfold index. by intros ->. Qed.

Lemma nonzero_entries_cons x xs w ws :
  nonzero_entries (x :: xs) (w :: ws) =
  if w !=. f0 then (x, w) :: nonzero_entries xs ws else nonzero_entries xs ws.
Proof.
  unfold nonzero_entries. cbn [zip zip_with]. rewrite filter_cons.
  case_decide as H; unfold nonzero_weight in H; cbn [snd] in H.
  - by rewrite H.
  - apply not_true_is_false in H. by rewrite H.
Qed.

Lemma nonzero_entries_app xs1 ws1 xs2 ws2 :
  length xs1 = length ws1 ->
  nonzero_entries (xs1 ++ xs2) (ws1 ++ ws2) = nonzero_entries xs1 ws1 ++ nonzero_entries xs2 ws2.
Proof.
  intros Hlen. unfold nonzero_entries. by rewrite zip_with_app, filter_app.
Qed.

Lemma nonzero_entries_all_zero xs ws :
  Forall (fun w => (w ==. f0) = true) ws -> nonzero_entries xs ws = [].
Proof.
  intros Hz. revert xs. induction Hz as [|w ws Hw _ IH]; intros [|x xs]; try done.
  rewrite nonzero_entries_cons, Hw. apply IH.
Qed.

Lemma Bounds_first_spec pre xs ws :
  length xs = length ws ->
  Bounds_first (pre ++ xs) (length pre) ws
  = Ok (default math_NaN (head (nonzero_entries xs ws).*1)).
Proof.
  revert pre xs. induction ws as [|w ws IH]; intros pre [|x xs] Hlen; try done.
  cbn [Bounds_first]. rewrite nonzero_entries_cons. destruct (w !=. f0).
  - unfold index. by rewrite list_lookup_middle.
  - specialize (IH (pre ++ [x]) xs). rewrite <- app_assoc, length_app in IH.
    cbn [length app] in IH. rewrite Nat.add_1_r in IH. apply IH. by injection Hlen.
Qed.

Lemma Bounds_last_spec xs ws m k :
  length xs = length ws -> (k + m = length ws)%nat ->
  Bounds_last xs ws (seq k m)
  = Ok (default math_NaN (last (nonzero_entries (take m xs) (take m ws)).*1)).
Proof.
  intros Hlen. revert k. induction m as [|m IH]; intros k Hk; [done|].
  cbn [seq Bounds_last]. replace (length ws - k - 1)%nat with m by lia.
  destruct (lookup_lt_is_Some_2 ws m) as [w Hw]; [lia|].
  destruct (lookup_lt_is_Some_2 xs m) as [x Hx]; [lia|].
  rewrite (index_lookup _ _ _ Hw), (index_lookup _ _ _ Hx). cbn [mbind result_bind].
  rewrite (take_S_r xs m x Hx), (take_S_r ws m w Hw).
  rewrite nonzero_entries_app by (rewrite !length_take; lia).
  rewrite (nonzero_entries_cons x [] w []). destruct (w !=. f0).
  - change (nonzero_entries [] []) with (@nil (float64 * float64)).
    rewrite fmap_app. cbn [fmap list_fmap fst]. by rewrite last_snoc.
  - change (nonzero_entries [] []) with (@nil (float64 * float64)).
    rewrite app_nil_r. apply IH. lia.
Qed.

(** The sorted, weighted path of Bounds in terms of the values with a
    non-zero weight: the first of them, and the last unless the first is NaN. *)
Lemma Sample_Bounds_sorted_weighted_values (s : Sample) (ws : list float64) :
  Weights s = Some ws -> Sorted s = true -> length ws = length (Xs s) ->
  let nz := (nonzero_entries (Xs s) ws).*1 in
  Sample_Bounds s =
    Ok (match head nz with
        | None => (math_NaN, math_NaN)
        | Some min =>
            if math_IsNaN min then (min, math_NaN) else (min, default math_NaN (last nz))
        end).
Proof.
  intros Hw Hs Hlen nz. unfold Sample_Bounds, weighted, wlist. rewrite Hw, Hs.
  rewrite bool_decide_eq_true_2 by done. cbn [negb andb orb default from_option id].
  destruct (decide (Xs s = [])) as [Hx|Hx].
  { subst nz. rewrite Hx in Hlen |- *. by destruct ws. }
  replace (length (Xs s) =? 0)%nat with false by (by destruct (Xs s)).
  cbn [orb].
  pose proof (Bounds_first_spec [] (Xs s) ws (eq_sym Hlen)) as H1.
  cbn [app length] in H1. rewrite H1. clear H1. fold nz. cbn [mbind result_bind].
  destruct (head nz) as [mn|] eqn:Hh; cbn [default from_option id]; [|done].
  destruct (math_IsNaN mn); [done|].
  rewrite (Bounds_last_spec (Xs s) ws (length ws) 0 (eq_sym Hlen) eq_refl).
  rewrite (take_ge (Xs s)) by lia. rewrite firstn_all. by fold nz.
Qed.

(** C7. For a weighted sample flagged as sorted whose values are ascending,
    Bounds returns the first value with a non-zero weight as the minimum and
    the last value with a non-zero weight as the maximum; when every weight
    is zero it returns (NaN, NaN). *)
Theorem Sample_Bounds_sorted_weighted (s : Sample) (ws : list float64) :
  Weights s = Some ws -> Sorted s = true -> length ws = length (Xs s) ->
  ascending (Xs s) = true ->
  let nz := (nonzero_entries (Xs s) ws).*1 in
  Sample_Bounds s = Ok (default math_NaN (head nz), default math_NaN (last nz)) /\
  (Forall (fun w => (w ==. f0) = true) ws -> Sample_Bounds s = Ok (math_NaN, math_NaN)).
Proof.
  intros Hw Hs Hlen Hasc nz.
  pose proof (Sample_Bounds_sorted_weighted_values s ws Hw Hs Hlen) as HB.
  cbv zeta in HB. fold nz in HB.
  assert (Hnz : nz = [] \/ exists mn, head nz = Some mn /\
                (math_IsNaN mn = true -> last nz = Some mn)).
  { destruct nz as [|mn t] eqn:Hnz; [by left|]. right. exists mn. split; [done|].
    intros Hnan. destruct (decide (2 <= length (Xs s))%nat) as [H2|H2].
    - pose proof (ascending_nan_free _ Hasc H2) as Hfree.
      assert (Hin : mn ∈ Xs s).
      { assert (Hmn : mn ∈ nz) by (rewrite Hnz; left).
        apply list_elem_of_fmap in Hmn as [[x w] [-> Hp]].
        apply list_elem_of_filter in Hp as [_ Hp].
        by apply elem_of_zip_l in Hp. }
      rewrite (proj1 (Forall_forall _ _) Hfree mn Hin) in Hnan. discriminate.
    - assert (Hle : (length nz <= length (Xs s))%nat).
      { unfold nz. rewrite length_fmap. unfold nonzero_entries.
        etrans; [apply length_filter|]. rewrite length_zip. lia. }
      rewrite Hnz in Hle. cbn in Hle. destruct t; [done|]. cbn in Hle. lia. }
  split.
  - rewrite HB. destruct Hnz as [->|(mn & Hh & Hl)]; [done|].
    rewrite Hh. destruct (math_IsNaN mn) eqn:Hnan; [|done].
    rewrite (Hl eq_refl). cbn. by rewrite (IsNaN_true _ Hnan).
  - intros Hz. rewrite HB.
    unfold nz. by rewrite nonzero_entries_all_zero.
Qed.

Lemma Sample_Bounds_sorted_weighted_witness :
  Sample_Bounds {| Xs := [float64_of_int 10; float64_of_int 20; float64_of_int 30;
                          float64_of_int 40];
                   Weights := Some [f0; float64_of_int 1; float64_of_int 2; f0];
                   Sorted := true |}
  = Ok (float64_of_int 20, float64_of_int 30).
Proof.
  apply (proj1 (Sample_Bounds_sorted_weighted
                  {| Xs := [float64_of_int 10; float64_of_int 20; float64_of_int 30;
                            float64_of_int 40];
                     Weights := Some [f0; float64_of_int 1; float64_of_int 2; f0];
                     Sorted := true |}
                  [f0; float64_of_int 1; float64_of_int 2; f0]
                  eq_refl eq_refl eq_refl eq_refl)).
Defined.

(** ** Percentile at the ends of the range *)

Lemma fle_0_not_ge_1 p : (p <=. f0) = true -> (p >=. f1) = false.
Proof. by destruct p as [[]|[]| |[] m e]. Qed.

Lemma Percentile_empty `{SortPkg} (σ : store) (s : SampleAt) (p : float64) :
  Xs (load σ s) = [] -> Percentile s p σ = (σ, Ok math_NaN).
Proof.
  intros Hx. unfold Percentile, mbind, M_bind, get_load. by rewrite Hx.
Qed.

Lemma Percentile_low `{SortPkg} (σ : store) (s : SampleAt) (p : float64) :
  Xs (load σ s) <> [] -> (p <=. f0) = true ->
  Percentile s p σ = (σ, fst <$> Sample_Bounds (load σ s)).
Proof.
  intros Hne Hp. unfold Percentile, mbind, M_bind, get_load.
  destruct (Xs (load σ s)) as [|x xs] eqn:Hx; [done|]. cbn [length Nat.eqb]. rewrite Hp.
  unfold lift. by destruct (Sample_Bounds (load σ s)) as [[mn mx]|msg].
Qed.

Lemma Percentile_high `{SortPkg} (σ : store) (s : SampleAt) (p : float64) :
  Xs (load σ s) <> [] -> (p >=. f1) = true ->
  Percentile s p σ = (σ, snd <$> Sample_Bounds (load σ s)).
Proof.
  intros Hne Hp. unfold Percentile, mbind, M_bind, get_load.
  destruct (Xs (load σ s)) as [|x xs] eqn:Hx; [done|]. cbn [length Nat.eqb].
  destruct (p <=. f0) eqn:Hp0; [apply fle_0_not_ge_1 in Hp0; congruence|]. rewrite Hp.
  unfold lift. by destruct (Sample_Bounds (load σ s)) as [[mn mx]|msg].
Qed.

(** C6. On a non-empty sample, Percentile(p) is the minimum from Bounds when
    [p <= 0] and the maximum from Bounds when [p >= 1], so Percentile(0) and
    Percentile(1) are the two bounds; on an empty sample it is NaN for every
    [p].  The store is left as it was. *)
Theorem Percentile_clamped `{SortPkg} (σ : store) (s : SampleAt) (p : float64) :
  let v := load σ s in
  (Xs v = [] -> Percentile s p σ = (σ, Ok math_NaN)) /\
  (Xs v <> [] -> (p <=. f0) = true -> Percentile s p σ = (σ, fst <$> Sample_Bounds v)) /\
  (Xs v <> [] -> (p >=. f1) = true -> Percentile s p σ = (σ, snd <$> Sample_Bounds v)) /\
  (Xs v <> [] -> Percentile s f0 σ = (σ, fst <$> Sample_Bounds v) /\
                 Percentile s f1 σ = (σ, snd <$> Sample_Bounds v)).
Proof.
  intros v. split; [|split; [|split]].
  - apply Percentile_empty.
  - apply Percentile_low.
  - apply Percentile_high.
  - intros Hne. split; [by apply Percentile_low | by apply Percentile_high].
Qed.

Lemma Percentile_clamped_witness :
  let σ := [[float64_of_int 3; float64_of_int 1; float64_of_int 2]; []] in
  let s := {| XsAt := Some 0%nat; WeightsAt := None; SortedAt := false |} in
  let e := {| XsAt := Some 1%nat; WeightsAt := None; SortedAt := false |} in
  Percentile e f0_25 σ = (σ, Ok math_NaN) /\
  Percentile s (float64_of_int (-1)) σ = (σ, Ok (float64_of_int 1)) /\
  Percentile s (float64_of_int 2) σ = (σ, Ok (float64_of_int 3)) /\
  Percentile s f0 σ = (σ, Ok (float64_of_int 1)) /\
  Percentile s f1 σ = (σ, Ok (float64_of_int 3)).
Proof.
  intros σ s e. split; [|split; [|split]].
  - apply (proj1 (Percentile_clamped σ e f0_25)). reflexivity.
  - apply (proj1 (proj2 (Percentile_clamped σ s (float64_of_int (-1)))));
      [discriminate | reflexivity].
  - apply (proj1 (proj2 (proj2 (Percentile_clamped σ s (float64_of_int 2)))));
      [discriminate | reflexivity].
  - apply (proj2 (proj2 (proj2 (Percentile_clamped σ s f0)))). discriminate.
Defined.

(** ** Removing the entries of weight zero *)

Lemma Bounds_scan_zip pre ws xs min max :
  length xs = length ws ->
  Bounds_scan (pre ++ ws) (length pre) xs min max
  = Ok (fold_left Bounds_scan_step (zip xs ws) (min, max)).
Proof.
  revert pre ws min max.
  induction xs as [|x xs IH]; intros pre [|w ws] mn mx Hlen; try done.
  cbn [Bounds_scan zip zip_with fold_left].
  rewrite (index_lookup _ _ w) by (by apply list_lookup_middle).
  cbn [mbind result_bind].
  specialize (IH (pre ++ [w]) ws). rewrite <- app_assoc, length_app in IH.
  cbn [length app] in IH. rewrite Nat.add_1_r in IH. rewrite IH by (by injection Hlen).
  done.
Qed.

Lemma Sum_loop_zip pre ws xs sum :
  length xs = length ws ->
  Sum_loop (pre ++ ws) (length pre) xs sum = Ok (fold_left Sum_step (zip xs ws) sum).
Proof.
  revert pre ws sum.
  induction xs as [|x xs IH]; intros pre [|w ws] sum Hlen; try done.
  cbn [Sum_loop zip zip_with fold_left].
  rewrite (index_lookup _ _ w) by (by apply list_lookup_middle).
  cbn [mbind result_bind].
  specialize (IH (pre ++ [w]) ws). rewrite <- app_assoc, length_app in IH.
  cbn [length app] in IH. rewrite Nat.add_1_r in IH. rewrite IH by (by injection Hlen).
  done.
Qed.

Lemma filter_nonzero_cons p l :
  filter (fun p => nonzero_weight p = true) (p :: l) =
  if nonzero_weight p then p :: filter (fun p => nonzero_weight p = true) l
  else filter (fun p => nonzero_weight p = true) l.
Proof.
  rewrite filter_cons. case_decide as H.
  - by rewrite H.
  - apply not_true_is_false in H. by rewrite H.
Qed.

Lemma filter_nonzero_idem (l : list (float64 * float64)) :
  filter (fun p => nonzero_weight p = true) (filter (fun p => nonzero_weight p = true) l)
  = filter (fun p => nonzero_weight p = true) l.
Proof.
  induction l as [|p l IH]; [done|]. rewrite filter_nonzero_cons.
  destruct (nonzero_weight p) eqn:Hp; [|done].
  by rewrite filter_nonzero_cons, Hp, IH.
Qed.

Lemma nonzero_entries_idem xs ws :
  let ps := nonzero_entries xs ws in nonzero_entries ps.*1 ps.*2 = ps.
Proof.
  intros ps. unfold nonzero_entries at 1. rewrite zip_fst_snd. apply filter_nonzero_idem.
Qed.

(** An entry of weight zero changes neither the minimum nor the maximum of
    the scan. *)
Lemma fold_Bounds_scan_nonzero l acc :
  fold_left Bounds_scan_step (filter (fun p => nonzero_weight p = true) l) acc
  = fold_left Bounds_scan_step l acc.
Proof.
  revert acc. induction l as [|p l IH]; intros acc; [done|].
  rewrite filter_nonzero_cons. cbn [fold_left].
  destruct (nonzero_weight p) eqn:Hp; [apply IH|].
  rewrite IH. f_equal. unfold Bounds_scan_step. unfold nonzero_weight in Hp.
  rewrite Hp, !andb_false_r. by destruct acc.
Qed.

(** An entry of weight zero with a finite value adds a zero to the sum, which
    leaves a sum that is not the negative zero as it is. *)
Lemma fold_Sum_nonzero l sum :
  exponent_bounded sum -> sum <> S754_zero true ->
  Forall (fun p => nonzero_weight p = false -> is_finite p.1 = true) l ->
  fold_left Sum_step (filter (fun p => nonzero_weight p = true) l) sum
  = fold_left Sum_step l sum.
Proof.
  revert sum. induction l as [|[x w] l IH]; intros sum Hb Hnz Hfin; [done|].
  inversion_clear Hfin as [|?? Hp Hl].
  rewrite filter_nonzero_cons. cbn [fold_left].
  destruct (nonzero_weight (x, w)) eqn:Hw.
  - cbn [fold_left]. unfold Sum_step at 2 4. cbn [fst snd].
    destruct (fadd_invariant sum (x ⊗ w) Hb Hnz (fmul_bounded x w)).
    by apply IH.
  - unfold Sum_step at 3. cbn [fst snd].
    unfold nonzero_weight in Hw. cbn [snd] in Hw. apply negb_false_iff in Hw.
    destruct (feq_0_inv w Hw) as [sw ->].
    destruct (fmul_zero_r x sw (Hp eq_refl)) as [s' ->].
    rewrite fadd_zero_r by done. by apply IH.
Qed.

Lemma Sample_Bounds_drop_zero_weights (s : Sample) (ws : list float64) :
  Weights s = Some ws -> length ws = length (Xs s) ->
  Sample_Bounds (drop_zero_weights s) = Sample_Bounds s.
Proof.
  intros Hw Hlen. unfold drop_zero_weights. rewrite Hw.
  set (ps := nonzero_entries (Xs s) ws).
  destruct (Sorted s) eqn:Hs.
  - rewrite (Sample_Bounds_sorted_weighted_values s ws Hw Hs Hlen).
    rewrite (Sample_Bounds_sorted_weighted_values
               {| Xs := ps.*1; Weights := Some ps.*2; Sorted := true |} ps.*2
               eq_refl eq_refl)
      by (cbn; by rewrite !length_fmap).
    cbn [Xs]. unfold ps. by rewrite nonzero_entries_idem.
  - unfold Sample_Bounds, weighted, wlist. cbn [Xs Weights Sorted]. rewrite Hw, Hs.
    rewrite !bool_decide_eq_true_2 by done.
    cbn [negb andb orb default from_option id].
    rewrite !orb_false_r.
    pose proof (Bounds_scan_zip [] ws (Xs s) (math_Inf 1) (math_Inf (-1)) (eq_sym Hlen))
      as H1. cbn [app length] in H1. rewrite H1. clear H1.
    pose proof (Bounds_scan_zip [] ps.*2 ps.*1 (math_Inf 1) (math_Inf (-1))) as H2.
    cbn [app length] in H2. rewrite H2 by (by rewrite !length_fmap). clear H2.
    rewrite zip_fst_snd.
    assert (Hfold : fold_left Bounds_scan_step ps (math_Inf 1, math_Inf (-1))
                    = fold_left Bounds_scan_step (zip (Xs s) ws) (math_Inf 1, math_Inf (-1)))
      by apply fold_Bounds_scan_nonzero.
    destruct (decide (Xs s = [])) as [Hx|Hx].
    { subst ps. by rewrite Hx. }
    replace (length (Xs s) =? 0)%nat with false by (by destruct (Xs s)).
    rewrite <- Hfold. clear Hfold. by destruct ps.
Qed.

Lemma Sample_Sum_drop_zero_weights (s : Sample) (ws : list float64) :
  Weights s = Some ws -> length ws = length (Xs s) ->
  Forall (fun p => nonzero_weight p = false -> is_finite p.1 = true) (zip (Xs s) ws) ->
  Sample_Sum (drop_zero_weights s) = Sample_Sum s.
Proof.
  intros Hw Hlen Hfin. unfold drop_zero_weights. rewrite Hw.
  set (ps := nonzero_entries (Xs s) ws).
  unfold Sample_Sum, weighted, wlist. cbn [Xs Weights]. rewrite Hw.
  rewrite !bool_decide_eq_true_2 by done. cbn [negb default from_option id].
  pose proof (Sum_loop_zip [] ws (Xs s) f0 (eq_sym Hlen)) as H1.
  cbn [app length] in H1. rewrite H1. clear H1.
  pose proof (Sum_loop_zip [] ps.*2 ps.*1 f0) as H2.
  cbn [app length] in H2. rewrite H2 by (by rewrite !length_fmap). clear H2.
  rewrite zip_fst_snd. unfold ps, nonzero_entries. by rewrite fold_Sum_nonzero.
Qed.

Lemma Sample_Bounds_empty (s : Sample) :
  Xs s = [] -> Sample_Bounds s = Ok (math_NaN, math_NaN).
Proof. intros Hx. unfold Sample_Bounds. by rewrite Hx. Qed.

Lemma Percentile_drop_zero_weights `{SortPkg} (σ σ' : store) (a a' : SampleAt)
    (ws : list float64) (p : float64) :
  Weights (load σ a) = Some ws -> length ws = length (Xs (load σ a)) ->
  load σ' a' = drop_zero_weights (load σ a) ->
  (p <=. f0) = true \/ (p >=. f1) = true ->
  (Percentile a' p σ').2 = (Percentile a p σ).2.
Proof.
  intros Hw Hlen Ha' Hp.
  pose proof (Sample_Bounds_drop_zero_weights _ ws Hw Hlen) as HB. rewrite <- Ha' in HB.
  destruct (decide (Xs (load σ a) = [])) as [Hx|Hx].
  { rewrite (Percentile_empty σ a p Hx), Percentile_empty; [done|].
    rewrite Ha'. unfold drop_zero_weights. rewrite Hw, Hx. done. }
  destruct (decide (Xs (load σ' a') = [])) as [Hx'|Hx'].
  - rewrite (Percentile_empty σ' a' p Hx'). rewrite (Sample_Bounds_empty _ Hx') in HB.
    destruct Hp as [Hp|Hp].
    + rewrite (Percentile_low σ a p Hx Hp), <- HB. done.
    + rewrite (Percentile_high σ a p Hx Hp), <- HB. done.
  - destruct Hp as [Hp|Hp].
    + by rewrite (Percentile_low σ a p Hx Hp), (Percentile_low σ' a' p Hx' Hp), HB.
    + by rewrite (Percentile_high σ a p Hx Hp), (Percentile_high σ' a' p Hx' Hp), HB.
Qed.




(** ** Percentile of a sample whose weights are all zero *)

Lemma Sum_all_zero ws : Forall (fun w => (w ==. f0) = true) ws -> Sum ws = f0.
Proof.
  unfold Sum. induction 1 as [|w ws Hw _ IH]; [done|]. cbn [fold_left].
  destruct (feq_0_inv w Hw) as [s ->]. by rewrite fadd_zero_r.
Qed.

Lemma Percentile_scan_all_zero xs i ws target :
  Forall (fun w => (w ==. f0) = true) ws -> target = f0 \/ target = math_NaN ->
  Percentile_scan xs i ws target = index xs (length xs - 1).
Proof.
  intros Hz. revert i target. induction Hz as [|w ws Hw _ IH]; intros i target Ht; [done|].
  cbn [Percentile_scan]. destruct (feq_0_inv w Hw) as [s ->].
  assert (Ht' : target ⊖ S754_zero s = f0 \/ target ⊖ S754_zero s = math_NaN).
  { destruct Ht as [-> | ->]; [left; by destruct s | by right]. }
  rewrite IH by done. by destruct Ht' as [-> | ->].
Qed.

(** With weights present and all zero, Bounds and Mean give NaN. *)
Lemma Sample_all_zero_weights (s : Sample) (ws : list float64) :
  Weights s = Some ws -> length ws = length (Xs s) ->
  Forall (fun w => (w ==. f0) = true) ws ->
  Sample_Bounds s = Ok (math_NaN, math_NaN) /\ Sample_Mean s = Ok math_NaN.
Proof.
  intros Hw Hlen Hz. split.
  - rewrite <- (Sample_Bounds_drop_zero_weights s ws Hw Hlen).
    apply Sample_Bounds_empty. unfold drop_zero_weights. rewrite Hw. cbn [Xs].
    by rewrite nonzero_entries_all_zero.
  - destruct s as [xs w srt]. cbn [Xs Weights] in Hw, Hlen. subst w.
    destruct xs as [|x xs], ws as [|w ws]; try done.
    inversion_clear Hz. apply Sample_Mean_leading_zero_weight; [done|]. by injection Hlen.
Qed.

(** With weights present and all zero, Percentile(p) for [p] strictly between
    0 and 1 (and for a NaN) gives the last value of a sample flagged as
    sorted. *)
Lemma Percentile_all_zero_weights `{SortPkg} (σ : store) (a : SampleAt)
    (ws : list float64) (p : float64) :
  let v := load σ a in
  Weights v = Some ws -> Xs v <> [] -> SortedAt a = true ->
  Forall (fun w => (w ==. f0) = true) ws ->
  (p <=. f0) = false -> (p >=. f1) = false ->
  Percentile a p σ = (σ, index (Xs v) (length (Xs v) - 1)).
Proof.
  intros v Hw Hx Hs Hz Hp0 Hp1. unfold Percentile, sorted_copy. unfold_M. fold v.
  replace (length (Xs v) =? 0)%nat with false by (by destruct (Xs v)).
  rewrite Hp0, Hp1, Hs. cbn [negb]. fold v.
  unfold weighted, wlist, Sample_Weight, weighted, wlist. rewrite Hw.
  rewrite bool_decide_eq_true_2 by done. cbn [negb default from_option id].
  rewrite Sum_all_zero by done. f_equal. apply Percentile_scan_all_zero; [done|].
  destruct p as [[]|[]| |[] m e]; try done; [by right | by left].
Qed.

(** C4. The claim says that, with weights present and all zero, Bounds, Mean
    and Percentile(p) for every [p] give NaN.  Bounds and Mean do
    ([Sample_all_zero_weights]); for [p] strictly between 0 and 1 the scan of
    Percentile never sees a negative target and falls through to the last
    value ([Percentile_all_zero_weights]): on the values [1, 2] with the
    weights [0, 0], Percentile(0.5) is 2. *)
Theorem Percentile_all_zero_weights_last :
  let σ := [[float64_of_int 1; float64_of_int 2]; [f0; f0]] in
  let s := {| XsAt := Some 0%nat; WeightsAt := Some 1%nat; SortedAt := true |} in
  let half := binary_normalize prec emax 1 (-1) false in
  (half <=. f0) = false /\ (half >=. f1) = false /\
  Percentile s half σ = (σ, Ok (float64_of_int 2)) /\
  Sample_Bounds (load σ s) = Ok (math_NaN, math_NaN) /\
  Sample_Mean (load σ s) = Ok math_NaN.
Proof. repeat split. Qed.

(** ** Plans on sequences, and Go's insertion sort *)

Lemma length_swap_at {A} (l : list A) i j : length (swap_at l i j) = length l.
Proof.
  unfold swap_at. destruct (l !! i), (l !! j); try done. by rewrite !length_insert.
Qed.

Lemma insert_Permutation_cons {A} (l : list A) j b x :
  l !! j = Some b -> b :: <[j := x]> l ≡ₚ x :: l.
Proof.
  revert j. induction l as [|y l IH]; intros [|j] Hj; try done.
  - injection Hj as ->. apply Permutation_swap.
  - cbn. rewrite Permutation_swap. rewrite (IH j Hj). apply Permutation_swap.
Qed.

Lemma swap_at_Permutation {A} (l : list A) i j : swap_at l i j ≡ₚ l.
Proof.
  unfold swap_at. destruct (l !! i) as [a|] eqn:Hi; [|done].
  destruct (l !! j) as [b|] eqn:Hj; [|done].
  revert i j Hi Hj. induction l as [|x l IH]; intros [|i] [|j] Hi Hj; try done; cbn.
  - injection Hi as ->. by injection Hj as ->.
  - injection Hi as ->. by apply insert_Permutation_cons.
  - injection Hj as ->. by apply insert_Permutation_cons.
  - f_equiv. by apply IH.
Qed.

Lemma run_list_Permutation {A} (less : A -> A -> bool) p l : run_list less p l ≡ₚ l.
Proof.
  revert l. induction p as [|i j k IH|i j k IH]; intros l; cbn; [done|apply IH|].
  rewrite IH. apply swap_at_Permutation.
Qed.

Lemma is_sorted_cons {A} (less : A -> A -> bool) a b t :
  is_sorted less (a :: b :: t) = negb (less b a) && is_sorted less (b :: t).
Proof. done. Qed.

Lemma is_sorted_snoc {A} (less : A -> A -> bool) l a :
  is_sorted less (l ++ [a]) =
  is_sorted less l && from_option (fun b => negb (less a b)) true (last l).
Proof.
  induction l as [|x l IH]; [done|]. destruct l as [|y t].
  - cbn. by rewrite !andb_true_r.
  - change ((x :: y :: t) ++ [a]) with (x :: y :: (t ++ [a])).
    rewrite !is_sorted_cons. change (y :: (t ++ [a])) with ((y :: t) ++ [a]).
    rewrite IH. by rewrite andb_assoc.
Qed.

Lemma is_sorted_reverse {A} (less : A -> A -> bool) l :
  is_sorted less (reverse l) = sorted_backwards less l.
Proof.
  induction l as [|a [|b t] IH]; [done..|].
  rewrite reverse_cons, is_sorted_snoc, IH, last_reverse.
  cbn [head from_option sorted_backwards]. apply andb_comm.
Qed.

Lemma sift_Permutation {A} (less : A -> A -> bool) x l : sift less x l ≡ₚ x :: l.
Proof.
  induction l as [|y l IH]; [done|]. cbn [sift]. destruct (less x y); [|done].
  rewrite IH. apply Permutation_swap.
Qed.

Lemma length_sift {A} (less : A -> A -> bool) x l : length (sift less x l) = S (length l).
Proof. apply (Permutation_length (sift_Permutation less x l)). Qed.

Lemma sift_sorted {A} (less : A -> A -> bool) x l :
  (forall y, y ∈ l -> less x y = true -> less y x = false) ->
  sorted_backwards less l = true -> sorted_backwards less (sift less x l) = true.
Proof.
  induction l as [|y l IH]; intros Hasym Hl; [done|]. cbn [sift].
  destruct (less x y) eqn:Hxy.
  - assert (Hl' : sorted_backwards less l = true).
    { destruct l; [done|]. by apply andb_prop in Hl as [_ ?]. }
    specialize (IH (fun z Hz => Hasym z (list_elem_of_further _ _ _ Hz)) Hl').
    assert (Hyx : less y x = false) by (apply Hasym; [left|done]).
    destruct l as [|z l]; cbn [sift] in IH |- *.
    + cbn. by rewrite Hyx.
    + destruct (less x z).
      * cbn [sorted_backwards] in Hl |- *. apply andb_prop in Hl as [-> _]. done.
      * cbn [sorted_backwards] in IH |- *. by rewrite Hyx.
  - cbn [sorted_backwards] in Hl |- *. by rewrite Hxy.
Qed.

Lemma insertionSort_sorted {A} (less : A -> A -> bool) l :
  transitive_ordering less l -> is_sorted less (insertionSort less l) = true.
Proof.
  intros (Hirr & Htrans & _). unfold insertionSort. rewrite is_sorted_reverse.
  assert (Hasym : forall x y, x ∈ l -> y ∈ l -> less x y = true -> less y x = false).
  { intros x y Hx Hy Hxy. apply not_true_is_false. intros Hyx.
    pose proof (Htrans x y x Hx Hy Hx Hxy Hyx) as Hxx. rewrite Hirr in Hxx; done. }
  assert (H : forall rest acc, rest ⊆ l -> acc ⊆ l -> sorted_backwards less acc = true ->
              sorted_backwards less (fold_left (fun before x => sift less x before) rest acc)
              = true).
  { induction rest as [|x rest IH]; intros acc Hrest Hacc Hs; [done|]. cbn [fold_left].
    assert (Hx : x ∈ l) by (apply Hrest; left).
    apply IH.
    - intros z Hz. apply Hrest. by right.
    - intros z Hz. rewrite sift_Permutation in Hz. apply elem_of_cons in Hz as [->|Hz]; auto.
    - apply sift_sorted; [|done]. intros y Hy. apply Hasym; auto. }
  apply H; [done | apply list_subseteq_nil | done].
Qed.

(** The inner loop of the plan moves the element at position [j] as [sift]
    does. *)
Lemma bubble_sift {A} (less : A -> A -> bool) pre x post :
  bubble less (length pre) (pre ++ x :: post) = reverse (sift less x (reverse pre)) ++ post.
Proof.
  revert post. induction pre as [|y pre IH] using rev_ind; intros post; [done|].
  rewrite length_app, Nat.add_1_r, <- app_assoc. cbn [app bubble].
  rewrite reverse_snoc. cbn [sift]. unfold ask, swap_at.
  rewrite (lookup_app_r pre), (list_lookup_middle pre) by (done || lia).
  replace (S (length pre) - length pre)%nat with 1%nat by lia. cbn [lookup list_lookup].
  destruct (less x y).
  - rewrite (insert_app_r_alt pre) by lia.
    replace (S (length pre) - length pre)%nat with 1%nat by lia. cbn [insert list_insert].
    rewrite (insert_app_r_alt pre) by lia. rewrite Nat.sub_diag. cbn [insert list_insert].
    rewrite IH, reverse_cons. by rewrite <- app_assoc.
  - rewrite !reverse_cons, reverse_involutive. by rewrite <- !app_assoc.
Qed.

Lemma run_list_inner {A} (less : A -> A -> bool) j k l :
  run_list less (insertion_inner j k) l = run_list less k (bubble less j l).
Proof.
  revert l. induction j as [|j IH]; intros l; [done|]. cbn [insertion_inner run_list bubble].
  destruct (ask less l (S j) j); [|done]. cbn [run_list]. apply IH.
Qed.

Lemma run_list_insertion {A} (less : A -> A -> bool) pre post :
  run_list less (foldr insertion_inner Done (seq (length pre) (length post))) (pre ++ post)
  = reverse (fold_left (fun before x => sift less x before) post (reverse pre)).
Proof.
  revert pre. induction post as [|x post IH]; intros pre.
  - cbn [length seq foldr run_list fold_left]. by rewrite app_nil_r, reverse_involutive.
  - cbn [length seq foldr fold_left]. rewrite run_list_inner, bubble_sift.
    specialize (IH (reverse (sift less x (reverse pre)))).
    rewrite length_reverse, length_sift, length_reverse, reverse_involutive in IH.
    apply IH.
Qed.

Lemma run_list_insertionSort {A} (less : A -> A -> bool) l :
  run_list less (insertionSort_plan (length l)) l = insertionSort less l.
Proof.
  destruct l as [|x l]; [done|]. unfold insertionSort_plan, insertionSort.
  replace (length (x :: l) - 1)%nat with (length l) by (cbn; lia).
  cbn [fold_left sift]. apply (run_list_insertion less [x] l).
Qed.

Lemma in_range_inner n j k :
  (j < n)%nat -> in_range n k -> in_range n (insertion_inner j k).
Proof.
  intros Hj Hk. induction j as [|j IH]; [done|]. cbn.
  split; [done|]. split; [lia|]. intros []; [|done].
  cbn. split; [done|]. split; [lia|]. apply IH. lia.
Qed.

Lemma in_range_insertionSort_plan n : in_range n (insertionSort_plan n).
Proof.
  unfold insertionSort_plan.
  assert (H : Forall (fun i => (i < n)%nat) (seq 1 (n - 1))).
  { apply Forall_forall. intros i Hi%elem_of_seq. lia. }
  induction H as [|i rest Hi _ IH]; [done|]. cbn [foldr]. by apply in_range_inner.
Qed.

#[global] Instance go_sort_contract : SortContract go_sort.
Proof.
  split.
  - apply in_range_insertionSort_plan.
  - intros A less l Hl. unfold sort_plan, go_sort.
    rewrite run_list_insertionSort. by apply insertionSort_sorted.
Qed.

(** ** Runs over the store *)

Lemma length_write sl l σ : length (write sl l σ) = length σ.
Proof. destruct sl; cbn; [apply length_insert|done]. Qed.

Lemma lookup_write_ne sl l σ a : sl <> Some a -> write sl l σ !! a = σ !! a.
Proof.
  destruct sl as [b|]; cbn; [|done]. intros Hne.
  apply list_lookup_insert_ne. congruence.
Qed.

Lemma contents_write_eq a l (σ : store) :
  (a < length σ)%nat -> contents (write (Some a) l σ) (Some a) = l.
Proof. intros Ha. cbn. by rewrite list_lookup_insert_eq. Qed.

Lemma contents_write_ne sl sl' l (σ : store) :
  sl <> sl' -> contents (write sl l σ) sl' = contents σ sl'.
Proof.
  intros Hne. destruct sl' as [a|]; [|done]. cbn. by rewrite lookup_write_ne.
Qed.

Lemma writes_only_ret {A} P (a : A) : writes_only P (mret a).
Proof. by intros σ. Qed.

Lemma writes_only_bind {A B} P (m : M A) (f : A -> M B) :
  writes_only P m -> (forall a, writes_only P (f a)) -> writes_only P (m ≫= f).
Proof.
  intros Hm Hf σ. unfold mbind, M_bind. destruct (Hm σ) as [Hl Hs].
  destruct (m σ) as [σ1 [a|msg]]; cbn in Hl, Hs |- *; [|done].
  destruct (Hf a σ1) as [Hl' Hs']. split; [congruence|].
  intros b Hb. by rewrite Hs', Hs.
Qed.

Lemma writes_only_read {A} P (f : store -> result A) :
  writes_only P (fun σ => (σ, f σ)).
Proof. by intros σ. Qed.

Lemma writes_only_slice_set P sl i v :
  (forall a, sl = Some a -> P a) -> writes_only P (slice_set sl i v).
Proof.
  intros HP σ. unfold slice_set. destruct (_ <? _)%nat; cbn; [|done].
  rewrite length_write. split; [done|]. intros a Ha. apply lookup_write_ne.
  intros ->. by apply Ha, HP.
Qed.

Lemma writes_only_slice_swap P sl i j :
  (forall a, sl = Some a -> P a) -> writes_only P (slice_swap sl i j).
Proof.
  intros HP. unfold slice_swap.
  repeat (apply writes_only_bind; [|intros ?]);
    try apply (writes_only_read P (fun σ => index (contents σ sl) _));
    by apply writes_only_slice_set.
Qed.

Lemma writes_only_run P data p :
  (forall i j, writes_only P (Less data i j)) ->
  (forall i j, writes_only P (Swap data i j)) ->
  writes_only P (run data p).
Proof.
  intros HL HS. induction p as [|i j k IH|i j k IH]; cbn [run].
  - apply writes_only_ret.
  - apply writes_only_bind; [apply HL|]. intros b. apply IH.
  - apply writes_only_bind; [apply HS|]. intros _. apply IH.
Qed.

Lemma writes_only_sort_Sort `{SortPkg} P data :
  writes_only P (Len data) ->
  (forall i j, writes_only P (Less data i j)) ->
  (forall i j, writes_only P (Swap data i j)) ->
  writes_only P (sort_Sort data).
Proof.
  intros HN HL HS. unfold sort_Sort. apply writes_only_bind; [done|].
  intros n. by apply writes_only_run.
Qed.

Lemma writes_only_IsSorted_loop P data i :
  (forall i j, writes_only P (Less data i j)) -> writes_only P (IsSorted_loop data i).
Proof.
  intros HL. induction i as [|i IH]; cbn [IsSorted_loop]; [apply writes_only_ret|].
  apply writes_only_bind; [apply HL|]. intros []; [apply writes_only_ret | apply IH].
Qed.

Lemma writes_only_len P sl : writes_only P (len sl).
Proof. apply (writes_only_read P (fun σ => Ok (length (contents σ sl)))). Qed.

Lemma writes_only_slice_get P sl i : writes_only P (slice_get sl i).
Proof. apply (writes_only_read P (fun σ => index (contents σ sl) i)). Qed.

Lemma writes_only_Float64Slice_Less P sl i j : writes_only P (Less (Float64Slice sl) i j).
Proof.
  cbn. repeat (apply writes_only_bind; [apply writes_only_slice_get|intros ?]).
  apply writes_only_ret.
Qed.

Lemma writes_only_sampleSorter_Less P p i j : writes_only P (sampleSorter.Less p i j).
Proof.
  unfold sampleSorter.Less.
  repeat (apply writes_only_bind; [apply writes_only_slice_get|intros ?]).
  apply writes_only_ret.
Qed.

(** [Sort] writes to the arrays of its receiver only, and allocates nothing. *)
Lemma writes_only_Sort `{SortPkg} (s : SampleAt) :
  writes_only (fun a => XsAt s = Some a \/ WeightsAt s = Some a) (Sort s).
Proof.
  unfold Sort. apply writes_only_bind; [|intros sorted; apply writes_only_bind].
  - destruct (SortedAt s); [apply writes_only_ret|].
    unfold sort_Float64sAreSorted, sort_IsSorted.
    apply writes_only_bind; [apply writes_only_len|]. intros n.
    apply writes_only_IsSorted_loop. intros i j. apply writes_only_Float64Slice_Less.
  - destruct sorted; [apply writes_only_ret|]. case_bool_decide.
    + unfold sort_Float64s. apply writes_only_sort_Sort.
      * apply writes_only_len.
      * intros i j. apply writes_only_Float64Slice_Less.
      * intros i j. apply writes_only_slice_swap. auto.
    + apply writes_only_sort_Sort.
      * apply writes_only_len.
      * intros i j. apply writes_only_sampleSorter_Less.
      * intros i j. cbn. unfold sampleSorter.Swap.
        apply writes_only_bind; [|intros _]; apply writes_only_slice_swap; cbn; auto.
  - intros _. apply writes_only_ret.
Qed.

Lemma bind_Ok {A B} (m : M A) (f : A -> M B) (σ : store) (b : B) :
  ((m ≫= f) σ).2 = Ok b -> exists a σ1, m σ = (σ1, Ok a) /\ (f a σ1).2 = Ok b.
Proof.
  unfold mbind, M_bind. destruct (m σ) as [σ1 [a|msg]]; [|done]. eauto.
Qed.

Lemma Sort_result `{SortPkg} (s s' : SampleAt) (σ : store) :
  (Sort s σ).2 = Ok s' ->
  s' = {| XsAt := XsAt s; WeightsAt := WeightsAt s; SortedAt := true |}.
Proof.
  unfold Sort. intros (sorted & σ1 & _ & (u & σ2 & _ & Hs)%bind_Ok)%bind_Ok.
  by injection Hs as <-.
Qed.

Lemma Sort_frame `{SortPkg} (s : SampleAt) (σ : store) :
  length (Sort s σ).1 = length σ /\
  (forall a, XsAt s <> Some a -> WeightsAt s <> Some a -> (Sort s σ).1 !! a = σ !! a) /\
  (forall s', (Sort s σ).2 = Ok s' ->
     s' = {| XsAt := XsAt s; WeightsAt := WeightsAt s; SortedAt := true |}).
Proof.
  destruct (writes_only_Sort s σ) as [Hl Hs]. split; [done|]. split.
  - intros a Hx Hw. apply Hs. by intros [?|?].
  - intros s'. apply Sort_result.
Qed.

(** ** Percentile and IQR leave the arrays of the store alone *)

Lemma contents_app σ τ sl :
  (forall a, sl = Some a -> (a < length σ)%nat) -> contents (σ ++ τ) sl = contents σ sl.
Proof.
  destruct sl as [a|]; cbn; [|done]. intros Ha. by rewrite lookup_app_l by auto.
Qed.

(** [make] followed by [copy] from a slice of the store appends an array
    with the contents of that slice. *)
Lemma make_copy_store (src : slice) (σ : store) :
  (forall a, src = Some a -> (a < length σ)%nat) ->
  let σ1 := σ ++ [replicate (length (contents σ src)) f0] in
  let dst := Some (length σ) in
  write dst (take (length (contents σ1 dst)) (contents σ1 src)
             ++ drop (length (contents σ1 src)) (contents σ1 dst)) σ1
  = σ ++ [contents σ src].
Proof.
  intros Hsrc σ1 dst. subst σ1 dst. cbn [write].
  rewrite (contents_app σ _ src Hsrc). cbn [contents].
  rewrite list_lookup_middle by done. cbn [from_option id].
  rewrite length_replicate, take_ge, drop_ge, app_nil_r by (by rewrite ?length_replicate).
  replace (length σ) with (length σ + 0)%nat at 1 by lia.
  by rewrite insert_app_r.
Qed.

Lemma Copy_spec (s : SampleAt) (σ : store) :
  valid σ s ->
  Copy s σ =
    (σ ++ contents σ (XsAt s)
         :: match WeightsAt s with
            | None => []
            | Some _ => [contents σ (WeightsAt s)]
            end,
     Ok {| XsAt := Some (length σ);
           WeightsAt := (fun _ => S (length σ)) <$> WeightsAt s;
           SortedAt := SortedAt s |}).
Proof.
  intros Hv. unfold Copy. unfold_M. cbn beta iota.
  pose proof (make_copy_store (XsAt s) σ (fun a H => Hv a (or_introl H))) as HX.
  cbv zeta in HX. rewrite HX. clear HX.
  destruct (WeightsAt s) as [w|] eqn:Hw; [|done].
  assert (Hw' : forall a, Some w = Some a -> (a < length (σ ++ [contents σ (XsAt s)]))%nat).
  { intros a [= <-]. rewrite length_app. specialize (Hv w (or_intror Hw)). lia. }
  pose proof (make_copy_store (Some w) _ Hw') as HW.
  cbv zeta in HW. rewrite HW. clear HW.
  rewrite contents_app by (intros a [= <-]; apply Hv; by right).
  rewrite <- app_assoc, length_app. cbn [length app fmap option_fmap option_map].
  do 4 f_equal. lia.
Qed.

(** [s.Copy().Sort()] leaves every array of the store as it was, and the
    sample it yields is flagged as sorted. *)
Lemma sorted_copy_unsorted `{SortPkg} (s : SampleAt) (σ : store) :
  valid σ s -> SortedAt s = false ->
  exists σ1 c,
    sorted_copy s σ = Sort c σ1 /\
    (forall a, (a < length σ)%nat -> σ1 !! a = σ !! a) /\
    (forall a, XsAt c = Some a \/ WeightsAt c = Some a -> (length σ <= a)%nat).
Proof.
  intros Hv Hs. eexists _, _. split; [|split].
  - unfold sorted_copy. rewrite Hs. cbn [negb]. unfold mbind, M_bind.
    by rewrite Copy_spec.
  - intros a Ha. by rewrite lookup_app_l.
  - cbn. intros a [[= <-]|Ha]; [done|].
    destruct (WeightsAt s); cbn in Ha; [|done]. injection Ha as <-. lia.
Qed.

Lemma sorted_copy_frame `{SortPkg} (s : SampleAt) (σ : store) :
  valid σ s ->
  (forall a, (a < length σ)%nat -> (sorted_copy s σ).1 !! a = σ !! a) /\
  (forall s', (sorted_copy s σ).2 = Ok s' -> SortedAt s' = true).
Proof.
  intros Hv. destruct (SortedAt s) eqn:Hs.
  { unfold sorted_copy. rewrite Hs. cbn. split; [done|]. by intros s' [= <-]. }
  destruct (sorted_copy_unsorted s σ Hv Hs) as (σ1 & c & -> & Hσ1 & Hc).
  destruct (Sort_frame c σ1) as (_ & Hframe & Hres). split.
  - intros a Ha. rewrite Hframe; [by apply Hσ1|..].
    + intros Hx. specialize (Hc a (or_introl Hx)). lia.
    + intros Hw. specialize (Hc a (or_intror Hw)). lia.
  - intros s' Hs'. by rewrite (Hres s' Hs').
Qed.

(** After its optional sorted copy, Percentile only reads. *)
Lemma Percentile_store `{SortPkg} (s : SampleAt) (p : float64) (σ : store) :
  (Percentile s p σ).1 = σ \/ (Percentile s p σ).1 = (sorted_copy s σ).1.
Proof.
  destruct (Percentile s p σ) as [τ r] eqn:HP. cbn [fst].
  unfold Percentile in HP. unfold mbind at 1, M_bind at 1, get_load at 1 in HP.
  cbn beta iota in HP.
  destruct (length (Xs (load σ s)) =? 0)%nat; [left; by injection HP|].
  destruct (p <=. f0).
  { left. unfold_M in HP. destruct (Sample_Bounds _) as [[??]|?]; by injection HP. }
  destruct (p >=. f1).
  { left. unfold_M in HP. destruct (Sample_Bounds _) as [[??]|?]; by injection HP. }
  right. unfold mbind at 1, M_bind at 1 in HP.
  destruct (sorted_copy s σ) as [σ' [s'|msg]]; [|by injection HP].
  unfold_M in HP. destruct (negb _); by injection HP.
Qed.

Lemma load_unchanged (σ σ' : store) (s : SampleAt) :
  valid σ s -> (forall a, (a < length σ)%nat -> σ' !! a = σ !! a) -> load σ' s = load σ s.
Proof.
  intros Hv Hsame. unfold load. f_equal.
  - destruct (XsAt s) as [a|] eqn:Ha; cbn; [|done]. rewrite Hsame; [done|]. apply Hv. by left.
  - destruct (WeightsAt s) as [a|] eqn:Ha; cbn; [|done]. rewrite Hsame; [done|]. apply Hv. by right.
Qed.

Lemma Percentile_frame `{SortPkg} (s : SampleAt) (p : float64) (σ : store) :
  valid σ s -> forall a, (a < length σ)%nat -> (Percentile s p σ).1 !! a = σ !! a.
Proof.
  intros Hv a Ha. destruct (Percentile_store s p σ) as [-> | ->]; [done|].
  by apply sorted_copy_frame.
Qed.

Lemma IQR_frame `{SortPkg} (s : SampleAt) (σ : store) :
  valid σ s -> forall a, (a < length σ)%nat -> (IQR s σ).1 !! a = σ !! a.
Proof.
  intros Hv a Ha. destruct (sorted_copy_frame s σ Hv) as [Hframe Hsorted].
  unfold IQR. unfold mbind at 1, M_bind at 1.
  destruct (sorted_copy s σ) as [σ' [s'|msg]]; cbn in Hframe, Hsorted |- *; [|by apply Hframe].
  specialize (Hsorted s' eq_refl).
  assert (Hread : forall q τ, (Percentile s' q τ).1 = τ).
  { intros q τ. destruct (Percentile_store s' q τ) as [-> | ->]; [done|].
    unfold sorted_copy. by rewrite Hsorted. }
  unfold mbind at 1, M_bind at 1.
  pose proof (Hread f0_75 σ') as H1. destruct (Percentile s' f0_75 σ') as [σ1 [hi|msg]];
    cbn in H1; subst σ1; [|by apply Hframe].
  unfold mbind at 1, M_bind at 1.
  pose proof (Hread f0_25 σ') as H2. destruct (Percentile s' f0_25 σ') as [σ2 [lo|msg]];
    cbn in H2; subst σ2; by apply Hframe.
Qed.

(** C8. Percentile and IQR never change the receiver: after either call
    every array that the store held before the call has the contents it had,
    so the values and the weights of the receiver read as before; the struct
    is passed by value, so its Sorted flag is the caller's.  An unsorted
    sample is handled by sorting arrays that the call allocates. *)
Theorem Percentile_IQR_keep_receiver `{SortPkg} (σ : store) (s : SampleAt) (p : float64) :
  valid σ s ->
  ((forall a, (a < length σ)%nat -> (Percentile s p σ).1 !! a = σ !! a) /\
   load (Percentile s p σ).1 s = load σ s) /\
  ((forall a, (a < length σ)%nat -> (IQR s σ).1 !! a = σ !! a) /\
   load (IQR s σ).1 s = load σ s).
Proof.
  intros Hv. split; split.
  - by apply Percentile_frame.
  - apply load_unchanged; [done|]. by apply Percentile_frame.
  - by apply IQR_frame.
  - apply load_unchanged; [done|]. by apply IQR_frame.
Qed.

Lemma Percentile_IQR_keep_receiver_witness :
  let σ := [[float64_of_int 3; float64_of_int 1; float64_of_int 2]] in
  let s := {| XsAt := Some 0%nat; WeightsAt := None; SortedAt := false |} in
  load (Percentile s f0_75 σ).1 s = load σ s /\ load (IQR s σ).1 s = load σ s.
Proof.
  intros σ s.
  assert (Hv : valid σ s).
  { intros a [H|H]; [injection H as <-; cbn; lia | discriminate H]. }
  split; [apply (Percentile_IQR_keep_receiver σ s f0_75 Hv)
         |apply (Percentile_IQR_keep_receiver σ s f0_75 Hv)].
Defined.


(** ** Runs over the store and runs over sequences

    On an array of the store, with positions in range, the methods of
    [sort.Float64Slice] and of [sampleSorter] do what [ask] and [swap_at] do
    on the contents. *)

Lemma write_contents (σ : store) a : write (Some a) (contents σ (Some a)) σ = σ.
Proof.
  cbn. destruct (σ !! a) as [l|] eqn:Hl; cbn.
  - by apply list_insert_id.
  - apply list_insert_ge. by apply lookup_ge_None.
Qed.

Lemma write_write a l l' (σ : store) :
  write (Some a) l (write (Some a) l' σ) = write (Some a) l σ.
Proof. cbn. apply list_insert_insert_eq. Qed.

Lemma slice_swap_spec a i j (σ : store) :
  (a < length σ)%nat ->
  (i < length (contents σ (Some a)))%nat -> (j < length (contents σ (Some a)))%nat ->
  slice_swap (Some a) i j σ = (write (Some a) (swap_at (contents σ (Some a)) i j) σ, Ok ()).
Proof.
  intros Ha Hi Hj. set (l := contents σ (Some a)) in *.
  destruct (lookup_lt_is_Some_2 l i Hi) as [xi Hxi].
  destruct (lookup_lt_is_Some_2 l j Hj) as [xj Hxj].
  unfold slice_swap, swap_at. unfold_M. fold l.
  rewrite (index_lookup l j xj), (index_lookup l i xi) by done. rewrite Hxi, Hxj.
  unfold slice_set. fold l.
  rewrite (proj2 (Nat.ltb_lt _ _) Hi).
  rewrite contents_write_eq by done. rewrite length_insert.
  rewrite (proj2 (Nat.ltb_lt _ _) Hj). by rewrite write_write.
Qed.

Lemma Less_Float64Slice_spec sl i j (σ : store) :
  (i < length (contents σ sl))%nat -> (j < length (contents σ sl))%nat ->
  Less (Float64Slice sl) i j σ = (σ, Ok (ask Float64Slice_Less (contents σ sl) i j)).
Proof.
  intros Hi Hj. set (l := contents σ sl) in *.
  destruct (lookup_lt_is_Some_2 l i Hi) as [xi Hxi].
  destruct (lookup_lt_is_Some_2 l j Hj) as [xj Hxj].
  cbn [Less Float64Slice]. unfold ask. unfold_M. fold l.
  rewrite (index_lookup l i xi), (index_lookup l j xj) by done. by rewrite Hxi, Hxj.
Qed.

Lemma Less_sampleSorter_spec a b i j (σ : store) :
  let xs := contents σ (Some a) in
  let ws := contents σ (Some b) in
  length xs = length ws -> (i < length xs)%nat -> (j < length xs)%nat ->
  sampleSorter.Less {| sampleSorter.xs := Some a; sampleSorter.weights := Some b |} i j σ
  = (σ, Ok (ask pair_less (zip xs ws) i j)).
Proof.
  intros xs ws Hlen Hi Hj.
  destruct (lookup_lt_is_Some_2 xs i Hi) as [xi Hxi].
  destruct (lookup_lt_is_Some_2 xs j Hj) as [xj Hxj].
  destruct (lookup_lt_is_Some_2 ws i ltac:(lia)) as [wi Hwi].
  destruct (lookup_lt_is_Some_2 ws j ltac:(lia)) as [wj Hwj].
  unfold sampleSorter.Less, ask. cbn [sampleSorter.xs]. unfold_M. fold xs.
  rewrite (index_lookup xs i xi), (index_lookup xs j xj) by done.
  rewrite (proj2 (lookup_zip_Some xs ws i xi wi)) by done.
  by rewrite (proj2 (lookup_zip_Some xs ws j xj wj)).
Qed.

Lemma swap_at_zip {A B} (xs : list A) (ws : list B) i j :
  length xs = length ws ->
  swap_at (zip xs ws) i j = zip (swap_at xs i j) (swap_at ws i j).
Proof.
  intros Hlen. unfold swap_at. rewrite !lookup_zip_with.
  destruct (xs !! i) as [xi|] eqn:Hxi; cbn.
  - destruct (lookup_lt_is_Some_2 ws i) as [wi Hwi].
    { rewrite <- Hlen. by apply lookup_lt_Some in Hxi. }
    rewrite Hwi. cbn.
    destruct (xs !! j) as [xj|] eqn:Hxj; cbn.
    + destruct (lookup_lt_is_Some_2 ws j) as [wj Hwj].
      { rewrite <- Hlen. by apply lookup_lt_Some in Hxj. }
      rewrite Hwj. cbn. by rewrite <- !insert_zip_with.
    + apply lookup_ge_None in Hxj. rewrite Hlen in Hxj. apply lookup_ge_None in Hxj.
      by rewrite Hxj.
  - apply lookup_ge_None in Hxi. rewrite Hlen in Hxi. apply lookup_ge_None in Hxi.
    by rewrite Hxi.
Qed.

(** A plan run through [sort.Float64Slice] on an array. *)
Lemma run_Float64Slice a p (σ : store) :
  (a < length σ)%nat ->
  in_range (length (contents σ (Some a))) p ->
  run (Float64Slice (Some a)) p σ
  = (write (Some a) (run_list Float64Slice_Less p (contents σ (Some a))) σ, Ok ()).
Proof.
  revert σ. induction p as [|i j k IH|i j k IH]; intros σ Ha Hp.
  - cbn [run run_list]. by rewrite write_contents.
  - destruct Hp as (Hi & Hj & Hk). cbn [run run_list].
    unfold mbind at 1, M_bind at 1. rewrite Less_Float64Slice_spec by done.
    by apply IH.
  - destruct Hp as (Hi & Hj & Hk). cbn [run run_list].
    unfold mbind at 1, M_bind at 1. cbn [Swap Float64Slice].
    rewrite slice_swap_spec by done.
    rewrite IH.
    + rewrite contents_write_eq by done. by rewrite write_write.
    + by rewrite length_write.
    + rewrite contents_write_eq by done. by rewrite length_swap_at.
Qed.

(** A plan run through a [sampleSorter] on two arrays of one length: the
    value/weight pairs move together. *)
Lemma run_sampleSorter a b p (σ : store) :
  let xs := contents σ (Some a) in
  let ws := contents σ (Some b) in
  a <> b -> (a < length σ)%nat -> (b < length σ)%nat ->
  length xs = length ws -> in_range (length xs) p ->
  run (sampleSorter_Interface {| sampleSorter.xs := Some a; sampleSorter.weights := Some b |}) p σ
  = (write (Some b) (run_list pair_less p (zip xs ws)).*2
       (write (Some a) (run_list pair_less p (zip xs ws)).*1 σ), Ok ()).
Proof.
  cbv zeta. revert σ. induction p as [|i j k IH|i j k IH]; intros σ Hab Ha Hb Hlen Hp.
  - cbn [run run_list]. rewrite fst_zip, snd_zip by lia. by rewrite !write_contents.
  - destruct Hp as (Hi & Hj & Hk). cbn [run run_list].
    unfold mbind at 1, M_bind at 1. cbn [Less sampleSorter_Interface].
    rewrite Less_sampleSorter_spec by done. by apply IH.
  - destruct Hp as (Hi & Hj & Hk). cbn [run run_list].
    unfold mbind at 1, M_bind at 1. cbn [Swap sampleSorter_Interface].
    unfold sampleSorter.Swap. cbn [sampleSorter.xs sampleSorter.weights].
    unfold mbind at 1, M_bind at 1. rewrite slice_swap_spec by done.
    set (xs := contents σ (Some a)) in *. set (ws := contents σ (Some b)) in *.
    assert (Hws : contents (write (Some a) (swap_at xs i j) σ) (Some b) = ws).
    { apply contents_write_ne. congruence. }
    rewrite slice_swap_spec; rewrite ?length_write, ?Hws; [|done|lia|lia].
    set (σ' := write (Some b) (swap_at ws i j) (write (Some a) (swap_at xs i j) σ)).
    assert (Hxs' : contents σ' (Some a) = swap_at xs i j).
    { unfold σ'. rewrite contents_write_ne by congruence. by apply contents_write_eq. }
    assert (Hws' : contents σ' (Some b) = swap_at ws i j).
    { unfold σ'. apply contents_write_eq. by rewrite length_write. }
    assert (Hlen' : length σ' = length σ) by (unfold σ'; by rewrite !length_write).
    rewrite IH; rewrite ?Hxs', ?Hws', ?Hlen', ?length_swap_at; [|done..].
    rewrite swap_at_zip by done. f_equal.
    unfold σ'. cbn [write].
    rewrite (list_insert_insert_ne _ a b) by done.
    rewrite list_insert_insert_eq. by rewrite (list_insert_insert_eq _ a).
Qed.

(** [sort.Float64sAreSorted] on a slice is [is_sorted] of its contents. *)
Lemma IsSorted_loop_Float64Slice sl i (σ : store) :
  (i < length (contents σ sl))%nat \/ i = 0%nat ->
  IsSorted_loop (Float64Slice sl) i σ
  = (σ, Ok (is_sorted Float64Slice_Less (take (S i) (contents σ sl)))).
Proof.
  set (l := contents σ sl). induction i as [|i IH]; intros Hi.
  - cbn [IsSorted_loop]. by destruct l as [|x [|y t]].
  - destruct Hi as [Hi|?]; [|done]. cbn [IsSorted_loop].
    unfold mbind at 1, M_bind at 1. rewrite Less_Float64Slice_spec by (fold l; lia).
    fold l. unfold ask.
    destruct (lookup_lt_is_Some_2 l (S i) Hi) as [x Hx].
    destruct (lookup_lt_is_Some_2 l i ltac:(lia)) as [y Hy].
    rewrite Hx, Hy. rewrite (take_S_r l (S i) x) by done.
    rewrite is_sorted_snoc, last_lookup, length_take.
    replace (Init.Nat.pred (S i `min` length l)) with i by lia.
    rewrite lookup_take_lt by lia. rewrite Hy. cbn [from_option].
    destruct (Float64Slice_Less x y).
    + by rewrite andb_false_r.
    + rewrite andb_true_r. apply IH. left. lia.
Qed.

Lemma sort_Float64sAreSorted_spec sl (σ : store) :
  sort_Float64sAreSorted sl σ = (σ, Ok (is_sorted Float64Slice_Less (contents σ sl))).
Proof.
  unfold sort_Float64sAreSorted, sort_IsSorted. cbn [Len Float64Slice].
  unfold mbind at 1, M_bind at 1. unfold len at 1.
  rewrite IsSorted_loop_Float64Slice by lia.
  rewrite take_ge by lia. done.
Qed.

(** ** Sort *)

Lemma zip_fmap_Some (xs ws : list float64) :
  zip xs (Some <$> ws) = prod_map id Some <$> zip xs ws.
Proof.
  revert ws. induction xs as [|x xs IH]; intros [|w ws]; [done..|].
  cbn. f_equal. apply IH.
Qed.

Lemma zip_fst_snd_Some (ps : list (float64 * float64)) :
  zip ps.*1 (Some <$> ps.*2) = prod_map id Some <$> ps.
Proof. by rewrite zip_fmap_Some, zip_fst_snd. Qed.

Lemma nan_free_Permutation xs ys : xs ≡ₚ ys -> nan_free xs -> nan_free ys.
Proof. intros Hp. unfold nan_free. by rewrite Hp. Qed.

Lemma Float64sAreSorted_ascending xs :
  nan_free xs -> is_sorted Float64Slice_Less xs = true -> ascending xs = true.
Proof.
  intros Hfree. rewrite is_sorted_Float64Slice_flt by done.
  by apply is_sorted_flt_ascending.
Qed.

(** The three ways through [Sort]. *)
Lemma Sort_nothing_to_do `{SortPkg} (s : SampleAt) (σ : store) :
  SortedAt s || is_sorted Float64Slice_Less (contents σ (XsAt s)) = true ->
  Sort s σ = (σ, Ok {| XsAt := XsAt s; WeightsAt := WeightsAt s; SortedAt := true |}).
Proof.
  intros Hs. unfold Sort. unfold mbind at 1, M_bind at 1.
  destruct (SortedAt s); [done|]. rewrite sort_Float64sAreSorted_spec.
  cbn [orb] in Hs. by rewrite Hs.
Qed.

Lemma Sort_unweighted `{SortPkg} `{!SortContract H} (s : SampleAt) (σ : store) a :
  let xs := contents σ (Some a) in
  XsAt s = Some a -> WeightsAt s = None -> (a < length σ)%nat ->
  SortedAt s = false -> is_sorted Float64Slice_Less xs = false ->
  Sort s σ = (write (Some a) (run_list Float64Slice_Less (sort_plan (length xs)) xs) σ,
              Ok {| XsAt := Some a; WeightsAt := None; SortedAt := true |}).
Proof.
  intros xs Ha Hb Hal Hs Hns. unfold Sort. rewrite Ha, Hb, Hs.
  unfold mbind at 1, M_bind at 1. rewrite sort_Float64sAreSorted_spec. fold xs. rewrite Hns.
  rewrite bool_decide_eq_true_2 by done.
  unfold mbind at 1, M_bind at 1. unfold sort_Float64s, sort_Sort.
  unfold mbind at 1, M_bind at 1. cbn [Len Float64Slice]. unfold len at 1. fold xs.
  rewrite run_Float64Slice; [done|done|]. apply sort_plan_in_range.
Qed.

Lemma Sort_weighted `{SortPkg} `{!SortContract H} (s : SampleAt) (σ : store) a b :
  let xs := contents σ (Some a) in
  let ws := contents σ (Some b) in
  let ps := run_list pair_less (sort_plan (length xs)) (zip xs ws) in
  XsAt s = Some a -> WeightsAt s = Some b ->
  a <> b -> (a < length σ)%nat -> (b < length σ)%nat -> length xs = length ws ->
  SortedAt s = false -> is_sorted Float64Slice_Less xs = false ->
  Sort s σ = (write (Some b) ps.*2 (write (Some a) ps.*1 σ),
              Ok {| XsAt := Some a; WeightsAt := Some b; SortedAt := true |}).
Proof.
  intros xs ws ps Ha Hb Hab Hal Hbl Hlen Hs Hns. unfold Sort. rewrite Ha, Hb, Hs.
  unfold mbind at 1, M_bind at 1. rewrite sort_Float64sAreSorted_spec. fold xs. rewrite Hns.
  rewrite bool_decide_eq_false_2 by done.
  unfold mbind at 1, M_bind at 1. unfold sort_Sort.
  unfold mbind at 1, M_bind at 1. cbn [Len sampleSorter_Interface].
  unfold sampleSorter.Len. cbn [sampleSorter.xs]. unfold len at 1. fold xs.
  rewrite run_sampleSorter; [done..|]. apply sort_plan_in_range.
Qed.

(** C5, amended. Take a sample whose slices are arrays of the store, whose
    weights, when present, are as many as the values and lie in another array,
    whose values contain no NaN, and whose Sorted flag, when set, is true of
    the values.  Then Sort returns its receiver with Sorted set; the values
    are ascending afterwards; the value/weight pairs are a permutation of
    what they were; only the arrays of the sample are written; a sample
    already flagged or already ascending keeps its arrays as they are; and
    sorting again changes nothing.  This holds for every [sort.Sort] that
    keeps Go's contract. *)
Theorem Sort_sorts_in_place {S : SortPkg} {HS : SortContract S} (σ : store) (s : SampleAt) :
  let v := load σ s in
  valid σ s ->
  (forall ws, Weights v = Some ws -> length ws = length (Xs v) /\ WeightsAt s <> XsAt s) ->
  nan_free (Xs v) ->
  (Sorted v = true -> ascending (Xs v) = true) ->
  exists σ' : store,
    let s' := {| XsAt := XsAt s; WeightsAt := WeightsAt s; SortedAt := true |} in
    let v' := load σ' s' in
    Sort s σ = (σ', Ok s') /\
    ascending (Xs v') = true /\
    entries v' ≡ₚ entries v /\
    (length σ' = length σ /\
     forall a, XsAt s <> Some a -> WeightsAt s <> Some a -> σ' !! a = σ !! a) /\
    (Sorted v = true \/ ascending (Xs v) = true -> σ' = σ) /\
    Sort s' σ' = (σ', Ok s').
Proof.
  intros v Hv Hwf Hfree Hflag. subst v.
  cbn [load Xs Weights Sorted XsAt WeightsAt SortedAt] in Hwf, Hfree, Hflag |- *.
  assert (Hidem : forall τ, Sort {| XsAt := XsAt s; WeightsAt := WeightsAt s; SortedAt := true |} τ
                  = (τ, Ok {| XsAt := XsAt s; WeightsAt := WeightsAt s; SortedAt := true |})).
  { intros τ. by apply (Sort_nothing_to_do {| SortedAt := true |}). }
  destruct (Sort_frame s σ) as (Hlen & Hframe & Hres).
  destruct (SortedAt s || is_sorted Float64Slice_Less (contents σ (XsAt s))) eqn:Hsorted.
  { (* nothing to sort *)
    exists σ. cbv zeta.
    cbn [load Xs Weights Sorted XsAt WeightsAt SortedAt].
    split; [|split; [|split; [|split; [|split]]]]; try done.
    - by apply Sort_nothing_to_do.
    - apply orb_prop in Hsorted as [Hs|Hs]; [by apply Hflag|].
      by apply Float64sAreSorted_ascending. }
  apply orb_false_elim in Hsorted as [Hs Hns].
  assert (Hnot : ~ (SortedAt s = true \/ ascending (contents σ (XsAt s)) = true)).
  { intros [H|H]; [congruence|].
    apply ascending_is_sorted in H. congruence. }
  destruct (XsAt s) as [a|] eqn:Ha; [|discriminate].
  assert (Hal : (a < length σ)%nat) by (apply Hv; by left).
  set (xs := contents σ (Some a)) in *.
  destruct (WeightsAt s) as [b|] eqn:Hb.
  - (* weighted *)
    set (ws := contents σ (Some b)).
    destruct (Hwf ws eq_refl) as [Hlenw Hab].
    assert (Hbl : (b < length σ)%nat) by (apply Hv; by right).
    set (ps := run_list pair_less (sort_plan (length xs)) (zip xs ws)).
    assert (Hperm : ps ≡ₚ zip xs ws) by apply run_list_Permutation.
    assert (Hfst : ps.*1 ≡ₚ xs).
    { rewrite Hperm. rewrite fst_zip; [done|]. by rewrite Hlenw. }
    exists (write (Some b) ps.*2 (write (Some a) ps.*1 σ)). cbv zeta.
    cbn [load Xs Weights Sorted XsAt WeightsAt SortedAt].
    assert (HX : contents (write (Some b) ps.*2 (write (Some a) ps.*1 σ)) (Some a) = ps.*1).
    { rewrite contents_write_ne by done. by apply contents_write_eq. }
    assert (HW : contents (write (Some b) ps.*2 (write (Some a) ps.*1 σ)) (Some b) = ps.*2).
    { apply contents_write_eq. by rewrite length_write. }
    assert (HS' : Sort s σ = (write (Some b) ps.*2 (write (Some a) ps.*1 σ),
                    Ok {| XsAt := Some a; WeightsAt := Some b; SortedAt := true |})).
    { apply Sort_weighted; try done; congruence. }
    split; [done|]. split; [|split; [|split; [|split]]].
    + rewrite HX. apply is_sorted_flt_ascending.
      * by apply (nan_free_Permutation xs).
      * rewrite <- is_sorted_pair_less. unfold ps.
        replace (length xs) with (length (zip xs ws))
          by (rewrite length_zip_with; apply Nat.min_l; by rewrite Hlenw).
        apply sort_plan_sorts.
        apply pair_less_ordering. rewrite fst_zip; [done|]. by rewrite Hlenw.
    + replace (entries (load σ s)) with (zip xs (Some <$> ws))
        by (unfold entries, load; by rewrite Ha, Hb).
      change (zip (contents (write (Some b) ps.*2 (write (Some a) ps.*1 σ)) (Some a))
                (Some <$> contents (write (Some b) ps.*2 (write (Some a) ps.*1 σ)) (Some b))
              ≡ₚ zip xs (Some <$> ws)).
      rewrite HX, HW, zip_fst_snd_Some, zip_fmap_Some. by rewrite Hperm.
    + rewrite HS' in Hlen, Hframe. done.
    + done.
    + apply Hidem.
  - (* no weights *)
    set (ys := run_list Float64Slice_Less (sort_plan (length xs)) xs).
    assert (Hperm : ys ≡ₚ xs) by apply run_list_Permutation.
    exists (write (Some a) ys σ). cbv zeta.
    cbn [load Xs Weights Sorted XsAt WeightsAt SortedAt].
    assert (HS' : Sort s σ = (write (Some a) ys σ,
                    Ok {| XsAt := Some a; WeightsAt := None; SortedAt := true |})).
    { by apply Sort_unweighted. }
    split; [done|]. split; [|split; [|split; [|split]]].
    + rewrite contents_write_eq by done.
      apply Float64sAreSorted_ascending.
      * by apply (nan_free_Permutation xs).
      * apply sort_plan_sorts. by apply Float64Slice_Less_ordering.
    + replace (entries (load σ s)) with ((fun x => (x, @None float64)) <$> xs)
        by (unfold entries, load; by rewrite Ha, Hb).
      change ((fun x => (x, @None float64)) <$> contents (write (Some a) ys σ) (Some a)
              ≡ₚ (fun x => (x, None)) <$> xs).
      rewrite contents_write_eq by done. by rewrite Hperm.
    + rewrite HS' in Hlen, Hframe. done.
    + done.
    + apply Hidem.
Qed.

Lemma Sort_sorts_in_place_witness :
  let σ := [[float64_of_int 2; float64_of_int 3; float64_of_int 1];
            [float64_of_int 5; float64_of_int 6; float64_of_int 7]] in
  let s := {| XsAt := Some 0%nat; WeightsAt := Some 1%nat; SortedAt := false |} in
  exists σ' : store,
    Sort s σ = (σ', Ok {| XsAt := Some 0%nat; WeightsAt := Some 1%nat; SortedAt := true |}) /\
    ascending (contents σ' (Some 0%nat)) = true.
Proof.
  intros σ s.
  assert (Hv : valid σ s).
  { intros a [H|H]; injection H as <-; cbn; lia. }
  destruct (Sort_sorts_in_place σ s Hv) as (σ' & HS & Hasc & _).
  - intros ws [= <-]. split; [reflexivity | discriminate].
  - repeat constructor.
  - discriminate.
  - exists σ'. split; [exact HS | exact Hasc].
Defined.

(** C5 as stated fails on a weighted sample with a NaN value:
    [sampleSorter.Less] compares with [<], under which NaN is neither below
    nor above any value.  On the values [2, NaN, 1], which
    [sort.Float64sAreSorted] rejects, [sort.Sort] (an insertion sort on a
    slice this short) calls [sampleSorter.Swap] not once, and Sort flags the
    sample as sorted with 2 before 1. *)
Lemma Sort_weighted_NaN_not_ascending :
  let σ := [[float64_of_int 2; math_NaN; float64_of_int 1];
            [float64_of_int 1; float64_of_int 1; float64_of_int 1]] in
  let s := {| XsAt := Some 0%nat; WeightsAt := Some 1%nat; SortedAt := false |} in
  (SortedAt s = true -> ascending (contents σ (XsAt s)) = true) /\
  Sort s σ = (σ, Ok {| XsAt := Some 0%nat; WeightsAt := Some 1%nat; SortedAt := true |}) /\
  ascending (contents σ (Some 0%nat)) = false /\
  sort_Float64sAreSorted (Some 0%nat) σ = (σ, Ok false) /\
  (float64_of_int 2 <=. float64_of_int 1) = false.
Proof. split; [discriminate|]. repeat split. Qed.

(** What the two conditions on the weights are for.  When the weights are
    the array of the values, [sampleSorter.Swap] exchanges the same two
    elements twice, and the values stay as they were.  When the weights are
    fewer than the values, [sampleSorter.Swap] panics on the weights after it
    has exchanged the values. *)
Example Sort_weights_in_the_array_of_the_values :
  let σ := [[float64_of_int 2; float64_of_int 1]] in
  Sort {| XsAt := Some 0%nat; WeightsAt := Some 0%nat; SortedAt := false |} σ
  = (σ, Ok {| XsAt := Some 0%nat; WeightsAt := Some 0%nat; SortedAt := true |}).
Proof. reflexivity. Qed.

Example Sort_fewer_weights_than_values :
  Sort {| XsAt := Some 0%nat; WeightsAt := Some 1%nat; SortedAt := false |}
    [[float64_of_int 2; float64_of_int 1]; [float64_of_int 5]]
  = ([[float64_of_int 1; float64_of_int 2]; [float64_of_int 5]],
     Panic "index out of range").
Proof. reflexivity. Qed.

(** * Further properties *)

(** ** Bounds of a sequence *)

Lemma fle_refl x : math_IsNaN x = false -> (x <=. x) = true.
Proof. intros Hx. apply fle_key; [done..|]. unfold key_lt. lia. Qed.

Lemma flt_fle x y : (x <. y) = true -> (x <=. y) = true.
Proof.
  intros H.
  assert (Hx : math_IsNaN x = false) by (by destruct x, y).
  assert (Hy : math_IsNaN y = false) by (by destruct x, y).
  apply fle_key; [done..|]. apply flt_key in H; [|done..].
  unfold key_lt in *. lia.
Qed.

Lemma fle_trans x y z : (x <=. y) = true -> (y <=. z) = true -> (x <=. z) = true.
Proof.
  intros [Hxy [Hx Hy]]%fle_not_flt [Hyz [_ Hz]]%fle_not_flt.
  apply not_flt_fle; [done..|]. by apply (flt_neg_trans z y x).
Qed.

Lemma flt_nan_r x : (x <. math_NaN) = false.
Proof. by destruct x as [|[]| |[]]. Qed.

Lemma flt_nan_l x : (math_NaN <. x) = false.
Proof. by destruct x. Qed.

Lemma Bounds_step_nan acc : Bounds_step acc math_NaN = acc.
Proof. destruct acc as [mn mx]. unfold Bounds_step. by rewrite !flt_nan_l, ?flt_nan_r. Qed.

Lemma bounds_of_step l acc x :
  math_IsNaN x = false -> nan_free l ->
  bounds_of l acc -> bounds_of (l ++ [x]) (Bounds_step acc x).
Proof.
  destruct acc as [mn mx]. intros Hx Hl (Hmn & Hmx & Hall). cbn [fst snd] in *.
  assert (Hnmn : math_IsNaN mn = false) by by apply (nan_free_elem l).
  assert (Hnmx : math_IsNaN mx = false) by by apply (nan_free_elem l).
  unfold Bounds_step, bounds_of. cbn [fst snd].
  split; [|split].
  - rewrite elem_of_app, list_elem_of_singleton. destruct (x <. mn); auto.
  - rewrite elem_of_app, list_elem_of_singleton. destruct (mx <. x); auto.
  - apply Forall_app. split.
    + eapply Forall_impl; [exact Hall|]. cbn. intros y [H1 H2]. split.
      * destruct (x <. mn) eqn:Hlt; [|done].
        apply (fle_trans _ mn); [by apply flt_fle|done].
      * destruct (mx <. x) eqn:Hlt; [|done].
        apply (fle_trans _ mx); [done|by apply flt_fle].
    + constructor; [|constructor]. split.
      * destruct (x <. mn) eqn:Hlt; [by apply fle_refl|by apply not_flt_fle].
      * destruct (mx <. x) eqn:Hlt; [by apply fle_refl|by apply not_flt_fle].
Qed.

Lemma bounds_of_fold xs l acc :
  nan_free xs -> nan_free l ->
  bounds_of l acc -> bounds_of (l ++ xs) (fold_left Bounds_step xs acc).
Proof.
  revert l acc. induction xs as [|x xs IH]; intros l acc Hxs Hl Hacc.
  - by rewrite app_nil_r.
  - inversion Hxs as [|?? Hx Hxs']; subst. cbn [fold_left].
    rewrite (cons_middle x l xs), app_assoc. apply IH; [done| |].
    + apply Forall_app. split; [done|]. by constructor.
    + by apply bounds_of_step.
Qed.

Lemma Bounds_bounds_of xs : xs <> [] -> nan_free xs -> bounds_of xs (Bounds xs).
Proof.
  destruct xs as [|x xs]; [done|]. intros _ Hfree.
  inversion Hfree as [|?? Hx Hxs]; subst.
  unfold Bounds. cbn [fold_left]. unfold Bounds_step at 2. rewrite flt_irrefl.
  apply (bounds_of_fold xs [x] (x, x)); [done|by constructor|].
  repeat split; cbn; try apply list_elem_of_here. constructor; [|constructor].
  by rewrite fle_refl.
Qed.

(** X1. For a sequence with at least one value and no NaN, [Bounds] returns
    two of its values, the first of which is [<=] every value and the second
    [>=] every value. *)
Theorem Bounds_min_max (xs : list float64) :
  xs <> [] -> nan_free xs ->
  (Bounds xs).1 ∈ xs /\ (Bounds xs).2 ∈ xs /\
  Forall (fun x => ((Bounds xs).1 <=. x) = true /\ (x <=. (Bounds xs).2) = true) xs.
Proof. intros Hne Hfree. by apply Bounds_bounds_of. Qed.

Lemma Bounds_min_max_witness :
  let xs := [float64_of_int 3; float64_of_int 1; float64_of_int 2] in
  (Bounds xs).1 ∈ xs /\ (Bounds xs).2 ∈ xs /\
  Forall (fun x => ((Bounds xs).1 <=. x) = true /\ (x <=. (Bounds xs).2) = true) xs.
Proof.
  intros xs. apply (Bounds_min_max xs); [discriminate|].
  repeat constructor.
Defined.

Lemma fold_Bounds_step_nan xs :
  fold_left Bounds_step xs (math_NaN, math_NaN) = (math_NaN, math_NaN).
Proof.
  induction xs as [|x xs IH]; [done|]. cbn [fold_left]. unfold Bounds_step at 2.
  by rewrite !flt_nan_r, flt_nan_l.
Qed.

Lemma fold_Bounds_step_skip_nan xs acc :
  fold_left Bounds_step (filter (fun y => math_IsNaN y = false) xs) acc
  = fold_left Bounds_step xs acc.
Proof.
  revert acc. induction xs as [|x xs IH]; intros acc; [done|].
  destruct (math_IsNaN x) eqn:Hx.
  - rewrite filter_cons_False by (by rewrite Hx). cbn [fold_left].
    apply IsNaN_true in Hx as ->. by rewrite Bounds_step_nan.
  - rewrite filter_cons_True by done. cbn [fold_left]. apply IH.
Qed.

(** X2. A NaN in the first position makes both results of [Bounds] NaN,
    whatever follows; a NaN in any other position is passed over: the
    results are those of the sequence without it. *)
Theorem Bounds_NaN (x : float64) (xs : list float64) :
  Bounds (math_NaN :: xs) = (math_NaN, math_NaN) /\
  (math_IsNaN x = false ->
   Bounds (x :: xs) = Bounds (x :: filter (fun y => math_IsNaN y = false) xs)).
Proof.
  split.
  - unfold Bounds. cbn [fold_left]. unfold Bounds_step at 2. rewrite flt_nan_l.
    apply fold_Bounds_step_nan.
  - intros Hx. unfold Bounds. cbn [fold_left]. by rewrite fold_Bounds_step_skip_nan.
Qed.

Lemma Bounds_NaN_witness :
  Bounds [math_NaN; float64_of_int 1] = (math_NaN, math_NaN) /\
  Bounds [float64_of_int 2; math_NaN; float64_of_int 1]
  = Bounds [float64_of_int 2; float64_of_int 1].
Proof.
  split.
  - apply (Bounds_NaN f0 [float64_of_int 1]).
  - apply (Bounds_NaN (float64_of_int 2) [math_NaN; float64_of_int 1]). reflexivity.
Defined.

(** ** Bounds of a weighted sample that is not flagged as sorted *)

Lemma Sample_Bounds_unsorted_fold (s : Sample) (ws : list float64) :
  Weights s = Some ws -> Sorted s = false -> length ws = length (Xs s) ->
  Sample_Bounds s =
    let acc := fold_left Bounds_step (nonzero_entries (Xs s) ws).*1
                 (math_Inf 1, math_Inf (-1)) in
    if math_IsInf acc.1 0 then Ok (math_NaN, math_NaN) else Ok acc.
Proof.
  destruct s as [xs w srt]. cbn [Xs Weights Sorted]. intros -> -> Hlen.
  unfold Sample_Bounds, weighted, wlist. cbn [Xs Weights Sorted from_option id negb andb].
  rewrite bool_decide_eq_true_2 by eauto. cbn [negb andb orb].
  rewrite orb_false_r.
  destruct xs as [|x xs].
  { destruct ws; [done|discriminate]. }
  cbn [length Nat.eqb].
  rewrite (Bounds_scan_zip [] ws (x :: xs)) by done.
  cbn [mbind result_bind]. rewrite <- fold_Bounds_scan_nonzero.
  unfold nonzero_entries.
  assert (Hfold : forall l acc,
    Forall (fun p => nonzero_weight p = true) l ->
    fold_left Bounds_scan_step l acc = fold_left Bounds_step l.*1 acc).
  { induction l as [|p l IH]; intros acc Hl; [done|].
    inversion Hl as [|?? Hp Hl']; subst. cbn [fold_left fmap list_fmap].
    rewrite <- IH by done. f_equal. destruct acc as [mn mx].
    unfold Bounds_scan_step, Bounds_step. cbn [fst snd].
    unfold nonzero_weight in Hp. by rewrite Hp, !andb_true_r. }
  rewrite Hfold.
  - by destruct (fold_left _ _ _).
  - apply Forall_forall. intros p Hp. by apply list_elem_of_filter in Hp as [Hp _].
Qed.

Lemma fold_Bounds_step_finite_head x xs :
  is_finite x = true ->
  fold_left Bounds_step (x :: xs) (math_Inf 1, math_Inf (-1)) = Bounds (x :: xs).
Proof.
  intros Hx. unfold Bounds. cbn [fold_left]. f_equal.
  unfold Bounds_step. rewrite flt_irrefl. by destruct x as [|[]| |[]].
Qed.

(** X3. Take a weighted sample, not flagged as sorted, with as many weights
    as values, in which at least one weight is not zero and the values of
    non-zero weight are finite.  Its Bounds are the [Bounds] of the values of
    non-zero weight: two of them, [<=] and [>=] each of them. *)
Theorem Sample_Bounds_unsorted_weighted (s : Sample) (ws : list float64) :
  Weights s = Some ws -> Sorted s = false -> length ws = length (Xs s) ->
  let nz := (nonzero_entries (Xs s) ws).*1 in
  nz <> [] -> Forall (fun x => is_finite x = true) nz ->
  exists min max,
    Sample_Bounds s = Ok (min, max) /\ (min, max) = Bounds nz /\
    min ∈ nz /\ max ∈ nz /\
    Forall (fun x => (min <=. x) = true /\ (x <=. max) = true) nz.
Proof.
  intros Hw Hs Hlen nz Hne Hfin.
  assert (Hfree : nan_free nz).
  { eapply Forall_impl; [exact Hfin|]. by intros [] ?. }
  destruct (Bounds_bounds_of nz Hne Hfree) as (Hmn & Hmx & Hall).
  exists (Bounds nz).1, (Bounds nz).2.
  split; [|by destruct (Bounds nz)].
  rewrite (Sample_Bounds_unsorted_fold s ws) by done. fold nz. cbv zeta.
  destruct nz as [|x t] eqn:Hnz; [done|].
  inversion Hfin as [|?? Hx _]; subst.
  rewrite fold_Bounds_step_finite_head by done.
  assert (Hf : is_finite (Bounds (x :: t)).1 = true).
  { by apply (proj1 (Forall_forall _ _) Hfin). }
  destruct (Bounds (x :: t)) as [mn mx]. cbn [fst snd] in *. by destruct mn.
Qed.

Lemma Sample_Bounds_unsorted_weighted_witness :
  exists min max,
    Sample_Bounds {| Xs := [float64_of_int 3; float64_of_int 1; float64_of_int 2];
                     Weights := Some [float64_of_int 1; f0; float64_of_int 1];
                     Sorted := false |} = Ok (min, max) /\
    (min, max) = (float64_of_int 2, float64_of_int 3).
Proof.
  destruct (Sample_Bounds_unsorted_weighted
              {| Xs := [float64_of_int 3; float64_of_int 1; float64_of_int 2];
                 Weights := Some [float64_of_int 1; f0; float64_of_int 1];
                 Sorted := false |}
              [float64_of_int 1; f0; float64_of_int 1])
    as (min & max & HB & Heq & _).
  - reflexivity.
  - reflexivity.
  - reflexivity.
  - discriminate.
  - repeat constructor.
  - exists min, max. split; [exact HB|]. rewrite Heq. reflexivity.
Defined.

Lemma fold_Bounds_step_min_neg_inf l mx :
  (fold_left Bounds_step l (math_Inf (-1), mx)).1 = math_Inf (-1).
Proof.
  revert mx. induction l as [|x l IH]; intros mx; [done|].
  cbn [fold_left]. unfold Bounds_step at 2.
  replace (x <. math_Inf (-1)) with false by (by destruct x as [|[]| |[]]).
  apply IH.
Qed.

Lemma fold_Bounds_step_reach_neg_inf l mn mx :
  math_Inf (-1) ∈ l -> math_IsNaN mn = false ->
  (fold_left Bounds_step l (mn, mx)).1 = math_Inf (-1).
Proof.
  revert mn mx. induction l as [|x l IH]; intros mn mx Hin Hmn.
  { by apply elem_of_nil in Hin. }
  cbn [fold_left]. unfold Bounds_step at 2.
  apply elem_of_cons in Hin as [<-|Hin].
  - replace (if math_Inf (-1) <. mn then math_Inf (-1) else mn) with (math_Inf (-1))
      by (by destruct mn as [|[]| |[]]).
    apply fold_Bounds_step_min_neg_inf.
  - apply IH; [done|]. destruct (x <. mn) eqn:Hlt; [|done]. by destruct x, mn.
Qed.

Lemma fold_Bounds_step_min_stays l mx :
  Forall (fun x => x = math_Inf 1 \/ x = math_NaN) l ->
  (fold_left Bounds_step l (math_Inf 1, mx)).1 = math_Inf 1.
Proof.
  revert mx. induction l as [|x l IH]; intros mx Hl; [done|].
  inversion Hl as [|?? Hx Hl']; subst.
  cbn [fold_left]. unfold Bounds_step at 2.
  replace (x <. math_Inf 1) with false by (by destruct Hx as [-> | ->]).
  by apply IH.
Qed.

(** X4. Take a weighted sample, not flagged as sorted, with as many weights
    as values.  When a value of non-zero weight is minus infinity, and when
    every value of non-zero weight is plus infinity or NaN, Bounds returns
    (NaN, NaN): the loop has left the minimum infinite, which the code takes
    for "no value of non-zero weight". *)
Theorem Sample_Bounds_unsorted_weighted_infinite (s : Sample) (ws : list float64) :
  Weights s = Some ws -> Sorted s = false -> length ws = length (Xs s) ->
  let nz := (nonzero_entries (Xs s) ws).*1 in
  math_Inf (-1) ∈ nz \/ Forall (fun x => x = math_Inf 1 \/ x = math_NaN) nz ->
  Sample_Bounds s = Ok (math_NaN, math_NaN).
Proof.
  intros Hw Hs Hlen nz Hnz.
  rewrite (Sample_Bounds_unsorted_fold s ws) by done. fold nz. cbv zeta.
  destruct Hnz as [Hin|Hall].
  - by rewrite fold_Bounds_step_reach_neg_inf.
  - by rewrite fold_Bounds_step_min_stays.
Qed.

Lemma Sample_Bounds_unsorted_weighted_infinite_witness :
  Sample_Bounds {| Xs := [float64_of_int 1; math_Inf (-1); float64_of_int 2];
                   Weights := Some [float64_of_int 1; float64_of_int 1; float64_of_int 1];
                   Sorted := false |} = Ok (math_NaN, math_NaN) /\
  Sample_Bounds {| Xs := [math_Inf 1]; Weights := Some [float64_of_int 1];
                   Sorted := false |} = Ok (math_NaN, math_NaN).
Proof.
  split.
  - apply (Sample_Bounds_unsorted_weighted_infinite _
             [float64_of_int 1; float64_of_int 1; float64_of_int 1]);
      [reflexivity..|].
    left. apply list_elem_of_further, list_elem_of_here.
  - apply (Sample_Bounds_unsorted_weighted_infinite _ [float64_of_int 1]);
      [reflexivity..|].
    right. repeat constructor.
Defined.

(** ** The Sorted flag and the Bounds of a sample without weights *)

Lemma fle_antisym x y : (x <=. y) = true -> (y <=. x) = true -> (x ==. y) = true.
Proof.
  unfold fle, feq, SFleb, SFeqb.
  destruct x as [[]|[]| |[] mx ex], y as [[]|[]| |[] my ey]; cbn; try done;
    repeat match goal with
    | |- context [Z.compare ?a ?b] => destruct (Z.compare_spec a b)
    | |- context [Pos.compare_cont Eq ?a ?b] =>
        change (Pos.compare_cont Eq a b) with (Pos.compare a b);
        destruct (Pos.compare_spec a b)
    end; cbn; intros; try done; try lia.
Qed.

Lemma ascending_head_le a l :
  math_IsNaN a = false -> ascending (a :: l) = true ->
  Forall (fun x => (a <=. x) = true) (a :: l).
Proof.
  intros Ha Hasc. constructor; [by apply fle_refl|].
  revert a Ha Hasc. induction l as [|b l IH]; intros a Ha Hasc; [constructor|].
  cbn [ascending] in Hasc. apply andb_prop in Hasc as [Hab Hasc].
  destruct (fle_not_flt a b Hab) as (_ & _ & Hb).
  constructor; [done|]. eapply Forall_impl; [by apply IH|].
  cbn. intros x Hbx. by apply (fle_trans a b x).
Qed.

Lemma ascending_le_last l z :
  nan_free l -> ascending l = true -> last l = Some z ->
  Forall (fun x => (x <=. z) = true) l.
Proof.
  induction l as [|a l IH]; intros Hfree Hasc Hz; [constructor|].
  inversion Hfree as [|?? Ha Hfree']; subst.
  destruct l as [|b l].
  - injection Hz as <-. constructor; [by apply fle_refl|constructor].
  - assert (Hasc' : ascending (b :: l) = true).
    { cbn [ascending] in Hasc. by apply andb_prop in Hasc as [_ ?]. }
    pose proof (IH Hfree' Hasc' Hz) as Hall. constructor; [|done].
    pose proof (ascending_head_le a (b :: l) Ha Hasc) as Hhead.
    apply (proj1 (Forall_forall _ _) Hhead).
    apply list_elem_of_further. apply list_elem_of_lookup_2 with (length l).
    rewrite <- Hz, last_lookup. done.
Qed.

Lemma fold_Bounds_step_min_fixed xs mn mx :
  Forall (fun x => (x <. mn) = false) xs -> (fold_left Bounds_step xs (mn, mx)).1 = mn.
Proof.
  revert mx. induction xs as [|x xs IH]; intros mx Hall; [done|].
  inversion Hall as [|?? Hx Hall']; subst. cbn [fold_left]. unfold Bounds_step at 2.
  rewrite Hx. by apply IH.
Qed.

(** X5. For a sample without weights whose values are ascending and
    contain no NaN, Bounds does not depend on the Sorted flag: flagged, it
    returns the first and the last value; not flagged, it scans the values
    and returns the same minimum and a maximum equal ([==]) to the last
    value. *)
Theorem Sample_Bounds_Sorted_flag (xs : list float64) :
  xs <> [] -> nan_free xs -> ascending xs = true ->
  exists min max max',
    head xs = Some min /\ last xs = Some max /\
    Sample_Bounds {| Xs := xs; Weights := None; Sorted := true |} = Ok (min, max) /\
    Sample_Bounds {| Xs := xs; Weights := None; Sorted := false |} = Ok (min, max') /\
    (max' ==. max) = true.
Proof.
  intros Hne Hfree Hasc. destruct xs as [|a l]; [done|].
  inversion Hfree as [|?? Ha _]; subst.
  destruct (last (a :: l)) as [z|] eqn:Hz; [|by apply last_None in Hz].
  exists a, z, (Bounds (a :: l)).2. split; [done|]. split; [done|].
  pose proof (ascending_head_le a l Ha Hasc) as Hhead.
  pose proof (ascending_le_last (a :: l) z Hfree Hasc Hz) as Hlast.
  destruct (Bounds_bounds_of (a :: l) Hne Hfree) as (_ & Hmx & Hall).
  split; [|split].
  - unfold Sample_Bounds, weighted. cbn [Xs Weights Sorted length Nat.eqb negb andb orb].
    rewrite bool_decide_eq_false_2 by (by intros [? ?]). cbn [negb].
    unfold index. cbn [lookup list_lookup mbind result_bind].
    rewrite last_lookup in Hz. cbn [length Init.Nat.pred] in Hz.
    replace (S (length l) - 1)%nat with (length l) by lia. by rewrite Hz.
  - unfold Sample_Bounds, weighted. cbn [Xs Weights Sorted length Nat.eqb negb andb orb].
    rewrite bool_decide_eq_false_2 by (by intros [? ?]). cbn [negb andb].
    f_equal. rewrite (surjective_pairing (Bounds (a :: l))). f_equal.
    unfold Bounds. apply fold_Bounds_step_min_fixed.
    eapply Forall_impl; [exact Hhead|]. cbn. intros x Hx. by apply fle_not_flt in Hx as [? _].
  - apply fle_antisym.
    + by apply (proj1 (Forall_forall _ _) Hlast).
    + assert (Hzin : z ∈ a :: l).
      { rewrite last_lookup in Hz. by apply list_elem_of_lookup_2 in Hz. }
      by apply (proj1 (Forall_forall _ _) Hall) in Hzin as [_ ?].
Qed.

Lemma Sample_Bounds_Sorted_flag_witness :
  let xs := [S754_zero true; S754_zero false; float64_of_int 1; float64_of_int 1] in
  exists min max max',
    Sample_Bounds {| Xs := xs; Weights := None; Sorted := true |} = Ok (min, max) /\
    Sample_Bounds {| Xs := xs; Weights := None; Sorted := false |} = Ok (min, max') /\
    (max' ==. max) = true.
Proof.
  intros xs.
  destruct (Sample_Bounds_Sorted_flag xs) as (min & max & max' & _ & _ & H1 & H2 & H3).
  - discriminate.
  - repeat constructor.
  - reflexivity.
  - exists min, max, max'. split; [exact H1|]. split; [exact H2 | exact H3].
Defined.

(** ** The loops over a weighted sample index the weights by the values *)

Lemma index_panics {A} (l : list A) i : panics (index l i) <-> (length l <= i)%nat.
Proof.
  unfold panics, index. destruct (l !! i) as [x|] eqn:Hi.
  - apply lookup_lt_Some in Hi. split; [by intros [? ?]|lia].
  - apply lookup_ge_None in Hi. split; [done|eauto].
Qed.

Lemma bind_panics {A B} (r : result A) (f : A -> result B) :
  panics (r ≫= f) <-> panics r \/ exists a, r = Ok a /\ panics (f a).
Proof.
  destruct r as [a|msg]; cbn.
  - split; [eauto|]. by intros [[? ?]|(? & [= <-] & ?)].
  - split; [left|]; by exists msg.
Qed.

Lemma Sum_loop_panics ws i xs sum :
  (i <= length ws)%nat ->
  panics (Sum_loop ws i xs sum) <-> (length ws < i + length xs)%nat.
Proof.
  revert i sum. induction xs as [|x xs IH]; intros i sum Hi0; cbn [Sum_loop length].
  - split; [by intros [? ?]|lia].
  - rewrite bind_panics, index_panics. split.
    + intros [?|(w & Hw & Hp)]; [lia|]. apply IH in Hp; [lia|].
      unfold index in Hw. destruct (ws !! i) eqn:Hl; [|done].
      apply lookup_lt_Some in Hl. lia.
    + intros Hlt. destruct (decide (length ws <= i)%nat) as [?|Hi]; [by left|right].
      destruct (lookup_lt_is_Some_2 ws i ltac:(lia)) as [w Hw].
      exists w. split; [by apply index_lookup|]. apply IH; lia.
Qed.

Lemma Sample_Mean_loop_panics ws i xs m wsum :
  (i <= length ws)%nat ->
  panics (Sample_Mean_loop ws i xs m wsum) <-> (length ws < i + length xs)%nat.
Proof.
  revert i m wsum. induction xs as [|x xs IH]; intros i m wsum Hi0;
    cbn [Sample_Mean_loop length].
  - split; [by intros [? ?]|lia].
  - rewrite bind_panics, index_panics. split.
    + intros [?|(w & Hw & Hp)]; [lia|]. apply IH in Hp; [lia|].
      unfold index in Hw. destruct (ws !! i) eqn:Hl; [|done].
      apply lookup_lt_Some in Hl. lia.
    + intros Hlt. destruct (decide (length ws <= i)%nat) as [?|Hi]; [by left|right].
      destruct (lookup_lt_is_Some_2 ws i ltac:(lia)) as [w Hw].
      exists w. split; [by apply index_lookup|]. apply IH; lia.
Qed.

Lemma Bounds_scan_panics ws i xs min max :
  (i <= length ws)%nat ->
  panics (Bounds_scan ws i xs min max) <-> (length ws < i + length xs)%nat.
Proof.
  revert i min max. induction xs as [|x xs IH]; intros i min max Hi0;
    cbn [Bounds_scan length].
  - split; [by intros [? ?]|lia].
  - rewrite bind_panics, index_panics. split.
    + intros [?|(w & Hw & Hp)]; [lia|]. apply IH in Hp; [lia|].
      unfold index in Hw. destruct (ws !! i) eqn:Hl; [|done].
      apply lookup_lt_Some in Hl. lia.
    + intros Hlt. destruct (decide (length ws <= i)%nat) as [?|Hi]; [by left|right].
      destruct (lookup_lt_is_Some_2 ws i ltac:(lia)) as [w Hw].
      exists w. split; [by apply index_lookup|]. apply IH; lia.
Qed.

(** X6. On a weighted sample, Sum and Mean panic exactly when the weights
    are fewer than the values, and so does Bounds when the sample is not
    flagged as sorted: their loops run over the values and index the
    weights.  Weights beyond the values cause no panic. *)
Theorem weighted_loops_panic (s : Sample) (ws : list float64) :
  Weights s = Some ws ->
  (panics (Sample_Sum s) <-> (length ws < length (Xs s))%nat) /\
  (panics (Sample_Mean s) <-> (length ws < length (Xs s))%nat) /\
  (Sorted s = false -> panics (Sample_Bounds s) <-> (length ws < length (Xs s))%nat).
Proof.
  destruct s as [xs w srt]. cbn [Xs Weights Sorted]. intros ->.
  unfold Sample_Sum, Sample_Mean, Sample_Bounds, weighted, wlist.
  cbn [Xs Weights Sorted from_option id].
  rewrite bool_decide_eq_true_2 by eauto. cbn [negb andb orb].
  split; [|split].
  - apply Sum_loop_panics. lia.
  - rewrite orb_false_r. destruct xs as [|x xs].
    + cbn. split; [by intros [? ?]|lia].
    + cbn [length Nat.eqb]. apply Sample_Mean_loop_panics. lia.
  - intros ->. cbn [negb andb]. rewrite orb_false_r. destruct xs as [|x xs].
    + cbn. split; [by intros [? ?]|lia].
    + cbn [length Nat.eqb]. rewrite bind_panics, Bounds_scan_panics by lia. split.
      * intros [?|([mn mx] & _ & Hp)]; [done|].
        destruct (math_IsInf mn 0); by destruct Hp.
      * by left.
Qed.

Lemma weighted_loops_panic_witness :
  panics (Sample_Sum {| Xs := [f1; f1]; Weights := Some [f1]; Sorted := false |}) /\
  ~ panics (Sample_Mean {| Xs := [f1]; Weights := Some [f1; f1]; Sorted := false |}).
Proof.
  split.
  - apply (weighted_loops_panic {| Xs := [f1; f1]; Weights := Some [f1]; Sorted := false |}
             [f1] eq_refl). cbn. lia.
  - intros Hp.
    apply (weighted_loops_panic {| Xs := [f1]; Weights := Some [f1; f1]; Sorted := false |}
             [f1; f1] eq_refl) in Hp. cbn in Hp. lia.
Defined.

(** ** A NaN among the values *)

Lemma fadd_nan_r x : x ⊕ math_NaN = math_NaN.
Proof. by destruct x. Qed.

Lemma fsub_nan_l x : math_NaN ⊖ x = math_NaN.
Proof. by destruct x. Qed.

Lemma fmul_nan_l x : math_NaN ⊗ x = math_NaN.
Proof. by destruct x. Qed.

Lemma fold_Sum_nan xs : fold_left (fun sum x => sum ⊕ x) xs math_NaN = math_NaN.
Proof. induction xs as [|x xs IH]; [done|]. cbn [fold_left]. by rewrite fadd_nan_l. Qed.

Lemma Sum_nan xs : math_NaN ∈ xs -> Sum xs = math_NaN.
Proof.
  unfold Sum. generalize f0. induction xs as [|x xs IH]; intros sum Hin.
  { by apply elem_of_nil in Hin. }
  cbn [fold_left]. apply elem_of_cons in Hin as [<-|Hin]; [|by apply IH].
  rewrite fadd_nan_r. apply fold_Sum_nan.
Qed.

Lemma Mean_loop_nan i xs : Mean_loop i xs math_NaN = math_NaN.
Proof.
  revert i. induction xs as [|x xs IH]; intros i; [done|].
  cbn [Mean_loop]. by rewrite fadd_nan_l.
Qed.

Lemma Mean_nan xs : math_NaN ∈ xs -> Mean xs = math_NaN.
Proof.
  intros Hin. unfold Mean. destruct xs as [|x0 xs0] eqn:Hxs.
  { by apply elem_of_nil in Hin. }
  cbn [length Nat.eqb]. rewrite <- Hxs in *. clear Hxs.
  generalize f0 0%nat. induction xs as [|x xs IH]; intros m i.
  { by apply elem_of_nil in Hin. }
  cbn [Mean_loop]. apply elem_of_cons in Hin as [<-|Hin]; [|by apply IH].
  rewrite fsub_nan_l, fdiv_nan_l, fadd_nan_r. apply Mean_loop_nan.
Qed.

Lemma Sum_loop_nan ws i xs :
  (i + length xs <= length ws)%nat -> Sum_loop ws i xs math_NaN = Ok math_NaN.
Proof.
  revert i. induction xs as [|x xs IH]; intros i Hlen; [done|].
  cbn [Sum_loop length] in *.
  destruct (lookup_lt_is_Some_2 ws i ltac:(lia)) as [w Hw].
  rewrite (index_lookup _ _ _ Hw). cbn [mbind result_bind].
  rewrite fadd_nan_l. apply IH. lia.
Qed.

Lemma Sum_loop_reach_nan ws i xs sum :
  (i + length xs <= length ws)%nat -> math_NaN ∈ xs ->
  Sum_loop ws i xs sum = Ok math_NaN.
Proof.
  revert i sum. induction xs as [|x xs IH]; intros i sum Hlen Hin.
  { by apply elem_of_nil in Hin. }
  cbn [Sum_loop length] in *.
  destruct (lookup_lt_is_Some_2 ws i ltac:(lia)) as [w Hw].
  rewrite (index_lookup _ _ _ Hw). cbn [mbind result_bind].
  apply elem_of_cons in Hin as [<-|Hin]; [|apply IH; [lia|done]].
  rewrite fmul_nan_l, fadd_nan_r. apply Sum_loop_nan. lia.
Qed.

Lemma Sample_Mean_loop_reach_nan ws i xs m wsum :
  (i + length xs <= length ws)%nat -> math_NaN ∈ xs ->
  Sample_Mean_loop ws i xs m wsum = Ok math_NaN.
Proof.
  revert i m wsum. induction xs as [|x xs IH]; intros i m wsum Hlen Hin.
  { by apply elem_of_nil in Hin. }
  cbn [Sample_Mean_loop length] in *.
  destruct (lookup_lt_is_Some_2 ws i ltac:(lia)) as [w Hw].
  rewrite (index_lookup _ _ _ Hw). cbn [mbind result_bind].
  apply elem_of_cons in Hin as [<-|Hin]; [|apply IH; [lia|done]].
  rewrite fsub_nan_l, fmul_nan_l, fdiv_nan_l, fadd_nan_r.
  apply Sample_Mean_loop_nan. lia.
Qed.

(** X7. A NaN among the values makes Sum and Mean NaN, for a sequence and
    for a sample, weighted (with as many weights as values) or not, whatever
    the weight of the NaN, zero included. *)
Theorem NaN_value_Sum_Mean (s : Sample) :
  math_NaN ∈ Xs s ->
  (forall ws, Weights s = Some ws -> length ws = length (Xs s)) ->
  Sum (Xs s) = math_NaN /\ Mean (Xs s) = math_NaN /\
  Sample_Sum s = Ok math_NaN /\ Sample_Mean s = Ok math_NaN.
Proof.
  destruct s as [xs w srt]. cbn [Xs Weights]. intros Hin Hlen.
  split; [by apply Sum_nan|]. split; [by apply Mean_nan|].
  unfold Sample_Sum, Sample_Mean, weighted, wlist. cbn [Xs Weights].
  destruct w as [ws|]; cbn [from_option id].
  - rewrite bool_decide_eq_true_2 by eauto. cbn [negb]. rewrite orb_false_r.
    specialize (Hlen ws eq_refl). split.
    + apply Sum_loop_reach_nan; [lia|done].
    + destruct xs as [|x xs]; [by apply elem_of_nil in Hin|]. cbn [length Nat.eqb].
      apply Sample_Mean_loop_reach_nan; [lia|done].
  - rewrite bool_decide_eq_false_2 by (by intros [? ?]). cbn [negb]. rewrite orb_true_r.
    by rewrite Sum_nan, Mean_nan.
Qed.

Lemma NaN_value_Sum_Mean_witness :
  Sample_Sum {| Xs := [f1; math_NaN]; Weights := Some [f1; f0]; Sorted := false |}
  = Ok math_NaN /\
  Sample_Mean {| Xs := [f1; math_NaN]; Weights := Some [f1; f0]; Sorted := false |}
  = Ok math_NaN.
Proof.
  destruct (NaN_value_Sum_Mean
              {| Xs := [f1; math_NaN]; Weights := Some [f1; f0]; Sorted := false |})
    as (_ & _ & HS & HM).
  - apply list_elem_of_further, list_elem_of_here.
  - intros ws [= <-]. reflexivity.
  - split; [exact HS | exact HM].
Defined.

(** ** A sample without values *)

(** X8. On a sample without values, whatever its weights and its flag,
    Bounds returns (NaN, NaN), Sum returns 0, Mean returns NaN, and none of
    them panics; the total weight of such a sample is the sum of its
    weights, which need not be 0. *)
Theorem Sample_without_values (s : Sample) :
  Xs s = [] ->
  Sample_Bounds s = Ok (math_NaN, math_NaN) /\
  Sample_Sum s = Ok f0 /\
  Sample_Mean s = Ok math_NaN /\
  (forall ws, Weights s = Some ws -> Sample_Weight s = Sum ws).
Proof.
  destruct s as [xs w srt]. cbn [Xs Weights]. intros ->.
  split; [by apply Sample_Bounds_empty|]. split; [|split].
  - unfold Sample_Sum. by destruct (negb _).
  - done.
  - intros ws ->. unfold Sample_Weight, weighted, wlist. cbn [Weights from_option id].
    by rewrite bool_decide_eq_true_2 by eauto.
Qed.

Lemma Sample_without_values_witness :
  Sample_Sum {| Xs := []; Weights := Some [f1; f1]; Sorted := true |} = Ok f0 /\
  Sample_Weight {| Xs := []; Weights := Some [f1; f1]; Sorted := true |}
  = float64_of_int 2.
Proof.
  destruct (Sample_without_values {| Xs := []; Weights := Some [f1; f1]; Sorted := true |}
              eq_refl) as (_ & HS & _ & HW).
  split; [exact HS|]. rewrite (HW [f1; f1] eq_refl). reflexivity.
Defined.

(** ** Copy *)

Lemma Copy_load (s : SampleAt) (σ : store) :
  valid σ s ->
  exists (τ : store) (c : SampleAt),
    Copy s σ = (σ ++ τ, Ok c) /\
    load (σ ++ τ) c = load σ s /\
    XsAt c = Some (length σ) /\
    WeightsAt c = (fun _ => S (length σ)) <$> WeightsAt s /\
    SortedAt c = SortedAt s /\
    length τ = (match WeightsAt s with Some _ => 2 | None => 1 end)%nat.
Proof.
  intros Hv. eexists _, _. split; [by apply Copy_spec|].
  split; [|split; [done|split; [done|split; [done|]]]].
  - unfold load. cbn [XsAt WeightsAt SortedAt contents]. f_equal.
    + by rewrite list_lookup_middle.
    + destruct (WeightsAt s) as [b|]; [|done]. cbn. f_equal.
      rewrite lookup_app_r by lia. by replace (S (length σ) - length σ)%nat with 1%nat by lia.
  - by destruct (WeightsAt s).
Qed.

Lemma Copy_valid (s : SampleAt) (σ : store) :
  valid σ s ->
  exists (τ : store) (c : SampleAt),
    Copy s σ = (σ ++ τ, Ok c) /\
    load (σ ++ τ) c = load σ s /\
    valid (σ ++ τ) c /\
    WeightsAt c = (fun _ => S (length σ)) <$> WeightsAt s.
Proof.
  intros Hv. destruct (Copy_load s σ Hv) as (τ & c & HC & Hload & HX & HW & _ & Hτ).
  exists τ, c. split; [done|]. split; [done|]. split; [|done].
  intros a. rewrite HX, HW, length_app.
  destruct (WeightsAt s); cbn; intros [Ha|Ha]; simplify_eq/=; lia.
Qed.

(** X9. The copy of a sample whose slices are arrays of the store has the
    values, the weights (nil when the weights of the sample are nil) and the
    flag of the sample.  Its slices are new arrays, added at the end of the
    store, which is otherwise unchanged; the values and the weights of the
    copy are in two arrays. *)
Theorem Copy_shares_nothing (σ : store) (s : SampleAt) :
  valid σ s ->
  exists (τ : store) (c : SampleAt),
    Copy s σ = (σ ++ τ, Ok c) /\
    load (σ ++ τ) c = load σ s /\
    valid (σ ++ τ) c /\
    (forall a, XsAt c = Some a \/ WeightsAt c = Some a -> (length σ <= a)%nat) /\
    XsAt c <> WeightsAt c /\
    (WeightsAt c = None <-> WeightsAt s = None).
Proof.
  intros Hv. destruct (Copy_load s σ Hv) as (τ & c & HC & Hload & HX & HW & _ & Hτ).
  exists τ, c. split; [done|]. split; [done|].
  rewrite HX, HW. split; [|split; [|split]].
  - intros a. rewrite length_app.
    destruct (WeightsAt s); cbn; intros [Ha|Ha]; simplify_eq/=; lia.
  - intros a. destruct (WeightsAt s); cbn; intros [Ha|Ha]; simplify_eq/=; lia.
  - destruct (WeightsAt s); cbn; [|done]. intros [=]. lia.
  - by destruct (WeightsAt s).
Qed.

Lemma Copy_shares_nothing_witness :
  let σ := [[float64_of_int 2; float64_of_int 1]; [f1; f1]] in
  let s := {| XsAt := Some 0%nat; WeightsAt := Some 1%nat; SortedAt := false |} in
  exists (τ : store) (c : SampleAt),
    Copy s σ = (σ ++ τ, Ok c) /\ load (σ ++ τ) c = load σ s /\ XsAt c <> WeightsAt c.
Proof.
  intros σ s.
  assert (Hv : valid σ s).
  { intros a [H|H]; injection H as <-; cbn; lia. }
  destruct (Copy_shares_nothing σ s Hv) as (τ & c & HC & Hl & _ & _ & Hne & _).
  exists τ, c. split; [exact HC|]. split; [exact Hl | exact Hne].
Defined.

(** X10. Sorting the copy of a sample leaves the sample as it was: after
    [s.Copy().Sort()], whatever [sort.Sort] does and whether or not it
    panics, every array that the store had holds what it held, and so do
    the slices of [s]. *)
Theorem Copy_Sort_keeps_original `{SortPkg} (σ : store) (s : SampleAt) :
  valid σ s ->
  let σ' := ((c ← Copy s; Sort c) σ).1 in
  (forall a, (a < length σ)%nat -> σ' !! a = σ !! a) /\ load σ' s = load σ s.
Proof.
  intros Hv σ'.
  assert (Hframe : forall a, (a < length σ)%nat -> σ' !! a = σ !! a).
  { intros a Ha. unfold σ'. unfold mbind at 1, M_bind at 1.
    destruct (Copy_load s σ Hv) as (τ & c & -> & _ & HX & HW & _).
    destruct (Sort_frame c (σ ++ τ)) as (_ & Hf & _).
    rewrite Hf.
    - by apply lookup_app_l.
    - rewrite HX. intros [=]. lia.
    - rewrite HW. destruct (WeightsAt s); cbn; [|done]. intros [=]. lia. }
  split; [done|]. by apply load_unchanged.
Qed.

Lemma Copy_Sort_keeps_original_witness :
  let σ := [[float64_of_int 2; float64_of_int 1]] in
  let s := {| XsAt := Some 0%nat; WeightsAt := None; SortedAt := false |} in
  load ((c ← Copy s; Sort c) σ).1 s = load σ s.
Proof.
  intros σ s.
  assert (Hv : valid σ s).
  { intros a [H|H]; [injection H as <-; cbn; lia | discriminate]. }
  exact (proj2 (Copy_Sort_keeps_original σ s Hv)).
Defined.

(** ** IQR of a sample without values *)

(** X11. The IQR of a sample without values is NaN, flagged as sorted or
    not, with weights or without: both percentiles are NaN. *)
Theorem IQR_without_values `{SortPkg} (σ : store) (s : SampleAt) :
  valid σ s -> Xs (load σ s) = [] -> (IQR s σ).2 = Ok math_NaN.
Proof.
  intros Hv Hx. unfold IQR.
  assert (Hsc : exists σ1 c, sorted_copy s σ = (σ1, Ok c) /\ Xs (load σ1 c) = []).
  { unfold sorted_copy. destruct (SortedAt s); cbn [negb]; [by eexists _, _|].
    unfold mbind at 1, M_bind at 1.
    destruct (Copy_load s σ Hv) as (τ & c & -> & Hload & _).
    eexists _, _. split.
    - apply Sort_nothing_to_do.
      replace (contents (σ ++ τ) (XsAt c)) with (Xs (load (σ ++ τ) c)) by done.
      rewrite Hload, Hx. apply orb_true_r.
    - cbn [load Xs XsAt].
      replace (contents (σ ++ τ) (XsAt c)) with (Xs (load (σ ++ τ) c)) by done.
      by rewrite Hload. }
  destruct Hsc as (σ1 & c & Hsc & Hc).
  unfold mbind at 1, M_bind at 1. rewrite Hsc.
  unfold mbind at 1, M_bind at 1. rewrite Percentile_empty by done.
  unfold mbind at 1, M_bind at 1. rewrite Percentile_empty by done.
  done.
Qed.

Lemma IQR_without_values_witness :
  (IQR {| XsAt := Some 0%nat; WeightsAt := Some 1%nat; SortedAt := false |}
     [[]; [f1]]).2 = Ok math_NaN.
Proof.
  apply (IQR_without_values [[]; [f1]]
           {| XsAt := Some 0%nat; WeightsAt := Some 1%nat; SortedAt := false |}).
  - intros a [H|H]; injection H as <-; cbn; lia.
  - reflexivity.
Defined.

(** ** Sort with NaN among the values *)

Lemma flt_not_nan x y : (x <. y) = true -> math_IsNaN x = false /\ math_IsNaN y = false.
Proof. by destruct x, y. Qed.

Lemma Float64Slice_Less_true x y :
  Float64Slice_Less x y = true <->
  math_IsNaN y = false /\ (math_IsNaN x = true \/ (x <. y) = true).
Proof.
  unfold Float64Slice_Less. destruct (x <. y) eqn:Hlt.
  - apply flt_not_nan in Hlt as [_ ->]. cbn. split; auto.
  - cbn [orb]. destruct (math_IsNaN x), (math_IsNaN y); cbn; intuition congruence.
Qed.

Lemma Float64Slice_Less_ordering_all xs : transitive_ordering Float64Slice_Less xs.
Proof.
  split; [|split].
  - intros x _. apply not_true_is_false. rewrite Float64Slice_Less_true.
    rewrite flt_irrefl. intros [Hx [?|?]]; congruence.
  - intros x y z _ _ _. rewrite !Float64Slice_Less_true.
    intros [Hy Hxy] [Hz Hyz]. split; [done|].
    destruct Hxy as [?|Hxy]; [by left|]. destruct Hyz as [?|Hyz]; [congruence|].
    right. destruct (flt_not_nan _ _ Hxy). by apply (flt_trans x y z).
  - intros x y z _ _ _ Hxy Hyz. apply not_true_is_false.
    rewrite Float64Slice_Less_true. intros [Hz Hxz].
    destruct (math_IsNaN y) eqn:Hy.
    + assert (Float64Slice_Less y z = true); [|congruence].
      apply Float64Slice_Less_true. auto.
    + destruct Hxz as [Hx|Hxz].
      * assert (Float64Slice_Less x y = true); [|congruence].
        apply Float64Slice_Less_true. auto.
      * destruct (flt_not_nan _ _ Hxz) as [Hx _].
        rewrite Float64Slice_Less_flt in Hxy, Hyz by done.
        by rewrite (flt_neg_trans x y z) in Hxz.
Qed.

Lemma is_sorted_nans_then_ascending xs :
  is_sorted Float64Slice_Less xs = true -> nans_then_ascending xs.
Proof.
  induction xs as [|a xs IH]; intros Hs.
  { exists 0%nat, []. split; [done|]. split; [constructor|done]. }
  assert (Hs' : is_sorted Float64Slice_Less xs = true).
  { destruct xs; [done|]. cbn [is_sorted] in Hs. by apply andb_prop in Hs as [_ ?]. }
  destruct (IH Hs') as (k & zs & -> & Hfree & Hasc).
  destruct (math_IsNaN a) eqn:Ha.
  { apply IsNaN_true in Ha as ->. by exists (S k), zs. }
  destruct k as [|k].
  - exists 0%nat, (a :: zs). cbn [replicate app] in *. split; [done|].
    split; [by constructor|]. destruct zs as [|b zs]; [done|].
    cbn [is_sorted ascending] in *. apply andb_prop in Hs as [Hba _].
    inversion Hfree as [|?? Hb _]; subst.
    rewrite Float64Slice_Less_flt in Hba by done. apply negb_true_iff in Hba.
    by rewrite (not_flt_fle a b), Hasc.
  - cbn [replicate app is_sorted] in Hs. apply andb_prop in Hs as [Hba _].
    apply negb_true_iff in Hba.
    assert (Float64Slice_Less math_NaN a = true); [|congruence].
    apply Float64Slice_Less_true. auto.
Qed.

Lemma Sort_unweighted_result {S : SortPkg} {HS : SortContract S}
    (σ : store) (s : SampleAt) :
  valid σ s -> WeightsAt s = None ->
  exists σ' : store,
    Sort s σ = (σ', Ok {| XsAt := XsAt s; WeightsAt := None; SortedAt := true |}) /\
    contents σ' (XsAt s) ≡ₚ contents σ (XsAt s) /\
    (SortedAt s = false -> is_sorted Float64Slice_Less (contents σ' (XsAt s)) = true).
Proof.
  intros Hv Hw.
  destruct (SortedAt s || is_sorted Float64Slice_Less (contents σ (XsAt s))) eqn:Hsorted.
  - exists σ. split; [|split; [done|]].
    + rewrite <- Hw. by apply Sort_nothing_to_do.
    + intros Hs. by rewrite Hs in Hsorted.
  - apply orb_false_elim in Hsorted as [Hs Hns].
    destruct (XsAt s) as [a|] eqn:Ha; [|discriminate].
    assert (Hal : (a < length σ)%nat) by (apply Hv; by left).
    set (xs := contents σ (Some a)) in *.
    exists (write (Some a) (run_list Float64Slice_Less (sort_plan (length xs)) xs) σ).
    split; [by apply Sort_unweighted|].
    rewrite contents_write_eq by done. split; [apply run_list_Permutation|].
    intros _. apply sort_plan_sorts, Float64Slice_Less_ordering_all.
Qed.

(** X12. Take a sample without weights, not flagged as sorted, whose values
    are an array of the store and may contain NaN.  Sort does not panic;
    afterwards the values are those of before in the order of
    [sort.Float64Slice], the NaNs first and then the others ascending.  This
    holds for every [sort.Sort] that keeps Go's contract. *)
Theorem Sort_unweighted_NaNs_first {S : SortPkg} {HS : SortContract S}
    (σ : store) (s : SampleAt) :
  valid σ s -> WeightsAt s = None -> SortedAt s = false ->
  exists σ' : store,
    Sort s σ = (σ', Ok {| XsAt := XsAt s; WeightsAt := None; SortedAt := true |}) /\
    contents σ' (XsAt s) ≡ₚ contents σ (XsAt s) /\
    nans_then_ascending (contents σ' (XsAt s)).
Proof.
  intros Hv Hw Hs.
  destruct (Sort_unweighted_result σ s Hv Hw) as (σ' & HS' & Hperm & Hsorted).
  exists σ'. split; [done|]. split; [done|].
  apply is_sorted_nans_then_ascending. by apply Hsorted.
Qed.

Lemma Sort_unweighted_NaNs_first_witness :
  let σ := [[float64_of_int 2; math_NaN; float64_of_int 1]] in
  let s := {| XsAt := Some 0%nat; WeightsAt := None; SortedAt := false |} in
  exists σ' : store,
    Sort s σ = (σ', Ok {| XsAt := Some 0%nat; WeightsAt := None; SortedAt := true |}) /\
    nans_then_ascending (contents σ' (Some 0%nat)).
Proof.
  intros σ s.
  assert (Hv : valid σ s).
  { intros a [H|H]; [injection H as <-; cbn; lia | discriminate]. }
  destruct (Sort_unweighted_NaNs_first σ s Hv eq_refl eq_refl) as (σ' & HS & _ & Hn).
  exists σ'. split; [exact HS | exact Hn].
Defined.

Lemma Sort_weighted_result {S : SortPkg} {HS : SortContract S}
    (σ : store) (s : SampleAt) (a b : nat) :
  XsAt s = Some a -> WeightsAt s = Some b -> a <> b ->
  (a < length σ)%nat -> (b < length σ)%nat ->
  length (contents σ (Some a)) = length (contents σ (Some b)) ->
  exists (σ' : store) (ps : list (float64 * float64)),
    Sort s σ = (σ', Ok {| XsAt := Some a; WeightsAt := Some b; SortedAt := true |}) /\
    contents σ' (Some a) = ps.*1 /\ contents σ' (Some b) = ps.*2 /\
    ps ≡ₚ zip (contents σ (Some a)) (contents σ (Some b)).
Proof.
  intros Ha Hb Hab Hal Hbl Hlen.
  destruct (SortedAt s || is_sorted Float64Slice_Less (contents σ (XsAt s))) eqn:Hsorted.
  - exists σ, (zip (contents σ (Some a)) (contents σ (Some b))).
    split; [rewrite <- Ha, <- Hb; by apply Sort_nothing_to_do|].
    rewrite fst_zip, snd_zip by lia. done.
  - apply orb_false_elim in Hsorted as [Hs Hns]. rewrite Ha in Hns.
    set (xs := contents σ (Some a)) in *. set (ws := contents σ (Some b)) in *.
    set (ps := run_list pair_less (sort_plan (length xs)) (zip xs ws)).
    exists (write (Some b) ps.*2 (write (Some a) ps.*1 σ)), ps.
    split; [by apply Sort_weighted|].
    rewrite contents_write_ne by congruence.
    rewrite !contents_write_eq by (by rewrite ?length_write).
    split; [done|]. split; [done|]. apply run_list_Permutation.
Qed.

(** X13. Take a weighted sample whose values and weights are two arrays of
    the store, of one length; the values may contain NaN and the flag may be
    wrong.  Sort does not panic, and the value/weight pairs afterwards are
    those of before, in some order: whatever the order that Sort reaches,
    every weight stays with its value.  This holds for every [sort.Sort]
    that keeps Go's contract. *)
Theorem Sort_weighted_keeps_pairs {S : SortPkg} {HS : SortContract S}
    (σ : store) (s : SampleAt) (a b : nat) :
  XsAt s = Some a -> WeightsAt s = Some b -> a <> b ->
  (a < length σ)%nat -> (b < length σ)%nat ->
  length (contents σ (Some a)) = length (contents σ (Some b)) ->
  exists σ' : store,
    Sort s σ = (σ', Ok {| XsAt := Some a; WeightsAt := Some b; SortedAt := true |}) /\
    zip (contents σ' (Some a)) (contents σ' (Some b))
    ≡ₚ zip (contents σ (Some a)) (contents σ (Some b)).
Proof.
  intros Ha Hb Hab Hal Hbl Hlen.
  destruct (Sort_weighted_result σ s a b Ha Hb Hab Hal Hbl Hlen)
    as (σ' & ps & HS' & HX & HW & Hperm).
  exists σ'. split; [done|]. by rewrite HX, HW, zip_fst_snd.
Qed.

Lemma Sort_weighted_keeps_pairs_witness :
  let σ := [[float64_of_int 2; math_NaN; float64_of_int 1];
            [float64_of_int 5; float64_of_int 6; float64_of_int 7]] in
  let s := {| XsAt := Some 0%nat; WeightsAt := Some 1%nat; SortedAt := false |} in
  exists σ' : store,
    Sort s σ = (σ', Ok {| XsAt := Some 0%nat; WeightsAt := Some 1%nat; SortedAt := true |}) /\
    zip (contents σ' (Some 0%nat)) (contents σ' (Some 1%nat))
    ≡ₚ zip (contents σ (Some 0%nat)) (contents σ (Some 1%nat)).
Proof.
  intros σ s.
  apply (Sort_weighted_keeps_pairs σ s 0 1); [reflexivity|reflexivity|lia|cbn; lia..|reflexivity].
Defined.

(** ** What Sort does to the arrays, whatever [sort.Sort] does *)

Lemma index_ge {A} (l : list A) i :
  (length l <= i)%nat -> index l i = Panic "index out of range".
Proof. intros Hi. unfold index. by rewrite (proj2 (lookup_ge_None l i) Hi). Qed.

Lemma contents_nonempty (σ : store) a :
  contents σ (Some a) <> [] -> σ !! a = Some (contents σ (Some a)).
Proof. cbn. by destruct (σ !! a). Qed.

Lemma slice_swap_out_of_range sl i j (σ : store) :
  (length (contents σ sl) <= i)%nat \/ (length (contents σ sl) <= j)%nat ->
  slice_swap sl i j σ = (σ, Panic "index out of range").
Proof.
  intros Hij. unfold slice_swap. unfold_M.
  destruct (decide (length (contents σ sl) <= j)%nat) as [Hj|Hj].
  { by rewrite (index_ge _ j Hj). }
  destruct (lookup_lt_is_Some_2 (contents σ sl) j ltac:(lia)) as [xj Hxj].
  rewrite (index_lookup _ _ _ Hxj). rewrite index_ge by lia. done.
Qed.

Lemma slice_swap_cases sl i j (σ : store) :
  slice_swap sl i j σ = (σ, Panic "index out of range") \/
  exists a, sl = Some a /\ σ !! a = Some (contents σ sl) /\
    slice_swap sl i j σ = (<[a := swap_at (contents σ sl) i j]> σ, Ok ()).
Proof.
  destruct (decide (i < length (contents σ sl) /\ j < length (contents σ sl))%nat)
    as [[Hi Hj]|Hij].
  - right. destruct sl as [a|]; [|cbn in Hi; lia]. exists a.
    assert (Ha : σ !! a = Some (contents σ (Some a))).
    { apply contents_nonempty. intros Hnil. rewrite Hnil in Hi. cbn in Hi. lia. }
    split; [done|]. split; [done|].
    apply slice_swap_spec; [|done..]. by apply lookup_lt_Some in Ha.
  - left. apply slice_swap_out_of_range. lia.
Qed.

Lemma keeps_elements_ret {A} (a : A) : keeps_elements (mret a).
Proof. by intros σ. Qed.

Lemma keeps_elements_bind {A B} (m : M A) (f : A -> M B) :
  keeps_elements m -> (forall a, keeps_elements (f a)) -> keeps_elements (m ≫= f).
Proof.
  intros Hm Hf σ. unfold mbind, M_bind. specialize (Hm σ).
  destruct (m σ) as [σ1 [a|msg]]; cbn [fst] in *; [|done].
  by etrans; [apply Hf|].
Qed.

Lemma keeps_elements_read {A} (f : store -> result A) :
  keeps_elements (fun σ => (σ, f σ)).
Proof. by intros σ. Qed.

Lemma keeps_elements_slice_swap sl i j : keeps_elements (slice_swap sl i j).
Proof.
  intros σ. destruct (slice_swap_cases sl i j σ) as [->|(a & -> & Ha & ->)]; [done|].
  cbn [fst].
  pose proof (Forall2_insert (≡ₚ) σ σ (swap_at (contents σ (Some a)) i j)
                (contents σ (Some a)) a) as HF.
  rewrite (list_insert_id σ a _ Ha) in HF.
  apply HF; [done|apply swap_at_Permutation].
Qed.

Lemma keeps_elements_run data p :
  (forall i j, keeps_elements (Less data i j)) ->
  (forall i j, keeps_elements (Swap data i j)) ->
  keeps_elements (run data p).
Proof.
  intros HL HS. induction p as [|i j k IH|i j k IH]; cbn [run].
  - apply keeps_elements_ret.
  - apply keeps_elements_bind; [apply HL|]. intros b. apply IH.
  - apply keeps_elements_bind; [apply HS|]. intros _. apply IH.
Qed.

Lemma keeps_elements_IsSorted_loop data i :
  (forall i j, keeps_elements (Less data i j)) -> keeps_elements (IsSorted_loop data i).
Proof.
  intros HL. induction i as [|i IH]; cbn [IsSorted_loop].
  - apply keeps_elements_ret.
  - apply keeps_elements_bind; [apply HL|]. intros [|]; [apply keeps_elements_ret|apply IH].
Qed.

Lemma keeps_elements_Float64Slice_Less sl i j : keeps_elements (Less (Float64Slice sl) i j).
Proof.
  cbn [Less Float64Slice].
  apply keeps_elements_bind; [apply keeps_elements_read|]. intros xi.
  apply keeps_elements_bind; [apply keeps_elements_read|]. intros xj.
  apply keeps_elements_ret.
Qed.

Lemma keeps_elements_sampleSorter_Less p i j : keeps_elements (sampleSorter.Less p i j).
Proof.
  unfold sampleSorter.Less.
  apply keeps_elements_bind; [apply keeps_elements_read|]. intros xi.
  apply keeps_elements_bind; [apply keeps_elements_read|]. intros xj.
  apply keeps_elements_ret.
Qed.

Lemma keeps_elements_Sort `{SortPkg} (s : SampleAt) : keeps_elements (Sort s).
Proof.
  unfold Sort. apply keeps_elements_bind; [|intros sorted; apply keeps_elements_bind].
  - destruct (SortedAt s); [apply keeps_elements_ret|].
    unfold sort_Float64sAreSorted, sort_IsSorted.
    apply keeps_elements_bind; [apply keeps_elements_read|]. intros n.
    apply keeps_elements_IsSorted_loop. intros i j. apply keeps_elements_Float64Slice_Less.
  - destruct sorted; [apply keeps_elements_ret|]. case_bool_decide.
    + unfold sort_Float64s, sort_Sort.
      apply keeps_elements_bind; [apply keeps_elements_read|]. intros n.
      apply keeps_elements_run.
      * intros i j. apply keeps_elements_Float64Slice_Less.
      * intros i j. apply keeps_elements_slice_swap.
    + unfold sort_Sort.
      apply keeps_elements_bind; [apply keeps_elements_read|]. intros n.
      apply keeps_elements_run.
      * intros i j. apply keeps_elements_sampleSorter_Less.
      * intros i j. cbn [Swap sampleSorter_Interface]. unfold sampleSorter.Swap.
        apply keeps_elements_bind; [|intros _]; apply keeps_elements_slice_swap.
  - intros _. apply keeps_elements_ret.
Qed.

(** X14. Whatever [sort.Sort] does with [Less] and [Swap], whatever the
    sample (values with NaN, weights of another length or in the array of
    the values, slices that are not in the store) and whether or not Sort
    panics on the way: Sort allocates nothing, every array of the store
    holds afterwards the elements it held, in some order, and an array that
    is neither the values nor the weights of the receiver is unchanged. *)
Theorem Sort_keeps_elements `{SortPkg} (σ : store) (s : SampleAt) :
  Forall2 (≡ₚ) (Sort s σ).1 σ /\
  forall a, XsAt s <> Some a -> WeightsAt s <> Some a -> (Sort s σ).1 !! a = σ !! a.
Proof.
  split; [apply keeps_elements_Sort|]. by destruct (Sort_frame s σ) as (_ & ? & _).
Qed.

Lemma Sort_keeps_elements_witness :
  let σ := [[float64_of_int 2; float64_of_int 1]; [float64_of_int 5]] in
  let s := {| XsAt := Some 0%nat; WeightsAt := Some 1%nat; SortedAt := false |} in
  Forall2 (≡ₚ) (Sort s σ).1 σ /\ (Sort s σ).2 = Panic "index out of range".
Proof.
  intros σ s. split; [exact (proj1 (Sort_keeps_elements σ s))|reflexivity].
Defined.

(** ** sampleSorter *)

Lemma swap_at_out_of_range {A} (l : list A) i j :
  (length l <= i)%nat \/ (length l <= j)%nat -> swap_at l i j = l.
Proof.
  intros Hij. unfold swap_at.
  destruct (l !! i) eqn:Hi, (l !! j) eqn:Hj; try done.
  apply lookup_lt_Some in Hi, Hj. lia.
Qed.

Lemma swap_at_lookup {A} (l : list A) i j k :
  (i < length l)%nat -> (j < length l)%nat ->
  swap_at l i j !! k = if decide (k = i) then l !! j else if decide (k = j) then l !! i else l !! k.
Proof.
  intros Hi Hj. unfold swap_at.
  destruct (lookup_lt_is_Some_2 l i Hi) as [a Ha].
  destruct (lookup_lt_is_Some_2 l j Hj) as [b Hb].
  rewrite Ha, Hb.
  destruct (decide (k = j)) as [->|Hkj].
  - rewrite list_lookup_insert_eq by (by rewrite length_insert).
    destruct (decide (j = i)) as [->|]; [congruence|done].
  - rewrite list_lookup_insert_ne by done.
    destruct (decide (k = i)) as [->|Hki].
    + by rewrite list_lookup_insert_eq.
    + by rewrite list_lookup_insert_ne.
Qed.

Lemma swap_at_involutive {A} (l : list A) i j : swap_at (swap_at l i j) i j = l.
Proof.
  destruct (decide (i < length l /\ j < length l)%nat) as [[Hi Hj]|Hij].
  - apply list_eq. intros k.
    rewrite !swap_at_lookup by (by rewrite ?length_swap_at).
    repeat case_decide; subst; try done.
  - rewrite (swap_at_out_of_range l i j) by lia. apply swap_at_out_of_range. lia.
Qed.

(** X15. On values and weights in two arrays of one length [n],
    [sampleSorter.Swap(i, j)] with [i, j < n] exchanges the value/weight
    pairs at the positions [i] and [j], leaves the other pairs and the other
    arrays as they are, and a second [Swap(i, j)] brings the store back;
    with [i] or [j] beyond [n] it panics before it has written anything. *)
Theorem sampleSorter_Swap_pairs (σ : store) (a b i j : nat) :
  let p := {| sampleSorter.xs := Some a; sampleSorter.weights := Some b |} in
  let xs := contents σ (Some a) in
  let ws := contents σ (Some b) in
  a <> b -> (a < length σ)%nat -> (b < length σ)%nat -> length xs = length ws ->
  ((i < length xs)%nat /\ (j < length xs)%nat ->
   exists σ' : store,
     sampleSorter.Swap p i j σ = (σ', Ok ()) /\
     zip (contents σ' (Some a)) (contents σ' (Some b)) = swap_at (zip xs ws) i j /\
     (forall c, c <> a -> c <> b -> σ' !! c = σ !! c) /\
     sampleSorter.Swap p i j σ' = (σ, Ok ())) /\
  (~ ((i < length xs)%nat /\ (j < length xs)%nat) ->
   sampleSorter.Swap p i j σ = (σ, Panic "index out of range")).
Proof.
  intros p xs ws Hab Ha Hb Hlen. split.
  - intros [Hi Hj].
    assert (HS : forall τ : store,
      (a < length τ)%nat -> (b < length τ)%nat ->
      (i < length (contents τ (Some a)))%nat -> (j < length (contents τ (Some a)))%nat ->
      length (contents τ (Some a)) = length (contents τ (Some b)) ->
      sampleSorter.Swap p i j τ
      = (write (Some b) (swap_at (contents τ (Some b)) i j)
           (write (Some a) (swap_at (contents τ (Some a)) i j) τ), Ok ())).
    { intros τ Haτ Hbτ Hiτ Hjτ Hlenτ. unfold sampleSorter.Swap, p.
      cbn [sampleSorter.xs sampleSorter.weights].
      unfold mbind at 1, M_bind at 1. rewrite slice_swap_spec by done.
      rewrite slice_swap_spec; rewrite ?length_write, ?contents_write_ne by congruence;
        [done|done|lia|lia]. }
    set (σ' := write (Some b) (swap_at ws i j) (write (Some a) (swap_at xs i j) σ)).
    assert (HX : contents σ' (Some a) = swap_at xs i j).
    { unfold σ'. rewrite contents_write_ne by congruence. by apply contents_write_eq. }
    assert (HW : contents σ' (Some b) = swap_at ws i j).
    { unfold σ'. apply contents_write_eq. by rewrite length_write. }
    exists σ'. split; [by apply HS|]. split; [|split].
    + rewrite HX, HW. symmetry. by apply swap_at_zip.
    + intros c Hca Hcb. unfold σ'. rewrite !lookup_write_ne by congruence. done.
    + rewrite HS; rewrite ?HX, ?HW, ?length_swap_at; unfold σ'; rewrite ?length_write;
        [|done..].
      f_equal. rewrite !swap_at_involutive. cbn [write].
      rewrite (list_insert_insert_ne _ a b) by done.
      rewrite list_insert_insert_eq, (list_insert_insert_eq _ a).
      rewrite (list_insert_id _ b ws), (list_insert_id _ a xs); [done| |].
      * unfold xs. apply contents_nonempty. intros Hnil. fold xs in Hnil.
        rewrite Hnil in Hi. cbn in Hi. lia.
      * rewrite list_lookup_insert_ne by done.
        unfold ws. apply contents_nonempty. intros Hnil. fold ws in Hnil.
        rewrite Hnil in Hlen. rewrite Hlen in Hi. cbn in Hi. lia.
  - intros Hij. unfold sampleSorter.Swap, p. cbn [sampleSorter.xs sampleSorter.weights].
    unfold mbind at 1, M_bind at 1. rewrite slice_swap_out_of_range; [done|].
    fold xs. lia.
Qed.

Lemma sampleSorter_Swap_pairs_witness :
  let σ := [[float64_of_int 2; float64_of_int 1]; [float64_of_int 5; float64_of_int 6]] in
  let p := {| sampleSorter.xs := Some 0%nat; sampleSorter.weights := Some 1%nat |} in
  (exists σ' : store,
     sampleSorter.Swap p 1 0 σ = (σ', Ok ()) /\ sampleSorter.Swap p 1 0 σ' = (σ, Ok ())) /\
  sampleSorter.Swap p 2 0 σ = (σ, Panic "index out of range").
Proof.
  intros σ p.
  destruct (sampleSorter_Swap_pairs σ 0 1 1 0) as [H1 _]; [lia|cbn; lia..|reflexivity|].
  destruct (sampleSorter_Swap_pairs σ 0 1 2 0) as [_ H2]; [lia|cbn; lia..|reflexivity|].
  split.
  - destruct H1 as (σ' & HS & _ & _ & HS'); [cbn; lia|].
    exists σ'. split; [exact HS | exact HS'].
  - apply H2. cbn. lia.
Defined.

(** ** Percentile of a weighted sample, between the ends *)

Lemma Percentile_scan_value xs i ws target :
  xs <> [] -> (i + length ws = length xs)%nat ->
  exists x, Percentile_scan xs i ws target = Ok x /\ x ∈ xs.
Proof.
  intros Hne. revert i target. induction ws as [|w ws IH]; intros i target Hlen;
    cbn [Percentile_scan length] in *.
  - destruct (lookup_lt_is_Some_2 xs (length xs - 1)) as [x Hx].
    { destruct xs; [done|cbn; lia]. }
    exists x. split; [by apply index_lookup|by apply list_elem_of_lookup_2 in Hx].
  - destruct (target ⊖ w <. f0).
    + destruct (lookup_lt_is_Some_2 xs i ltac:(lia)) as [x Hx].
      exists x. split; [by apply index_lookup|by apply list_elem_of_lookup_2 in Hx].
    + apply IH. lia.
Qed.

Lemma sorted_copy_weighted {SP : SortPkg} {HS : SortContract SP}
    (σ : store) (s : SampleAt) (ws : list float64) :
  valid σ s -> Weights (load σ s) = Some ws -> length ws = length (Xs (load σ s)) ->
  exists (σ1 : store) (c : SampleAt) (ws' : list float64),
    sorted_copy s σ = (σ1, Ok c) /\
    Xs (load σ1 c) ≡ₚ Xs (load σ s) /\
    Weights (load σ1 c) = Some ws' /\ length ws' = length (Xs (load σ1 c)).
Proof.
  intros Hv Hw Hlen. unfold sorted_copy. destruct (SortedAt s) eqn:Hs; cbn [negb].
  { by exists σ, s, ws. }
  unfold mbind at 1, M_bind at 1.
  destruct (Copy_load s σ Hv) as (τ & c & -> & Hload & HX & HW & _ & Hτ).
  destruct (WeightsAt s) as [b|] eqn:Hb; [|unfold load in Hw; by rewrite Hb in Hw].
  cbn [fmap option_fmap option_map] in HW.
  assert (Hcx : contents (σ ++ τ) (Some (length σ)) = Xs (load σ s)).
  { rewrite <- Hload. unfold load. cbn [Xs]. by rewrite HX. }
  assert (Hcw : contents (σ ++ τ) (Some (S (length σ))) = ws).
  { assert (H : Weights (load (σ ++ τ) c) = Some ws) by (by rewrite Hload).
    unfold load in H. cbn [Weights] in H. rewrite HW in H. by injection H. }
  destruct (Sort_weighted_result (σ ++ τ) c (length σ) (S (length σ)))
    as (σ1 & ps & HS' & HX1 & HW1 & Hperm);
    [done|done|lia|rewrite length_app; lia..|by rewrite Hcx, Hcw|].
  rewrite HS'. eexists σ1, _, ps.*2. split; [done|].
  unfold load. cbn [Xs Weights XsAt WeightsAt fmap option_fmap option_map].
  rewrite HX1, HW1. split; [|split; [done|by rewrite !length_fmap]].
  rewrite Hperm, Hcx, Hcw. rewrite fst_zip; [done|lia].
Qed.

(** X16. Take a weighted sample with at least one value and as many weights
    as values, whose slices are arrays of the store, and [p] neither [<= 0]
    nor [>= 1] (a NaN is so).  Percentile(p) does not panic, and what it
    returns is one of the values of the sample: the scan over the weights
    ends on a position of the values, or falls back to the last value.
    This holds for every [sort.Sort] that keeps Go's contract. *)
Theorem Percentile_weighted_value {SP : SortPkg} {HS : SortContract SP}
    (σ : store) (s : SampleAt) (ws : list float64) (p : float64) :
  valid σ s ->
  Weights (load σ s) = Some ws -> length ws = length (Xs (load σ s)) ->
  Xs (load σ s) <> [] ->
  (p <=. f0) = false -> (p >=. f1) = false ->
  exists x, (Percentile s p σ).2 = Ok x /\ x ∈ Xs (load σ s).
Proof.
  intros Hv Hw Hlen Hne Hp0 Hp1.
  destruct (sorted_copy_weighted σ s ws Hv Hw Hlen) as (σ1 & c & ws' & Hsc & Hperm & Hw' & Hlen').
  assert (Hne' : Xs (load σ1 c) <> []).
  { intros Hnil. rewrite Hnil in Hperm. by apply Permutation_nil_l in Hperm. }
  destruct (Percentile_scan_value (Xs (load σ1 c)) 0 ws'
              (Sample_Weight (load σ1 c) ⊗ p) Hne' ltac:(lia)) as (x & Hx & Hin).
  exists x. split; [|by rewrite <- Hperm].
  unfold Percentile. unfold mbind at 1, M_bind at 1. unfold get_load at 1.
  destruct (Xs (load σ s)) as [|x0 xs0] eqn:Hxs; [done|].
  cbn [length Nat.eqb]. rewrite Hp0, Hp1.
  unfold mbind at 1, M_bind at 1. rewrite Hsc.
  unfold mbind at 1, M_bind at 1. unfold get_load at 1.
  unfold weighted, wlist. rewrite Hw'. rewrite bool_decide_eq_true_2 by eauto.
  cbn [negb from_option id]. unfold lift. cbn [snd]. done.
Qed.

Lemma Percentile_weighted_value_witness :
  let σ := [[float64_of_int 3; float64_of_int 1; float64_of_int 2]; [f1; f1; f1]] in
  let s := {| XsAt := Some 0%nat; WeightsAt := Some 1%nat; SortedAt := false |} in
  exists x, (Percentile s f0_25 σ).2 = Ok x /\ x ∈ Xs (load σ s).
Proof.
  intros σ s.
  apply (Percentile_weighted_value σ s [f1; f1; f1] f0_25).
  - intros a [H|H]; injection H as <-; cbn; lia.
  - reflexivity.
  - reflexivity.
  - discriminate.
  - reflexivity.
  - reflexivity.
Defined.

(** ** The index of an unweighted percentile

    For [0 < p < 1] and a count [k] below [2^53], the product
    [p * float64(k)] rounds to at most [k]: [k] is a float64, and rounding
    does not pass a float64. *)

Lemma digits2_pos_lt p : (Z.pos p < 2 ^ Z.pos (digits2_pos p))%Z.
Proof.
  induction p as [p IH|p IH|]; cbn [digits2_pos]; [| |done];
    rewrite Pos2Z.inj_succ, Z.pow_succ_r by lia; lia.
Qed.

Lemma Zdigits2_bound m k :
  (0 <= m)%Z -> (0 <= k)%Z -> (m < 2 ^ k)%Z -> (Zdigits2 m <= k)%Z.
Proof.
  intros Hm Hk Hlt. destruct m as [|p|p]; [done| |lia]. cbn [Zdigits2].
  pose proof (digits2_pos_le p) as Hd.
  assert (H : (2 ^ (Z.pos (digits2_pos p) - 1) < 2 ^ k)%Z) by lia.
  apply Z.pow_lt_mono_r_iff in H; lia.
Qed.

Lemma shr_fexp_noshift m e l :
  (fexp prec emax (Zdigits2 m + e) - e <= 0)%Z ->
  shr_fexp prec emax m e l = (shr_record_of_loc m l, e).
Proof.
  intros H. unfold shr_fexp, shr.
  destruct (fexp prec emax (Zdigits2 m + e) - e)%Z; [done|lia|done].
Qed.

Lemma shr_fexp_shift m e l :
  (0 <= m)%Z -> (0 < fexp prec emax (Zdigits2 m + e) - e)%Z ->
  shr_m (shr_fexp prec emax m e l).1 = (m / 2 ^ (fexp prec emax (Zdigits2 m + e) - e))%Z /\
  (shr_fexp prec emax m e l).2 = fexp prec emax (Zdigits2 m + e).
Proof.
  intros Hm H. unfold shr_fexp, shr.
  destruct (fexp prec emax (Zdigits2 m + e) - e)%Z as [|n|n] eqn:Hn; [lia| |lia].
  cbn [fst snd]. rewrite iter_shr_m by (rewrite shr_record_of_loc_m; lia).
  rewrite shr_record_of_loc_m, Z.shiftr_div_pow2 by lia. split; [done|lia].
Qed.

Lemma round_nearest_even_le m l :
  (m <= round_nearest_even m l <= m + 1)%Z.
Proof. destruct l as [|[]]; cbn; [lia| |lia|lia]. destruct (Z.even m); lia. Qed.

Lemma pow2_pos k : (0 < 2 ^ k)%Z \/ (k < 0)%Z.
Proof. destruct (Z_lt_le_dec k 0); [by right|left]. by apply Z.pow_pos_nonneg. Qed.

(** The first shift and the rounding. *)
Lemma round_step_below m e K :
  (0 < m)%Z -> (e <= 0)%Z -> (0 < K <= 2 ^ 53)%Z -> (m < K * 2 ^ (- e))%Z ->
  let r := shr_fexp prec emax m e loc_Exact in
  let m2 := round_nearest_even (shr_m r.1) (loc_of_shr_record r.1) in
  (0 <= m2)%Z /\ (r.2 <= 0)%Z /\ (m2 <= K * 2 ^ (- r.2))%Z.
Proof.
  intros Hm He HK Hlt r m2.
  assert (Hd : (Zdigits2 m + e <= 53)%Z).
  { assert (Hb : (Zdigits2 m <= 53 - e)%Z); [|lia].
    apply Zdigits2_bound; [lia..|].
    replace (53 - e)%Z with (53 + - e)%Z by lia. rewrite Z.pow_add_r by lia.
    assert (0 < 2 ^ (- e))%Z by (apply Z.pow_pos_nonneg; lia). nia. }
  destruct (Z_le_gt_dec (fexp prec emax (Zdigits2 m + e) - e) 0) as [Hns|Hs].
  - subst m2 r. rewrite shr_fexp_noshift by done. cbn. lia.
  - destruct (shr_fexp_shift m e loc_Exact ltac:(lia) ltac:(lia)) as [Hm' He'].
    fold r in Hm', He'.
    pose proof (round_nearest_even_le (shr_m r.1) (loc_of_shr_record r.1)) as Hr.
    fold m2 in Hr. rewrite Hm' in Hr. rewrite He'.
    set (e1 := fexp prec emax (Zdigits2 m + e)) in *.
    assert (He1 : (e1 <= 0)%Z) by (unfold e1, fexp, emin, prec, emax; lia).
    assert (Hp1 : (0 < 2 ^ (e1 - e))%Z) by (apply Z.pow_pos_nonneg; lia).
    assert (Hp2 : (0 < 2 ^ (- e1))%Z) by (apply Z.pow_pos_nonneg; lia).
    assert (Hsplit : (2 ^ (- e) = 2 ^ (e1 - e) * 2 ^ (- e1))%Z).
    { rewrite <- Z.pow_add_r by lia. f_equal. lia. }
    assert (Hq : (m / 2 ^ (e1 - e) < K * 2 ^ (- e1))%Z).
    { apply Z.div_lt_upper_bound; [done|]. rewrite Hsplit in Hlt. lia. }
    assert (0 <= m / 2 ^ (e1 - e))%Z by (apply Z.div_pos; lia).
    lia.
Qed.

(** The second shift and the conversion to an int. *)
Lemma round_below m e K :
  (0 < m)%Z -> (e <= 0)%Z -> (0 < K <= 2 ^ 53)%Z -> (m < K * 2 ^ (- e))%Z ->
  exists i, int_of_float64 (binary_round_aux prec emax false m e loc_Exact) = Some i /\
            (0 <= i <= K)%Z.
Proof.
  intros Hm He HK Hlt. unfold binary_round_aux.
  destruct (round_step_below m e K Hm He HK Hlt) as (Hm2 & He' & Hle). cbv zeta in *.
  destruct (shr_fexp prec emax m e loc_Exact) as [r e']. cbn [fst snd] in *.
  set (m2 := round_nearest_even (shr_m r) (loc_of_shr_record r)) in *.
  assert (Hp' : (0 < 2 ^ (- e'))%Z) by (apply Z.pow_pos_nonneg; lia).
  assert (Hd2 : (Zdigits2 m2 + e' <= 54)%Z).
  { assert (Hb : (Zdigits2 m2 <= 54 - e')%Z); [|lia].
    apply Zdigits2_bound; [lia..|].
    replace (54 - e')%Z with (1 + (53 + - e'))%Z by lia.
    rewrite Z.pow_add_r, Z.pow_add_r by lia. nia. }
  destruct (Z_le_gt_dec (fexp prec emax (Zdigits2 m2 + e') - e') 0) as [Hns|Hs].
  - rewrite shr_fexp_noshift by done. cbn [shr_record_of_loc shr_m].
    destruct m2 as [|q|q] eqn:Hq; [by exists 0%Z; split; [|lia]| |lia].
    replace (e' <=? emax - prec)%Z with true by (symmetry; apply Z.leb_le; unfold emax, prec; lia).
    unfold int_of_float64.
    destruct (0 <=? e')%Z eqn:H0.
    + apply Z.leb_le in H0. assert (e' = 0)%Z as -> by lia.
      cbn [Z.opp Z.pow Z.pow_pos Pos.iter] in *. rewrite Z.mul_1_r in *.
      exists (Z.pos q). split; [|lia].
      replace ((- 2 ^ 63 <=? Z.pos q) && (Z.pos q <? 2 ^ 63))%Z with true; [done|].
      symmetry. apply andb_true_intro. split; [apply Z.leb_le|apply Z.ltb_lt]; lia.
    + assert (Hi : (0 <= Z.pos q / 2 ^ (- e') <= K)%Z).
      { split; [apply Z.div_pos; lia|]. apply Z.div_le_upper_bound; lia. }
      exists (Z.pos q / 2 ^ (- e'))%Z. split; [|done].
      replace ((- 2 ^ 63 <=? _) && (_ <? 2 ^ 63))%Z with true; [done|].
      symmetry. apply andb_true_intro. split; [apply Z.leb_le|apply Z.ltb_lt]; lia.
  - destruct (shr_fexp_shift m2 e' loc_Exact ltac:(lia) ltac:(lia)) as [Hm3 He3].
    destruct (shr_fexp prec emax m2 e' loc_Exact) as [r3 e3]. cbn [fst snd] in *.
    set (s2 := (fexp prec emax (Zdigits2 m2 + e') - e')%Z) in *.
    assert (Hps : (0 < 2 ^ s2)%Z) by (apply Z.pow_pos_nonneg; lia).
    assert (Hm3le : (shr_m r3 * 2 ^ s2 <= m2)%Z).
    { rewrite Hm3, Z.mul_comm. apply Z.mul_div_le. done. }
    assert (Hm3pos : (0 <= shr_m r3)%Z) by (rewrite Hm3; apply Z.div_pos; lia).
    assert (He3' : (e3 = e' + s2)%Z) by (unfold s2; lia).
    assert (He3le : (e3 <= 1)%Z) by (rewrite He3; unfold fexp, emin, prec, emax; lia).
    destruct (shr_m r3) as [|q|q] eqn:Hq; [by exists 0%Z; split; [|lia]| |lia].
    replace (e3 <=? emax - prec)%Z with true by (symmetry; apply Z.leb_le; unfold emax, prec; lia).
    unfold int_of_float64.
    destruct (0 <=? e3)%Z eqn:H0.
    + apply Z.leb_le in H0.
      assert (Hsplit : (2 ^ s2 = 2 ^ e3 * 2 ^ (- e'))%Z).
      { rewrite <- Z.pow_add_r by lia. f_equal. lia. }
      assert (Hp3 : (0 < 2 ^ e3)%Z) by (apply Z.pow_pos_nonneg; lia).
      assert (Hi : (0 <= Z.pos q * 2 ^ e3 <= K)%Z).
      { split; [lia|]. rewrite Hsplit in Hm3le.
        apply (Z.mul_le_mono_pos_r _ _ (2 ^ (- e'))); [done|]. lia. }
      exists (Z.pos q * 2 ^ e3)%Z. split; [|done].
      replace ((- 2 ^ 63 <=? _) && (_ <? 2 ^ 63))%Z with true; [done|].
      symmetry. apply andb_true_intro. split; [apply Z.leb_le|apply Z.ltb_lt]; lia.
    + apply Z.leb_gt in H0.
      assert (Hsplit : (2 ^ (- e') = 2 ^ (- e3) * 2 ^ s2)%Z).
      { rewrite <- Z.pow_add_r by lia. f_equal. lia. }
      assert (Hp3 : (0 < 2 ^ (- e3))%Z) by (apply Z.pow_pos_nonneg; lia).
      assert (Hi : (0 <= Z.pos q / 2 ^ (- e3) <= K)%Z).
      { split; [apply Z.div_pos; lia|]. apply Z.div_le_upper_bound; [done|].
        rewrite Hsplit in Hle.
        apply (Z.mul_le_mono_pos_r _ _ (2 ^ s2)); [done|]. lia. }
      exists (Z.pos q / 2 ^ (- e3))%Z. split; [|done].
      replace ((- 2 ^ 63 <=? _) && (_ <? 2 ^ 63))%Z with true; [done|].
      symmetry. apply andb_true_intro. split; [apply Z.leb_le|apply Z.ltb_lt]; lia.
Qed.

Lemma binary_round_aux_exact s m e :
  (fexp prec emax (Z.pos (digits2_pos m) + e) <= e)%Z -> (e <= emax - prec)%Z ->
  binary_round_aux prec emax s (Z.pos m) e loc_Exact = S754_finite s m e.
Proof.
  intros Hf He. unfold binary_round_aux.
  rewrite shr_fexp_noshift by (cbn [Zdigits2]; lia).
  cbn [shr_record_of_loc shr_m loc_of_shr_record round_nearest_even].
  rewrite shr_fexp_noshift by (cbn [Zdigits2]; lia).
  cbn [shr_record_of_loc shr_m]. by rewrite (proj2 (Z.leb_le _ _) He).
Qed.

Lemma iter_xO_pos m d : Z.pos (Pos.iter xO m d) = (Z.pos m * 2 ^ Z.pos d)%Z.
Proof.
  induction d as [|d IH] using Pos.peano_ind.
  - cbn [Pos.iter]. lia.
  - rewrite Pos.iter_succ, Pos2Z.inj_succ, Z.pow_succ_r by lia.
    rewrite Pos2Z.inj_xO, IH. lia.
Qed.

(** [float64(k)] for [0 < k < 2^53] is [k] itself, with a mantissa of 53
    digits. *)
Lemma float64_of_int_small K :
  (0 < K < 2 ^ 53)%Z ->
  exists mM eM,
    float64_of_int K = S754_finite false mM eM /\ (eM <= 0)%Z /\
    Z.pos mM = (K * 2 ^ (- eM))%Z.
Proof.
  intros HK. destruct K as [|k|k]; [lia| |lia].
  unfold float64_of_int, binary_normalize, binary_round.
  pose proof (digits2_pos_le k) as Hlo. pose proof (digits2_pos_lt k) as Hhi.
  set (d := Z.pos (digits2_pos k)) in *.
  assert (Hd : (1 <= d <= 53)%Z).
  { split; [unfold d; lia|].
    pose proof (Zdigits2_bound (Z.pos k) 53 ltac:(lia) ltac:(lia) ltac:(lia)) as H.
    exact H. }
  assert (Hf : fexp prec emax (d + 0) = (d - 53)%Z) by (unfold fexp, emin, prec, emax; lia).
  rewrite Hf. unfold shl_align.
  destruct (d - 53 - 0)%Z as [|n|n] eqn:Hn; [|lia|].
  - exists k, 0%Z. split; [|split; [lia|cbn; lia]].
    apply binary_round_aux_exact; [|unfold emax, prec; lia].
    fold d. unfold fexp, emin, prec, emax. lia.
  - exists (Pos.iter xO k n), (d - 53)%Z.
    assert (Hpow : (2 ^ d * 2 ^ Z.pos n = 2 ^ 53)%Z).
    { rewrite <- Z.pow_add_r by lia. f_equal. lia. }
    assert (Hm : (Z.pos (Pos.iter xO k n) < 2 ^ 53)%Z).
    { rewrite iter_xO_pos. assert (0 < 2 ^ Z.pos n)%Z by (by apply Z.pow_pos_nonneg). nia. }
    split; [|split; [lia|]].
    + apply binary_round_aux_exact; [|unfold emax, prec; lia].
      pose proof (Zdigits2_bound (Z.pos (Pos.iter xO k n)) 53 ltac:(lia) ltac:(lia) Hm) as Hdm.
      cbn [Zdigits2] in Hdm. unfold fexp, emin, prec, emax. lia.
    + rewrite iter_xO_pos. do 2 f_equal. lia.
Qed.

(** A float64 strictly between 0 and 1. *)
Lemma between_0_1 p :
  valid_binary prec emax p = true -> (f0 <. p) = true -> (p <. f1) = true ->
  exists mp ep, p = S754_finite false mp ep /\ (ep <= 0)%Z /\ (Z.pos mp < 2 ^ (- ep))%Z.
Proof.
  intros Hv H0 H1. destruct p as [[]|[]| |[] mp ep]; try discriminate.
  exists mp, ep. split; [done|].
  unfold valid_binary, bounded, canonical_mantissa in Hv.
  apply andb_prop in Hv as [Hc _]. apply Z.eqb_eq in Hc.
  pose proof (digits2_pos_lt mp) as Hhi.
  assert (Hd : (Z.pos (digits2_pos mp) <= 53)%Z) by (unfold fexp, emin, prec, emax in Hc; lia).
  assert (Hm : (Z.pos mp < 2 ^ 53)%Z).
  { assert (2 ^ Z.pos (digits2_pos mp) <= 2 ^ 53)%Z by (apply Z.pow_le_mono_r; lia). lia. }
  unfold flt, SFltb, f1 in H1. cbn [SFcompare] in H1.
  destruct (Z.compare_spec ep (-52)) as [->|Hlt|Hgt]; [| |done].
  - split; [lia|].
    destruct (PosDef.Pos.compare_cont Eq mp 4503599627370496) eqn:Hcmp;
      [discriminate H1| |discriminate H1].
    clear Hm Hhi H1 Hc Hd.
    assert (Hlt : (Z.pos mp < 4503599627370496)%Z) by exact Hcmp.
    change (2 ^ (- -52))%Z with 4503599627370496%Z. exact Hlt.
  - split; [lia|].
    assert (2 ^ 53 <= 2 ^ (- ep))%Z by (apply Z.pow_le_mono_r; lia). lia.
Qed.

Lemma percentile_index_in_range p n :
  valid_binary prec emax p = true -> (f0 <. p) = true -> (p <. f1) = true ->
  (0 < n <= 2 ^ 53)%Z ->
  exists i, int_of_float64 (p ⊗ float64_of_int (n - 1)) = Some i /\ (0 <= i < n)%Z.
Proof.
  intros Hv H0 H1 Hn.
  destruct (between_0_1 p Hv H0 H1) as (mp & ep & -> & Hep & Hmp).
  destruct (Z.eq_dec n 1) as [->|Hn1].
  { exists 0%Z. split; [done|lia]. }
  destruct (float64_of_int_small (n - 1) ltac:(lia)) as (mM & eM & -> & HeM & HmM).
  unfold fmul, SFmul. cbn [xorb].
  destruct (round_below (Z.pos (mp * mM)) (ep + eM) (n - 1)) as (i & Hi & Hr);
    [lia|lia|lia| |].
  - rewrite Pos2Z.inj_mul, HmM.
    replace (- (ep + eM))%Z with (- eM + - ep)%Z by lia.
    rewrite Z.pow_add_r by lia.
    assert (0 < 2 ^ (- eM))%Z by (apply Z.pow_pos_nonneg; lia). nia.
  - exists i. split; [done|lia].
Qed.

(** ** Percentile of an unweighted sample, between the ends *)

Lemma sorted_copy_unweighted {SP : SortPkg} {HS : SortContract SP}
    (σ : store) (s : SampleAt) :
  valid σ s -> WeightsAt s = None ->
  exists (σ1 : store) (c : SampleAt),
    sorted_copy s σ = (σ1, Ok c) /\
    Xs (load σ1 c) ≡ₚ Xs (load σ s) /\ Weights (load σ1 c) = None.
Proof.
  intros Hv Hw. unfold sorted_copy. destruct (SortedAt s) eqn:Hs; cbn [negb].
  { exists σ, s. split; [done|]. split; [done|]. unfold load. cbn [Weights]. by rewrite Hw. }
  unfold mbind at 1, M_bind at 1.
  destruct (Copy_valid s σ Hv) as (τ & c & -> & Hload & Hvc & HW).
  rewrite Hw in HW. cbn in HW.
  destruct (Sort_unweighted_result (σ ++ τ) c Hvc HW) as (σ1 & HS' & Hperm & _).
  rewrite HS'. eexists σ1, _. split; [done|].
  unfold load at 1 2. cbn [Xs Weights XsAt WeightsAt fmap option_fmap option_map].
  split; [|done]. rewrite Hperm.
  change (Xs (load (σ ++ τ) c) ≡ₚ Xs (load σ s)). by rewrite Hload.
Qed.

(** X17. Take a sample without weights, with at least one value and at most
    [2^53] values, whose values are an array of the store, and a float64 [p]
    with [0 < p < 1].  Percentile(p) does not panic, and what it returns is
    one of the values of the sample: the index [int(p * float64(n - 1))] is a
    position of the values, because the product rounds to at most [n - 1].
    This holds for every [sort.Sort] that keeps Go's contract. *)
Theorem Percentile_unweighted_value {SP : SortPkg} {HS : SortContract SP}
    (σ : store) (s : SampleAt) (p : float64) :
  valid σ s -> WeightsAt s = None ->
  Xs (load σ s) <> [] -> (Z.of_nat (length (Xs (load σ s))) <= 2 ^ 53)%Z ->
  valid_binary prec emax p = true -> (f0 <. p) = true -> (p <. f1) = true ->
  exists x, (Percentile s p σ).2 = Ok x /\ x ∈ Xs (load σ s).
Proof.
  intros Hv Hw Hne Hn Hvp Hp0 Hp1.
  assert (Hle0 : (p <=. f0) = false).
  { apply not_true_is_false. intros [H _]%fle_not_flt. congruence. }
  assert (Hge1 : (p >=. f1) = false).
  { apply not_true_is_false. intros [H _]%fle_not_flt. congruence. }
  destruct (sorted_copy_unweighted σ s Hv Hw) as (σ1 & c & Hsc & Hperm & Hw').
  assert (Hlen : length (Xs (load σ1 c)) = length (Xs (load σ s))) by (by rewrite Hperm).
  assert (Hpos : (0 < length (Xs (load σ s)))%nat).
  { destruct (Xs (load σ s)); [done|cbn; lia]. }
  destruct (percentile_index_in_range p (Z.of_nat (length (Xs (load σ1 c)))) Hvp Hp0 Hp1)
    as (i & Hi & Hr); [lia|].
  destruct (lookup_lt_is_Some_2 (Xs (load σ1 c)) (Z.to_nat i) ltac:(lia)) as [x Hx].
  exists x. split; [|rewrite <- Hperm; by apply list_elem_of_lookup_2 in Hx].
  unfold Percentile. unfold mbind at 1, M_bind at 1. unfold get_load at 1.
  destruct (Xs (load σ s)) as [|x0 xs0] eqn:Hxs; [done|].
  cbn [length Nat.eqb]. rewrite Hle0, Hge1.
  unfold mbind at 1, M_bind at 1. rewrite Hsc.
  unfold mbind at 1, M_bind at 1. unfold get_load at 1.
  unfold weighted. rewrite Hw'. rewrite bool_decide_eq_false_2 by (by intros [? ?]).
  cbn [negb]. unfold lift, index_int. cbn [snd]. rewrite Hi.
  replace (i <? 0)%Z with false by (symmetry; apply Z.ltb_ge; lia).
  by apply index_lookup.
Qed.

Lemma Percentile_unweighted_value_witness :
  let σ := [[float64_of_int 3; float64_of_int 1; float64_of_int 2]] in
  let s := {| XsAt := Some 0%nat; WeightsAt := None; SortedAt := false |} in
  exists x, (Percentile s f0_75 σ).2 = Ok x /\ x ∈ Xs (load σ s).
Proof.
  intros σ s.
  apply (Percentile_unweighted_value σ s f0_75).
  - intros a [H|H]; [injection H as <-; cbn; lia | discriminate].
  - reflexivity.
  - discriminate.
  - cbn. lia.
  - reflexivity.
  - reflexivity.
  - reflexivity.
Defined.

(** ** A sample flagged as sorted is not copied *)

(** X18. On a sample flagged as sorted, Percentile and IQR leave the store
    as it is: they allocate no copy and write nothing, for every [p]. *)
Theorem Percentile_IQR_sorted_store `{SortPkg} (σ : store) (s : SampleAt) (p : float64) :
  SortedAt s = true -> (Percentile s p σ).1 = σ /\ (IQR s σ).1 = σ.
Proof.
  intros Hs.
  assert (HP : forall q, (Percentile s q σ).1 = σ).
  { intros q. destruct (Percentile_store s q σ) as [->| ->]; [done|].
    unfold sorted_copy. by rewrite Hs. }
  split; [apply HP|]. unfold IQR. unfold mbind at 1, M_bind at 1.
  unfold sorted_copy at 1. rewrite Hs. cbn [negb]. unfold mret at 1, M_ret at 1.
  unfold mbind at 1, M_bind at 1.
  pose proof (HP f0_75) as H75. destruct (Percentile s f0_75 σ) as [σ1 [hi|msg]];
    cbn [fst] in H75; subst σ1; [|done].
  unfold mbind at 1, M_bind at 1.
  pose proof (HP f0_25) as H25. destruct (Percentile s f0_25 σ) as [σ2 [lo|msg]];
    cbn [fst] in H25; subst σ2; done.
Qed.

Lemma Percentile_IQR_sorted_store_witness :
  let σ := [[float64_of_int 1; float64_of_int 2; float64_of_int 3]] in
  let s := {| XsAt := Some 0%nat; WeightsAt := None; SortedAt := true |} in
  (Percentile s f0_25 σ).1 = σ /\ (IQR s σ).1 = σ.
Proof.
  intros σ s. apply (Percentile_IQR_sorted_store σ s f0_25). reflexivity.
Defined.

(** ** Percentile(NaN) *)

Lemma fmul_nan_r x : x ⊗ math_NaN = math_NaN.
Proof. by destruct x. Qed.

Lemma Percentile_scan_nan xs i ws :
  Percentile_scan xs i ws math_NaN = index xs (length xs - 1).
Proof.
  revert i. induction ws as [|w ws IH]; intros i; [done|].
  cbn [Percentile_scan]. rewrite fsub_nan_l. by rewrite IH.
Qed.

(** X19. On a weighted sample flagged as sorted, with at least one value,
    Percentile(NaN) returns the last value, whatever the weights: NaN is
    neither [<= 0] nor [>= 1], and a NaN target never falls below 0. *)
Theorem Percentile_NaN_weighted `{SortPkg} (σ : store) (s : SampleAt) (ws : list float64) :
  SortedAt s = true -> Weights (load σ s) = Some ws ->
  forall x, last (Xs (load σ s)) = Some x ->
  Percentile s math_NaN σ = (σ, Ok x).
Proof.
  intros Hs Hw x Hx. unfold Percentile. unfold mbind at 1, M_bind at 1, get_load at 1.
  destruct (Xs (load σ s)) as [|x0 xs0] eqn:Hxs; [done|].
  cbn [length Nat.eqb]. change (math_NaN <=. f0) with false. change (math_NaN >=. f1) with false.
  unfold sorted_copy. rewrite Hs. cbn [negb]. unfold_M. cbn beta iota.
  unfold weighted. rewrite Hw, bool_decide_eq_true_2 by eauto. cbn [negb].
  rewrite fmul_nan_r, Percentile_scan_nan, Hxs. f_equal.
  apply index_lookup. rewrite <- Hx, last_lookup. f_equal. cbn. lia.
Qed.

Lemma Percentile_NaN_weighted_witness :
  Percentile {| XsAt := Some 0%nat; WeightsAt := Some 1%nat; SortedAt := true |} math_NaN
    [[float64_of_int 1; float64_of_int 2]; [f1; f1]]
  = ([[float64_of_int 1; float64_of_int 2]; [f1; f1]], Ok (float64_of_int 2)).
Proof.
  apply (Percentile_NaN_weighted _ _ [f1; f1]); reflexivity.
Defined.

(** ** Sum is never a negative zero *)

Lemma fold_Sum_not_neg_zero xs sum :
  exponent_bounded sum -> sum <> S754_zero true -> Forall exponent_bounded xs ->
  fold_left (fun sum x => sum ⊕ x) xs sum <> S754_zero true.
Proof.
  revert sum. induction xs as [|x xs IH]; intros sum Hb Hnz Hxs; [done|].
  inversion Hxs as [|?? Hx Hxs']; subst. cbn [fold_left].
  destruct (fadd_invariant sum x Hb Hnz Hx). by apply IH.
Qed.

Lemma Sum_loop_not_neg_zero ws i xs sum r :
  exponent_bounded sum -> sum <> S754_zero true ->
  Sum_loop ws i xs sum = Ok r -> r <> S754_zero true.
Proof.
  revert i sum. induction xs as [|x xs IH]; intros i sum Hb Hnz; cbn [Sum_loop].
  - by intros [= <-].
  - destruct (index ws i) as [w|msg]; [|done]. cbn [mbind result_bind].
    destruct (fadd_invariant sum (x ⊗ w) Hb Hnz (fmul_bounded x w)).
    by apply IH.
Qed.



(** ** The weight of a sample without weights *)

Lemma int_of_float64_of_int K :
  (0 <= K < 2 ^ 53)%Z -> int_of_float64 (float64_of_int K) = Some K.
Proof.
  intros HK. destruct (Z.eq_dec K 0) as [->|Hne]; [done|].
  destruct (float64_of_int_small K ltac:(lia)) as (mM & eM & -> & HeM & HmM).
  unfold int_of_float64. rewrite HmM.
  assert (Hp : (0 < 2 ^ (- eM))%Z) by (apply Z.pow_pos_nonneg; lia).
  assert (Hmag : (if (0 <=? eM)%Z then K * 2 ^ (- eM) * 2 ^ eM
                  else K * 2 ^ (- eM) / 2 ^ (- eM))%Z = K).
  { destruct (0 <=? eM)%Z eqn:H0.
    - apply Z.leb_le in H0. assert (eM = 0)%Z as -> by lia. cbn. lia.
    - apply Z.div_mul. lia. }
  rewrite Hmag.
  replace ((- 2 ^ 63 <=? K) && (K <? 2 ^ 63))%Z with true; [done|].
  symmetry. apply andb_true_intro. split; [apply Z.leb_le|apply Z.ltb_lt]; lia.
Qed.

(** X21. The weight of a sample without weights is the number of its
    values as a float64, exactly as long as there are fewer than [2^53]:
    converted back to an int it is the number of values. *)
Theorem Sample_Weight_unweighted (s : Sample) :
  Weights s = None -> (Z.of_nat (length (Xs s)) < 2 ^ 53)%Z ->
  Sample_Weight s = float64_of_int (Z.of_nat (length (Xs s))) /\
  int_of_float64 (Sample_Weight s) = Some (Z.of_nat (length (Xs s))).
Proof.
  intros Hw Hn.
  assert (HW : Sample_Weight s = float64_of_int (Z.of_nat (length (Xs s)))).
  { unfold Sample_Weight, weighted. rewrite Hw.
    by rewrite bool_decide_eq_false_2 by (by intros [? ?]). }
  split; [done|]. rewrite HW. apply int_of_float64_of_int. lia.
Qed.

Lemma Sample_Weight_unweighted_witness :
  int_of_float64 (Sample_Weight {| Xs := [f1; f1; f1]; Weights := None; Sorted := false |})
  = Some 3%Z.
Proof.
  apply (Sample_Weight_unweighted {| Xs := [f1; f1; f1]; Weights := None; Sorted := false |}).
  - reflexivity.
  - cbn. lia.
Defined.

(** ** Mean of a constant sequence *)

(** Dividing a float64 by 1 changes nothing. *)
Lemma fdiv_f1 x : valid_binary prec emax x = true -> x ⊘ f1 = x.
Proof.
  intros Hv. destruct x as [s|s| |s mx ex]; [by destruct s..|done|].
  unfold valid_binary, bounded, canonical_mantissa in Hv.
  apply andb_prop in Hv as [Hc He]. apply Z.eqb_eq in Hc. apply Z.leb_le in He.
  unfold fdiv, SFdiv, f1, SFdiv_core_binary.
  change (Zdigits2 (Z.pos 4503599627370496)) with 53%Z. cbn [Zdigits2].
  set (d := Z.pos (digits2_pos mx)) in *.
  replace (d + ex - (53 + -52))%Z with (d + ex - 1)%Z by lia.
  replace (ex - -52)%Z with (ex + 52)%Z by lia.
  rewrite xorb_false_r.
  assert (Hd : (1 <= d)%Z) by (unfold d; lia).
  destruct (Z_lt_le_dec (emin prec emax) ex) as [Hn|Hs].
  - (* a normal number: the quotient has one digit more *)
    assert (Hd53 : d = 53%Z) by (unfold fexp, emin, prec, emax in *; lia).
    assert (He' : Z.min (fexp prec emax (d + ex - 1)) (ex + 52) = (ex - 1)%Z)
      by (unfold fexp, emin, prec, emax in *; lia).
    rewrite He'. replace (ex + 52 - (ex - 1))%Z with 53%Z by lia.
    rewrite Z.shiftl_mul_pow2 by lia.
    replace (Z.pos mx * 2 ^ 53)%Z with (Z.pos mx~0 * 4503599627370496)%Z by lia.
    pose proof (Z.div_mul (Z.pos mx~0) 4503599627370496 ltac:(lia)) as Hq.
    pose proof (Z.mod_mul (Z.pos mx~0) 4503599627370496 ltac:(lia)) as Hr.
    unfold Z.div, Z.modulo in Hq, Hr.
    destruct (Z.div_eucl (Z.pos mx~0 * 4503599627370496) 4503599627370496) as [q r].
    cbn [fst snd] in Hq, Hr. subst q r.
    change (new_location 4503599627370496 0) with loc_Exact.
    unfold binary_round_aux, shr_fexp. cbn [Zdigits2 digits2_pos].
    rewrite Pos2Z.inj_succ. fold d.
    replace (fexp prec emax (Z.succ d + (ex - 1)) - (ex - 1))%Z with 1%Z
      by (unfold fexp, emin, prec, emax in *; lia).
    cbn [shr shr_record_of_loc SpecFloat.iter_pos shr_1 orb loc_of_shr_record
         round_nearest_even shr_m Zdigits2].
    fold d. replace (ex - 1 + 1)%Z with ex by lia.
    replace (fexp prec emax (d + ex) - ex)%Z with 0%Z by lia.
    cbn [shr shr_m]. by rewrite (proj2 (Z.leb_le _ _) He).
  - (* a subnormal number *)
    assert (Hex : ex = emin prec emax) by (unfold fexp, emin, prec, emax in *; lia).
    assert (He' : Z.min (fexp prec emax (d + ex - 1)) (ex + 52) = ex)
      by (unfold fexp, emin, prec, emax in *; lia).
    rewrite He'. replace (ex + 52 - ex)%Z with 52%Z by lia.
    rewrite Z.shiftl_mul_pow2 by lia.
    change (2 ^ 52)%Z with 4503599627370496%Z.
    pose proof (Z.div_mul (Z.pos mx) 4503599627370496 ltac:(lia)) as Hq.
    pose proof (Z.mod_mul (Z.pos mx) 4503599627370496 ltac:(lia)) as Hr.
    unfold Z.div, Z.modulo in Hq, Hr.
    destruct (Z.div_eucl (Z.pos mx * 4503599627370496) 4503599627370496) as [q r].
    cbn [fst snd] in Hq, Hr. subst q r.
    change (new_location 4503599627370496 0) with loc_Exact.
    unfold binary_round_aux, shr_fexp. cbn [Zdigits2]. fold d.
    replace (fexp prec emax (d + ex) - ex)%Z with 0%Z by lia.
    cbn [shr shr_record_of_loc loc_of_shr_record round_nearest_even shr_m Zdigits2].
    fold d. replace (fexp prec emax (d + ex) - ex)%Z with 0%Z by lia.
    cbn [shr shr_record_of_loc shr_m]. by rewrite (proj2 (Z.leb_le _ _) He).
Qed.

Lemma fsub_self c : is_finite c = true -> c ⊖ c = f0.
Proof.
  destruct c as [[]| | |s m e]; try done. intros _.
  unfold fsub, SFsub. rewrite Z.min_id. unfold shl_align. rewrite Z.sub_diag.
  cbn [fst]. rewrite ?Z.sub_diag. done.
Qed.

Lemma binary_round_aux_pos_cases s m e l :
  (0 < m)%Z -> (emin prec emax <= e)%Z ->
  (exists m' e', binary_round_aux prec emax s m e l = S754_finite s m' e') \/
  binary_round_aux prec emax s m e l = S754_infinity s.
Proof.
  intros Hm He. unfold binary_round_aux.
  pose proof (shr_fexp_pos m e l Hm He) as H1.
  pose proof (shr_fexp_exp m e l) as He1.
  destruct (shr_fexp prec emax m e l) as [r1 e1]. cbn [fst snd] in H1, He1.
  pose proof (shr_fexp_pos _ e1 loc_Exact
                (round_nearest_even_pos _ (loc_of_shr_record r1) H1) He1) as H2.
  destruct (shr_fexp prec emax _ e1 loc_Exact) as [r2 e2]. cbn [fst] in H2.
  destruct (shr_m r2) as [|q|q]; [lia| |lia].
  destruct (e2 <=? emax - prec)%Z; eauto.
Qed.

Lemma float64_of_int_pos_cases K :
  (0 < K)%Z ->
  (exists m e, float64_of_int K = S754_finite false m e) \/
  float64_of_int K = S754_infinity false.
Proof.
  intros HK. destruct K as [|k|k]; [lia| |lia].
  unfold float64_of_int, binary_normalize, binary_round.
  pose proof (shl_align_exp k 0 (fexp prec emax (Z.pos (digits2_pos k) + 0))) as Hz.
  destruct (shl_align _ _ _) as [mz ez]. cbn [snd] in Hz.
  apply binary_round_aux_pos_cases; [done|].
  apply Hz; unfold fexp, emin, prec, emax; lia.
Qed.

Lemma fdiv_0_float64_of_int K : (0 < K)%Z -> f0 ⊘ float64_of_int K = f0.
Proof.
  intros HK. by destruct (float64_of_int_pos_cases K HK) as [(m & e & ->)| ->].
Qed.

Lemma Mean_loop_constant c n i :
  is_finite c = true -> c <> S754_zero true -> Mean_loop i (replicate n c) c = c.
Proof.
  intros Hf Hnz. revert i. induction n as [|n IH]; intros i; [done|].
  cbn [replicate Mean_loop].
  rewrite fsub_self by done. rewrite fdiv_0_float64_of_int by lia.
  change f0 with (S754_zero false). rewrite fadd_zero_r by done. apply IH.
Qed.

(** X22. The Mean of a single float64 other than [-0] is that value, and
    the Mean of a sequence that repeats one finite float64 other than [-0]
    is that value exactly: from the second element on, the update adds
    [(c - c) / k = 0].  A sequence that repeats an infinity two or more times
    has Mean NaN, for the first difference is [Inf - Inf]. *)
Theorem Mean_constant (c : float64) (n : nat) :
  valid_binary prec emax c = true -> c <> S754_zero true ->
  Mean [c] = c /\
  (is_finite c = true -> Mean (replicate (S n) c) = c) /\
  (forall s, c = S754_infinity s -> Mean (replicate (S (S n)) c) = math_NaN).
Proof.
  intros Hv Hnz.
  assert (H1 : f0 ⊕ (c ⊖ f0) ⊘ float64_of_int (Z.of_nat 0 + 1) = c).
  { change (float64_of_int (Z.of_nat 0 + 1)) with f1.
    rewrite fsub_0_r, fdiv_f1 by done. by destruct c as [[]| | |]. }
  split; [|split].
  - unfold Mean. cbn [length Nat.eqb Mean_loop]. by rewrite H1.
  - intros Hf. unfold Mean. cbn [replicate length Nat.eqb Mean_loop]. rewrite H1.
    by apply Mean_loop_constant.
  - intros s ->. unfold Mean. cbn [replicate length Nat.eqb Mean_loop]. rewrite H1.
    replace (S754_infinity s ⊖ S754_infinity s) with math_NaN by (by destruct s).
    rewrite fdiv_nan_l, fadd_nan_r. apply Mean_loop_nan.
Qed.

Lemma Mean_constant_witness :
  Mean [float64_of_int 7] = float64_of_int 7 /\
  Mean (replicate 4 (float64_of_int 7)) = float64_of_int 7.
Proof.
  destruct (Mean_constant (float64_of_int 7) 3) as (H1 & H2 & _).
  - reflexivity.
  - discriminate.
  - split; [exact H1|]. apply H2. reflexivity.
Defined.

(** ** IQR of a sample with values *)

Lemma Percentile_sorted_in_sample `{SortPkg} (σ : store) (s : SampleAt) (p : float64) :
  SortedAt s = true -> Xs (load σ s) <> [] ->
  valid_binary prec emax p = true -> (f0 <. p) = true -> (p <. f1) = true ->
  match Weights (load σ s) with
  | None => (Z.of_nat (length (Xs (load σ s))) <= 2 ^ 53)%Z
  | Some ws => length ws = length (Xs (load σ s))
  end ->
  exists x, Percentile s p σ = (σ, Ok x) /\ x ∈ Xs (load σ s).
Proof.
  intros Hs Hne Hvp Hp0 Hp1 Hw.
  assert (Hle0 : (p <=. f0) = false).
  { apply not_true_is_false. intros [Hc _]%fle_not_flt. congruence. }
  assert (Hge1 : (p >=. f1) = false).
  { apply not_true_is_false. intros [Hc _]%fle_not_flt. congruence. }
  assert (Hpos : (0 < length (Xs (load σ s)))%nat).
  { destruct (Xs (load σ s)); [done|cbn; lia]. }
  assert (HP : Percentile s p σ =
    (σ, if negb (weighted (load σ s))
        then index_int (Xs (load σ s))
               (p ⊗ float64_of_int (Z.of_nat (length (Xs (load σ s))) - 1))
        else Percentile_scan (Xs (load σ s)) 0 (wlist (load σ s))
               (Sample_Weight (load σ s) ⊗ p))).
  { unfold Percentile, sorted_copy. rewrite Hs. cbn [negb]. unfold_M. cbn beta iota.
    replace (length (Xs (load σ s)) =? 0)%nat with false
      by (symmetry; apply Nat.eqb_neq; lia).
    rewrite Hle0, Hge1. by destruct (negb _). }
  rewrite HP. unfold weighted, wlist.
  destruct (Weights (load σ s)) as [ws|] eqn:HW.
  - rewrite bool_decide_eq_true_2 by eauto. cbn [negb from_option id].
    destruct (Percentile_scan_value (Xs (load σ s)) 0 ws
                (Sample_Weight (load σ s) ⊗ p) Hne ltac:(lia)) as (x & Hx & Hin).
    exists x. by rewrite Hx.
  - rewrite bool_decide_eq_false_2 by (by intros [? ?]). cbn [negb].
    destruct (percentile_index_in_range p (Z.of_nat (length (Xs (load σ s)))) Hvp Hp0 Hp1)
      as (i & Hi & Hr); [lia|].
    destruct (lookup_lt_is_Some_2 (Xs (load σ s)) (Z.to_nat i) ltac:(lia)) as [x Hx].
    exists x. split; [|by apply list_elem_of_lookup_2 in Hx].
    unfold index_int. rewrite Hi.
    replace (i <? 0)%Z with false by (symmetry; apply Z.ltb_ge; lia).
    by rewrite (index_lookup _ _ _ Hx).
Qed.

Lemma sorted_copy_sample {SP : SortPkg} {HS : SortContract SP} (σ : store) (s : SampleAt) :
  valid σ s ->
  match Weights (load σ s) with
  | None => True
  | Some ws => length ws = length (Xs (load σ s))
  end ->
  exists (σ1 : store) (c : SampleAt),
    sorted_copy s σ = (σ1, Ok c) /\ SortedAt c = true /\
    Xs (load σ1 c) ≡ₚ Xs (load σ s) /\
    match Weights (load σ1 c) with
    | None => Weights (load σ s) = None
    | Some ws' => length ws' = length (Xs (load σ1 c))
    end.
Proof.
  intros Hv Hw. destruct (Weights (load σ s)) as [ws|] eqn:HW.
  - destruct (sorted_copy_weighted σ s ws Hv HW Hw) as (σ1 & c & ws' & Hsc & Hperm & Hw' & Hl).
    exists σ1, c. split; [done|]. split; [|split; [done|by rewrite Hw']].
    apply (proj2 (sorted_copy_frame s σ Hv)). by rewrite Hsc.
  - assert (Hn : WeightsAt s = None).
    { unfold load in HW. cbn [Weights] in HW. by destruct (WeightsAt s). }
    destruct (sorted_copy_unweighted σ s Hv Hn) as (σ1 & c & Hsc & Hperm & Hw').
    exists σ1, c. split; [done|]. split; [|split; [done|by rewrite Hw']].
    apply (proj2 (sorted_copy_frame s σ Hv)). by rewrite Hsc.
Qed.

(** X23. Take a sample with at least one value whose slices are arrays of
    the store, with as many weights as values or, without weights, with at
    most [2^53] values.  IQR does not panic, and what it returns is the
    difference of two values of the sample.  This holds for every
    [sort.Sort] that keeps Go's contract. *)
Theorem IQR_values {SP : SortPkg} {HS : SortContract SP} (σ : store) (s : SampleAt) :
  valid σ s -> Xs (load σ s) <> [] ->
  match Weights (load σ s) with
  | None => (Z.of_nat (length (Xs (load σ s))) <= 2 ^ 53)%Z
  | Some ws => length ws = length (Xs (load σ s))
  end ->
  exists hi lo,
    (IQR s σ).2 = Ok (hi ⊖ lo) /\ hi ∈ Xs (load σ s) /\ lo ∈ Xs (load σ s).
Proof.
  intros Hv Hne Hw.
  destruct (sorted_copy_sample σ s Hv) as (σ1 & c & Hsc & Hs & Hperm & Hw').
  { destruct (Weights (load σ s)); done. }
  assert (Hne' : Xs (load σ1 c) <> []).
  { intros Hnil. rewrite Hnil in Hperm. by apply Permutation_nil_l in Hperm. }
  assert (Hw1 : match Weights (load σ1 c) with
                | None => (Z.of_nat (length (Xs (load σ1 c))) <= 2 ^ 53)%Z
                | Some ws => length ws = length (Xs (load σ1 c))
                end).
  { destruct (Weights (load σ1 c)); [done|]. rewrite Hw' in Hw. by rewrite Hperm. }
  destruct (Percentile_sorted_in_sample σ1 c f0_75 Hs Hne') as (hi & Hhi & Hin1);
    [reflexivity..|done|].
  destruct (Percentile_sorted_in_sample σ1 c f0_25 Hs Hne') as (lo & Hlo & Hin2);
    [reflexivity..|done|].
  exists hi, lo. split; [|by rewrite <- Hperm].
  unfold IQR. unfold mbind at 1, M_bind at 1. rewrite Hsc.
  unfold mbind at 1, M_bind at 1. rewrite Hhi.
  unfold mbind at 1, M_bind at 1. by rewrite Hlo.
Qed.

Lemma IQR_values_witness :
  let σ := [[float64_of_int 4; float64_of_int 1; float64_of_int 3; float64_of_int 2]] in
  let s := {| XsAt := Some 0%nat; WeightsAt := None; SortedAt := false |} in
  exists hi lo,
    (IQR s σ).2 = Ok (hi ⊖ lo) /\ hi ∈ Xs (load σ s) /\ lo ∈ Xs (load σ s).
Proof.
  intros σ s. apply (IQR_values σ s).
  - intros a [H|H]; [injection H as <-; cbn; lia | discriminate].
  - discriminate.
  - cbn. lia.
Defined.
